(** * Pokédex data layer: normalisation, batch fetching, ranking, filtering, search

    A shallow embedding of [services/api.ts] (the data-acquisition layer),
    of the comparator and the filter predicate of [components/MainView.tsx]
    and of the declarations of [types/pokemon.ts], with the properties the
    specification states about them.

    Conventions of the embedding.
    - JavaScript strings are [string]s of ASCII characters (the slugs the
      remote listing serves are ASCII); [toLowerCase], [toUpperCase], [trim]
      and the regular-expression class [\s] act on that range.
    - JavaScript numbers that the code uses as integers (identifiers, base
      stats, levels, array indices) are [Z]; [NaN] is written out where the
      code can produce it.
    - A promise that settles is a [Result]: resolved with a value or rejected
      with the message of the thrown [Error]. *)

From Stdlib Require Import ZArith Lia List String Ascii Bool DecimalString DecimalPos.
From Stdlib Require Import Sorted Permutation.
From stdpp Require Import base option list strings gmap.
Import ListNotations.

Local Open Scope string_scope.
Local Open Scope list_scope.
Local Open Scope Z_scope.

(** ** JavaScript string primitives *)

Module Js.

(** White space and line terminators of ECMAScript within ASCII:
    TAB, LF, VT, FF, CR and SPACE. *)
Definition isWhiteSpace (c : ascii) : bool :=
  let n := nat_of_ascii c in
  ((9 <=? n)%nat && (n <=? 13)%nat) || (n =? 32)%nat.

Definition isUpper (c : ascii) : bool :=
  let n := nat_of_ascii c in (65 <=? n)%nat && (n <=? 90)%nat.

Definition isLower (c : ascii) : bool :=
  let n := nat_of_ascii c in (97 <=? n)%nat && (n <=? 122)%nat.

Definition isDigit (c : ascii) : bool :=
  let n := nat_of_ascii c in (48 <=? n)%nat && (n <=? 57)%nat.

Definition lowerChar (c : ascii) : ascii :=
  if isUpper c then ascii_of_nat (nat_of_ascii c + 32) else c.

Definition upperChar (c : ascii) : ascii :=
  if isLower c then ascii_of_nat (nat_of_ascii c - 32) else c.

Fixpoint mapChars (f : ascii -> ascii) (s : string) : string :=
  match s with
  | EmptyString => EmptyString
  | String c s' => String (f c) (mapChars f s')
  end.

(** [s.toLowerCase()] *)
Definition toLowerCase (s : string) : string := mapChars lowerChar s.

(** [s.toUpperCase()] *)
Definition toUpperCase (s : string) : string := mapChars upperChar s.

Fixpoint trimStart (s : string) : string :=
  match s with
  | EmptyString => EmptyString
  | String c s' => if isWhiteSpace c then trimStart s' else s
  end.

(** All characters of [s] are white space. *)
Fixpoint isBlank (s : string) : bool :=
  match s with
  | EmptyString => true
  | String c s' => isWhiteSpace c && isBlank s'
  end.

Fixpoint trimEnd (s : string) : string :=
  match s with
  | EmptyString => EmptyString
  | String c s' => if isBlank s then EmptyString else String c (trimEnd s')
  end.

(** [s.trim()] *)
Definition trim (s : string) : string := trimEnd (trimStart s).

(** [s.startsWith(p)] *)
Fixpoint startsWith (p s : string) : bool :=
  match p, s with
  | EmptyString, _ => true
  | String a p', String b s' => Ascii.eqb a b && startsWith p' s'
  | String _ _, EmptyString => false
  end.

(** [s.includes(needle)] *)
Fixpoint includes (s needle : string) : bool :=
  startsWith needle s ||
  match s with
  | EmptyString => false
  | String _ s' => includes s' needle
  end.

(** [parts.join(sep)] *)
Fixpoint join (sep : string) (parts : list string) : string :=
  match parts with
  | [] => EmptyString
  | [p] => p
  | p :: rest => p +:+ sep +:+ join sep rest
  end.

(** [s.replace(/[...]/g, r)] for a character class given as a predicate. *)
Definition replaceAll (cls : ascii -> bool) (r : ascii) (s : string) : string :=
  mapChars (fun c => if cls c then r else c) s.

(** [s.split(/[...]+/).filter(Boolean)]: the maximal runs of characters
    outside the class, in order (the empty pieces that [split] yields at
    the ends are the ones [filter(Boolean)] removes). *)
Fixpoint splitRuns (cls : ascii -> bool) (cur : string) (s : string) : list string :=
  let flush := match cur with EmptyString => [] | _ => [cur] end in
  match s with
  | EmptyString => flush
  | String c s' =>
      if cls c then flush ++ splitRuns cls EmptyString s'
      else splitRuns cls (cur +:+ String c EmptyString) s'
  end.

(** [String(n)] for an integer [n]. *)
Definition ofInt (n : Z) : string := NilZero.string_of_int (Z.to_int n).

(** [x.toFixed(1)] for [x = n / 10] with [n] an integer: one decimal
    digit, the sign in front. *)
Definition tenthsToFixed1 (n : Z) : string :=
  (if n <? 0 then "-" else "") +:+
  ofInt (Z.abs n / 10) +:+ "." +:+ ofInt (Z.abs n mod 10).

Definition digitValue (c : ascii) : Z := Z.of_nat (nat_of_ascii c) - 48.

Fixpoint digitsPrefix (acc : option Z) (s : string) : option Z :=
  match s with
  | EmptyString => acc
  | String c s' =>
      if isDigit c
      then digitsPrefix (Some (10 * default 0 acc + digitValue c)) s'
      else acc
  end.

(** [parseInt(s, 10)]: leading white space is skipped, an optional sign is
    read, then the longest run of decimal digits; [None] is [NaN]. *)
Definition parseInt10 (s : string) : option Z :=
  match trimStart s with
  | String "-" rest => option_map Z.opp (digitsPrefix None rest)
  | String "+" rest => digitsPrefix None rest
  | rest => digitsPrefix None rest
  end.

(** Truthiness of a string: the empty string is falsy. *)
Definition truthy (s : string) : bool :=
  match s with EmptyString => false | _ => true end.

End Js.

(** ** JavaScript values

    The candidate entity is an ordinary JavaScript object, and [stripEmpty]
    walks it by [Object.keys], [Array.isArray] and [typeof]; the embedding
    therefore keeps the dynamic shape.  An array is a list of slots, a slot
    being [None] where the array has a hole (the result of [delete a[i]]);
    an object is the list of its own keys in insertion order. *)

#[warnings="-register-all"]
Inductive value : Type :=
| VUndefined
| VNull
| VBool (b : bool)
| VNum (n : Z)
| VStr (s : string)
| VArr (elems : list (option value))
| VObj (fields : list (string * value)).

(** [v == null || v === '' || (Array.isArray(v) && v.length === 0) ||
    (typeof v === 'object' && !Array.isArray(v) && Object.keys(v).length === 0)] *)
Definition isEmptyValue (v : value) : bool :=
  match v with
  | VUndefined | VNull => true
  | VStr s => negb (Js.truthy s)
  | VArr elems => match elems with [] => true | _ => false end
  | VObj fields => match fields with [] => true | _ => false end
  | VBool _ | VNum _ => false
  end.

(** The callback of [v.map] in [stripEmpty]:
    [item && typeof item === 'object' ? stripEmpty(item) : item]. *)
Definition stripItem (strip : value -> value) (item : value) : value :=
  match item with
  | VArr _ | VObj _ => strip item
  | _ => item
  end.

(** [v.map(f).filter(keep)] on an array with holes: [map] skips the holes
    and [filter] returns a dense array. *)
Definition mapFilterDense {A B : Type} (f : A -> B) (keep : B -> bool)
  : list (option A) -> list B :=
  fix go (elems : list (option A)) : list B :=
    match elems with
    | [] => []
    | None :: rest => go rest
    | Some item :: rest =>
        let y := f item in if keep y then y :: go rest else go rest
    end.

(** What one iteration of the [forEach] of [stripEmpty] leaves under the key
    whose value was [v]: [Some] of the new value, or [None] when the key is
    deleted. *)
Definition stripSlot (strip : value -> value) (v : value) : option value :=
  match v with
  | VArr elems =>
      match mapFilterDense (stripItem strip) (fun y => negb (isEmptyValue y)) elems with
      | [] => None
      | kept => Some (VArr (map Some kept))
      end
  | VObj _ => let v' := strip v in if isEmptyValue v' then None else Some v'
  | _ => if isEmptyValue v then None else Some v
  end.

(** Keys of an object rewritten in place; a deleted key disappears. *)
Definition rewriteFields (slot : value -> option value)
  : list (string * value) -> list (string * value) :=
  fix go (fields : list (string * value)) : list (string * value) :=
    match fields with
    | [] => []
    | (k, v) :: rest =>
        match slot v with
        | Some v' => (k, v') :: go rest
        | None => go rest
        end
    end.

(** Indices of an array rewritten in place; a deleted index becomes a hole
    and the length is unchanged. *)
Definition rewriteElems (slot : value -> option value)
  : list (option value) -> list (option value) :=
  fix go (elems : list (option value)) : list (option value) :=
    match elems with
    | [] => []
    | None :: rest => None :: go rest
    | Some v :: rest => slot v :: go rest
    end.

(** [stripEmpty(obj)].  [Object.keys] of an array are the indices that are
    not holes, so the function is also defined on arrays, which is how it is
    called on an array nested in an array.  A primitive has no keys. *)
Fixpoint stripEmpty (obj : value) : value :=
  match obj with
  | VObj fields => VObj (rewriteFields (stripSlot stripEmpty) fields)
  | VArr elems => VArr (rewriteElems (stripSlot stripEmpty) elems)
  | _ => obj
  end.

(** No attribute and no array element, at any depth below [v], is null,
    undefined, the empty string, an empty array or an empty object; a hole
    of an array counts as an empty slot. *)
Fixpoint noEmpty (v : value) : bool :=
  match v with
  | VArr elems =>
      forallb (fun e => match e with
                        | Some x => negb (isEmptyValue x) && noEmpty x
                        | None => false
                        end) elems
  | VObj fields =>
      forallb (fun kv => negb (isEmptyValue (snd kv)) && noEmpty (snd kv)) fields
  | _ => true
  end.

(** [obj.k] *)
Fixpoint getField (k : string) (fields : list (string * value)) : option value :=
  match fields with
  | [] => None
  | (k', v) :: rest => if String.eqb k k' then Some v else getField k rest
  end.

(** ** The remote records ([services/api.ts], interfaces) *)

Record PokeApiListItem := {
  item_name : string;
  item_url : string;
}.

Record PokeApiListResponse := {
  results : list PokeApiListItem;
  count : Z;
}.

Record PokeApiStat := {
  base_stat : Z;
  stat_name : string;             (* stat.name *)
}.

Record PokeApiTypeSlot := {
  slot : Z;
  type_name : string;             (* type.name *)
}.

Record PokeApiAbility := {
  ability_name : string;          (* ability.name *)
  ability_url : string;           (* ability.url *)
  is_hidden : bool;
}.

Record PokeApiMoveVersionDetail := {
  level_learned_at : Z;
  move_learn_method_name : string;  (* move_learn_method.name *)
  version_group_name : string;      (* version_group.name *)
}.

Record PokeApiMove := {
  move_name : string;             (* move.name *)
  version_group_details : list PokeApiMoveVersionDetail;
}.

Record OfficialArtwork := {
  artwork_front_default : option string;     (* string | null *)
}.

Record SpritesOther := {
  official_artwork : option OfficialArtwork; (* ['official-artwork']? *)
}.

Record PokeApiSprites := {
  front_default : option string;             (* string | null *)
  other : option SpritesOther;               (* other? *)
}.

Record PokeApiPokemon := {
  pokemon_id : Z;
  pokemon_name : string;
  height : Z;
  weight : Z;
  sprites : PokeApiSprites;
  stats : list PokeApiStat;
  types : list PokeApiTypeSlot;
  abilities : list PokeApiAbility;
  moves : list PokeApiMove;
}.

Record GenerationRange := {
  gen_id : string;
  displayName : string;
  setCode : string;
  maxDex : Z;
}.

(** ** Constants and derivations of the normalizer *)

Definition MAX_SAFE_INTEGER : Z := 9007199254740991.

Definition DETAIL_CONCURRENCY : nat := 6.
Definition POKEMON_INDEX_LIMIT : Z := 5000.

Definition GENERATION_RANGES : list GenerationRange :=
  [ {| gen_id := "generation-i"; displayName := "Generation I"; setCode := "GEN1"; maxDex := 151 |};
    {| gen_id := "generation-ii"; displayName := "Generation II"; setCode := "GEN2"; maxDex := 251 |};
    {| gen_id := "generation-iii"; displayName := "Generation III"; setCode := "GEN3"; maxDex := 386 |};
    {| gen_id := "generation-iv"; displayName := "Generation IV"; setCode := "GEN4"; maxDex := 493 |};
    {| gen_id := "generation-v"; displayName := "Generation V"; setCode := "GEN5"; maxDex := 649 |};
    {| gen_id := "generation-vi"; displayName := "Generation VI"; setCode := "GEN6"; maxDex := 721 |};
    {| gen_id := "generation-vii"; displayName := "Generation VII"; setCode := "GEN7"; maxDex := 809 |};
    {| gen_id := "generation-viii"; displayName := "Generation VIII"; setCode := "GEN8"; maxDex := 905 |};
    {| gen_id := "generation-ix"; displayName := "Generation IX"; setCode := "GEN9";
       maxDex := MAX_SAFE_INTEGER |} ].

(** The class [[-_\s]] of [toTitleCase]. *)
Definition isSlugSeparator (c : ascii) : bool :=
  Ascii.eqb c "-" || Ascii.eqb c "_" || Js.isWhiteSpace c.

(** [part.charAt(0).toUpperCase() + part.slice(1)] *)
Definition capitalize (part : string) : string :=
  match part with
  | EmptyString => EmptyString
  | String c rest => String (Js.upperChar c) rest
  end.

Definition toTitleCase (value : string) : string :=
  Js.join " " (map capitalize (Js.splitRuns isSlugSeparator "" value)).

Definition sumStats (stats : list PokeApiStat) : Z :=
  fold_left (fun total stat => total + base_stat stat) stats 0.

(** [stats.find(...)?.base_stat ?? 0] *)
Definition getStat (stats : list PokeApiStat) (name : string) : Z :=
  match find (fun stat => String.eqb (stat_name stat) name) stats with
  | Some stat => base_stat stat
  | None => 0
  end.

(** The last entry of the table, [GENERATION_RANGES[GENERATION_RANGES.length - 1]]. *)
Definition lastGeneration : GenerationRange :=
  {| gen_id := "generation-ix"; displayName := "Generation IX"; setCode := "GEN9";
     maxDex := MAX_SAFE_INTEGER |}.

Definition getGenerationByDexId (dexId : Z) : GenerationRange :=
  match find (fun range => dexId <=? maxDex range) GENERATION_RANGES with
  | Some range => range
  | None => List.last GENERATION_RANGES lastGeneration
  end.

Definition getRarityFromStats (stats : list PokeApiStat) : string :=
  let total := sumStats stats in
  if 600 <=? total then "Legendary"
  else if 520 <=? total then "Epic"
  else if 450 <=? total then "Rare"
  else if 380 <=? total then "Uncommon"
  else "Common".

(** ** The normalizer, [mapPokemonToCard] *)

(** The records the normalizer builds before it assembles the card
    ([PokemonAbility], [PokemonStat], [PokemonMoveSummary] and [Attack] of
    [types/pokemon.ts]); an optional member that is [None] is written as
    [undefined]. *)

Record PokemonAbility := {
  pa_name : string;
  pa_hidden : bool;
}.

Record PokemonStat := {
  ps_name : string;
  ps_value : Z;
}.

Record PokemonMoveSummary := {
  pm_name : string;
  pm_levelLearnedAt : option Z;
  pm_learnMethod : option string;
  pm_versionGroup : option string;
}.

Record Attack := {
  at_name : string;
  at_cost : list string;
  at_convertedEnergyCost : Z;
  at_text : option string;        (* the key is set only when there are notes *)
}.

Definition strings (l : list string) : value := VArr (map (fun x => Some (VStr x)) l).
Definition optStr (o : option string) : value :=
  match o with Some x => VStr x | None => VUndefined end.
Definition optNum (o : option Z) : value :=
  match o with Some n => VNum n | None => VUndefined end.

Definition abilityValue (a : PokemonAbility) : value :=
  VObj [("name", VStr (pa_name a)); ("hidden", VBool (pa_hidden a))].

Definition statValue (st : PokemonStat) : value :=
  VObj [("name", VStr (ps_name st)); ("value", VNum (ps_value st))].

Definition moveValue (m : PokemonMoveSummary) : value :=
  VObj [("name", VStr (pm_name m));
        ("levelLearnedAt", optNum (pm_levelLearnedAt m));
        ("learnMethod", optStr (pm_learnMethod m));
        ("versionGroup", optStr (pm_versionGroup m))].

Definition attackValue (a : Attack) : value :=
  VObj ([("name", VStr (at_name a));
         ("cost", strings (at_cost a));
         ("convertedEnergyCost", VNum (at_convertedEnergyCost a))]
        ++ match at_text a with Some t => [("text", VStr t)] | None => [] end).

(** [a || b] on [string | null | undefined] with a string fallback. *)
Definition orString (a : option string) (b : string) : string :=
  match a with
  | Some x => if Js.truthy x then x else b
  | None => b
  end.

(** A string that is present and not empty: the test [x ? ... : ...]. *)
Definition present (a : option string) : bool :=
  match a with Some x => Js.truthy x | None => false end.

Definition isHyphen (c : ascii) : bool := Ascii.eqb c "-".
Definition isHyphenOrUnderscore (c : ascii) : bool := Ascii.eqb c "-" || Ascii.eqb c "_".

(** The separator [' • '] of the summaries (U+2022 in UTF-8). *)
Definition bullet : string :=
  String " " (String (ascii_of_nat 226) (String (ascii_of_nat 128)
    (String (ascii_of_nat 162) (String " " EmptyString)))).

(** [move.version_group_details?.find((entry) => entry.level_learned_at > 0)
     ?? move.version_group_details?.[0]] *)
Definition pickDetail (move : PokeApiMove) : option PokeApiMoveVersionDetail :=
  match find (fun entry => 0 <? level_learned_at entry) (version_group_details move) with
  | Some entry => Some entry
  | None => head (version_group_details move)
  end.

(** [Map.prototype.set]: a key already present keeps its position and takes
    the new value. *)
Fixpoint mapSet {V : Type} (k : string) (v : V) (m : list (string * V)) : list (string * V) :=
  match m with
  | [] => [(k, v)]
  | (k', v') :: rest =>
      if String.eqb k k' then (k, v) :: rest else (k', v') :: mapSet k v rest
  end.

(** [Array.from(new Map(entries).values())] *)
Definition mapValues {V : Type} (entries : list (string * V)) : list V :=
  map snd (fold_left (fun m kv => mapSet (fst kv) (snd kv) m) entries []).

(** [l.length > 0] *)
Definition nonEmpty {A : Type} (l : list A) : bool :=
  match l with [] => false | _ => true end.

Definition optField (cond : bool) (k : string) (v : value) : list (string * value) :=
  if cond then [(k, v)] else [].

(** [sprites.other?.['official-artwork']?.front_default] *)
Definition officialArtworkOf (sp : PokeApiSprites) : option string :=
  match other sp with
  | Some o =>
      match official_artwork o with
      | Some art => artwork_front_default art
      | None => None
      end
  | None => None
  end.

Definition officialArtFallback (id : Z) : string :=
  "https://raw.githubusercontent.com/PokeAPI/sprites/master/sprites/pokemon/other/official-artwork/"
  +:+ Js.ofInt id +:+ ".png".

Definition topMoveOf (move : PokeApiMove) : PokemonMoveSummary :=
  let detail := pickDetail move in
  {| pm_name := toTitleCase (move_name move);
     pm_levelLearnedAt :=
       match detail with
       | Some d => if level_learned_at d =? 0 then None else Some (level_learned_at d)
       | None => None
       end;
     pm_learnMethod :=
       match detail with
       | Some d =>
           if Js.truthy (move_learn_method_name d)
           then Some (toTitleCase (Js.replaceAll isHyphen " " (move_learn_method_name d)))
           else None
       | None => None
       end;
     pm_versionGroup :=
       match detail with
       | Some d =>
           if Js.truthy (version_group_name d)
           then Some (toTitleCase (Js.replaceAll isHyphen " " (version_group_name d)))
           else None
       | None => None
       end |}.

Definition attackNotes (move : PokeApiMove) : list string :=
  match pickDetail move with
  | Some d =>
      (if Js.truthy (move_learn_method_name d)
       then [toTitleCase (Js.replaceAll isHyphen " " (move_learn_method_name d))] else [])
      ++ (if 0 <? level_learned_at d then ["Lv " +:+ Js.ofInt (level_learned_at d)] else [])
      ++ (if Js.truthy (version_group_name d)
          then [toTitleCase (Js.replaceAll isHyphen " " (version_group_name d))] else [])
  | None => []
  end.

Definition attackOf (attackCostTypes : list string) (move : PokeApiMove) : Attack :=
  let notes := attackNotes move in
  {| at_name := toTitleCase (move_name move);
     at_cost := match attackCostTypes with [] => ["Colorless"] | _ => attackCostTypes end;
     at_convertedEnergyCost := Z.max 1 (Z.of_nat (length attackCostTypes));
     at_text := match notes with [] => None | _ => Some (Js.join bullet notes) end |}.

(** The object literal [card] of [mapPokemonToCard], before [stripEmpty]. *)
Definition candidateCard (pokemon : PokeApiPokemon) : value :=
  let generation := getGenerationByDexId (pokemon_id pokemon) in
  let types := map (fun typeSlot => toTitleCase (type_name typeSlot)) (types pokemon) in
  let officialArt :=
    orString (officialArtworkOf (sprites pokemon))
             (officialArtFallback (pokemon_id pokemon)) in
  let smallSprite := orString (front_default (sprites pokemon)) officialArt in
  let hp := getStat (stats pokemon) "hp" in
  let atk := getStat (stats pokemon) "attack" in
  let def := getStat (stats pokemon) "defense" in
  let spAtk := getStat (stats pokemon) "special-attack" in
  let spDef := getStat (stats pokemon) "special-defense" in
  let spd := getStat (stats pokemon) "speed" in
  let retreatCost := Z.max (Z.of_nat (length types)) 1 in
  let abilities :=
    map (fun entry => {| pa_name := toTitleCase (ability_name entry);
                         pa_hidden := is_hidden entry |})
        (List.filter (fun entry => Js.truthy (ability_name entry)) (abilities pokemon)) in
  let abilitySummary :=
    match abilities with
    | [] => None
    | _ => Some (Js.join ", " (map (fun a => if pa_hidden a then pa_name a +:+ " (Hidden)"
                                             else pa_name a) abilities))
    end in
  let baseStats :=
    map (fun stat => {| ps_name := toTitleCase (Js.replaceAll isHyphenOrUnderscore " " (stat_name stat));
                        ps_value := base_stat stat |})
        (stats pokemon) in
  let statsSummary :=
    match baseStats with
    | [] => None
    | _ => Some (Js.join bullet (map (fun st => ps_name st +:+ " " +:+ Js.ofInt (ps_value st)) baseStats))
    end in
  let named := List.filter (fun m => Js.truthy (move_name m)) (moves pokemon) in
  let topMoves := map topMoveOf (firstn 6 named) in
  let uniqueTopMoves := mapValues (map (fun m => (pm_name m, m)) topMoves) in
  let moveNames :=
    match uniqueTopMoves with
    | [] => None
    | _ => Some (Js.join ", " (map pm_name uniqueTopMoves))
    end in
  let formattedHeight :=
    if height pokemon =? 0 then None else Some (Js.tenthsToFixed1 (height pokemon) +:+ " m") in
  let formattedWeight :=
    if weight pokemon =? 0 then None else Some (Js.tenthsToFixed1 (weight pokemon) +:+ " kg") in
  let infoText :=
    (if present abilitySummary then ["Abilities: " +:+ default "" abilitySummary] else [])
    ++ (if present formattedHeight then ["Height: " +:+ default "" formattedHeight] else [])
    ++ (if present formattedWeight then ["Weight: " +:+ default "" formattedWeight] else [])
    ++ (if present statsSummary then ["Base Stats: " +:+ default "" statsSummary] else [])
    ++ (if present moveNames then ["Moves: " +:+ default "" moveNames] else []) in
  let attackCostTypes := match types with [] => ["Colorless"] | _ => firstn 2 types end in
  let attacks :=
    List.filter (fun a => Js.truthy (at_name a))
           (map (attackOf attackCostTypes) (firstn 3 named)) in
  VObj (
    [ ("id", VStr (Js.ofInt (pokemon_id pokemon)));
      ("localId", VStr (Js.ofInt (pokemon_id pokemon)));
      ("name", VStr (toTitleCase (pokemon_name pokemon)));
      ("image", VStr smallSprite);
      ("imageHiRes", VStr officialArt);
      ("rarity", VStr (getRarityFromStats (stats pokemon)));
      ("set", VObj [("id", VStr (gen_id generation));
                    ("name", VStr (displayName generation));
                    ("logo", VStr "")]);
      ("serie", VObj [("id", VStr (gen_id generation));
                      ("name", VStr (displayName generation))]);
      ("category", VStr "Pokemon");
      ("dexId", VArr [Some (VNum (pokemon_id pokemon))]);
      ("types", strings types);
      ("subtypes", VArr []) ]
    ++ optField (negb (hp =? 0)) "hp" (VStr (Js.ofInt hp))
    ++ optField (negb (atk =? 0)) "attack" (VStr (Js.ofInt atk))
    ++ optField (negb (def =? 0)) "defense" (VStr (Js.ofInt def))
    ++ optField (negb (spAtk =? 0)) "specialAttack" (VStr (Js.ofInt spAtk))
    ++ optField (negb (spDef =? 0)) "specialDefense" (VStr (Js.ofInt spDef))
    ++ optField (negb (spd =? 0)) "speed" (VStr (Js.ofInt spd))
    ++ [ ("retreatCost", VStr (Js.ofInt retreatCost));
         ("convertedRetreatCost", VNum retreatCost);
         ("number", VStr (Js.ofInt (pokemon_id pokemon)));
         ("series", VStr (displayName generation));
         ("setCode", VStr (setCode generation)) ]
    ++ optField (nonEmpty infoText) "text" (strings infoText)
    ++ optField (nonEmpty attacks) "attacks" (VArr (map (fun a => Some (attackValue a)) attacks))
    ++ [ ("weaknesses", VArr []);
         ("resistances", VArr []);
         ("evolvesFrom", VUndefined);
         ("evolvesTo", VArr []);
         ("nationalPokedexNumbers", VArr [Some (VNum (pokemon_id pokemon))]);
         ("legal", VObj [("standard", VBool true); ("expanded", VBool true)]);
         ("regulationMark", VStr "");
         ("images", VObj [("small", VStr smallSprite); ("large", VStr officialArt)]) ]
    ++ optField (present formattedHeight) "height" (optStr formattedHeight)
    ++ optField (present formattedWeight) "weight" (optStr formattedWeight)
    ++ optField (present abilitySummary) "abilitiesSummary" (optStr abilitySummary)
    ++ optField (present statsSummary) "baseStatsSummary" (optStr statsSummary)
    ++ optField (present moveNames) "movesSummary" (optStr moveNames)
    ++ optField (nonEmpty abilities) "abilities" (VArr (map (fun a => Some (abilityValue a)) abilities))
    ++ optField (nonEmpty baseStats) "baseStats" (VArr (map (fun st => Some (statValue st)) baseStats))
    ++ optField (nonEmpty uniqueTopMoves) "topMoves"
         (VArr (map (fun m => Some (moveValue m)) uniqueTopMoves))).

Definition mapPokemonToCard (pokemon : PokeApiPokemon) : value :=
  stripEmpty (candidateCard pokemon).

(** ** The canonical card as the views read it ([types/pokemon.ts])

    [stripEmpty(card) as PokemonCard] hands the entity to the views at its
    declared type.  The record lists the members that [sortCards],
    [matchesFilters] and [searchPokemon] read; an optional member that is
    absent is [None]. *)

Record CardSet := {
  set_id : string;
  set_name : string;
  set_logo : option string;
}.

Record CardSerie := {
  serie_id : string;
  serie_name : string;
}.

Record PokemonCard := {
  card_id : string;
  card_localId : string;
  card_name : string;
  card_image : string;
  card_rarity : option string;
  card_set : CardSet;
  card_serie : CardSerie;
  card_category : string;
  card_dexId : option (list Z);
  card_types : option (list string);
  card_hp : option string;
}.

Inductive SortProperty :=
| SortName | SortHp | SortAttack | SortDefense | SortSpecialAttack
| SortSpecialDefense | SortSpeed | SortRarity | SortSet | SortDexId.

Inductive SortOrder := Asc | Desc.

Record HpRange := {
  hp_min : Z;
  hp_max : Z;
}.

Record FilterOptions := {
  filter_sets : list string;
  filter_series : list string;
  filter_types : list string;
  filter_rarities : list string;
  filter_subtypes : list string;
  hpRange : HpRange;
}.

(** ** Ranking ([sortCards]) *)

Definition RARITY_ORDER : list string :=
  ["common"; "uncommon"; "rare"; "epic"; "legendary"].

Definition GENERATION_ORDER : list string :=
  ["generation i"; "generation ii"; "generation iii"; "generation iv"; "generation v";
   "generation vi"; "generation vii"; "generation viii"; "generation ix"].

(** A value the comparator computes for one card.  [RARITY_RANK] and
    [GENERATION_RANK] are plain objects and the code tests membership with
    [in], which also finds the members inherited from [Object.prototype];
    the lookup of such a key yields that inherited object, not a number. *)
Inductive SortKey :=
| KStr (s : string)
| KNum (n : Z)
| KInherited (key : string).

(** The members of [Object.prototype] whose name is unchanged by
    [toLowerCase], the only ones a lowercased key can hit. *)
Definition inheritedKeys : list string := ["constructor"; "__proto__"].

Fixpoint indexOf (key : string) (table : list string) (from : Z) : option Z :=
  match table with
  | [] => None
  | k :: rest => if String.eqb key k then Some from else indexOf key rest (from + 1)
  end.

(** [key in RANK ? RANK[key] : Number.MAX_SAFE_INTEGER], where [RANK] maps
    each entry of [table] to its position. *)
Definition rankOf (table : list string) (key : string) : SortKey :=
  match indexOf key table 0 with
  | Some i => KNum i
  | None =>
      if existsb (String.eqb key) inheritedKeys then KInherited key
      else KNum MAX_SAFE_INTEGER
  end.

(** [aRank !== bRank] is the negation of this test. *)
Definition sameKey (a b : SortKey) : bool :=
  match a, b with
  | KStr x, KStr y => String.eqb x y
  | KNum x, KNum y => x =? y
  | KInherited x, KInherited y => String.eqb x y
  | _, _ => false
  end.

(** [a - b] as the comparator computes it; [None] is [NaN], which is what a
    subtraction involving an inherited object gives. *)
Definition subtractKeys (a b : SortKey) : option Z :=
  match a, b with
  | KNum x, KNum y => Some (x - y)
  | _, _ => None
  end.

(** [parseInt(card.hp || '0', 10) || 0] *)
Definition hpOf (card : PokemonCard) : Z :=
  default 0 (Js.parseInt10 (orString (card_hp card) "0")).

(** [card.rarity?.toLowerCase() ?? ''] *)
Definition rarityKey (card : PokemonCard) : string :=
  match card_rarity card with
  | Some r => Js.toLowerCase r
  | None => ""
  end.

(** [card.set?.name?.toLowerCase() ?? ''] *)
Definition setKey (card : PokemonCard) : string :=
  Js.toLowerCase (set_name (card_set card)).

Definition setRank (card : PokemonCard) : SortKey := rankOf GENERATION_ORDER (setKey card).

(** [card.dexId?.[0] || 0] *)
Definition firstDexId (card : PokemonCard) : Z :=
  match card_dexId card with
  | Some (n :: _) => n
  | _ => 0
  end.

(** Comparison by code units, a collation to evaluate examples with. *)
Definition ordinalCompare (a b : string) : Z :=
  match String.compare a b with
  | Lt => -1
  | Eq => 0
  | Gt => 1
  end.

(** [Array.prototype.sort(compare)]: the sort is stable, [compare(x, y) > 0]
    puts [y] first, and a [NaN] result counts as [0]. *)
Section ArraySort.
Context {A : Type}.
Variable compare : A -> A -> option Z.

Fixpoint insertSorted (x : A) (l : list A) : list A :=
  match l with
  | [] => [x]
  | y :: rest =>
      if 0 <? default 0 (compare x y) then y :: insertSorted x rest
      else x :: y :: rest
  end.

Fixpoint arraySort (l : list A) : list A :=
  match l with
  | [] => []
  | x :: rest => insertSorted x (arraySort rest)
  end.
End ArraySort.

Section Ranking.
(** [String.prototype.localeCompare]; its collation belongs to the host. *)
Variable localeCompare : string -> string -> Z.

(** The tail of the comparator, after the [switch]. *)
Definition compareValues (sortOrder : SortOrder) (aValue bValue : SortKey) : option Z :=
  match aValue, bValue with
  | KStr x, KStr y =>
      Some (match sortOrder with
            | Asc => localeCompare x y
            | Desc => localeCompare y x
            end)
  | _, _ =>
      match sortOrder with
      | Asc => subtractKeys aValue bValue
      | Desc => subtractKeys bValue aValue
      end
  end.

(** The callback of [sorted.sort] in [sortCards]. *)
Definition compareCards (sortProperty : SortProperty) (sortOrder : SortOrder)
  (a b : PokemonCard) : option Z :=
  match sortProperty with
  | SortName => compareValues sortOrder (KStr (card_name a)) (KStr (card_name b))
  | SortHp => compareValues sortOrder (KNum (hpOf a)) (KNum (hpOf b))
  | SortRarity =>
      compareValues sortOrder (rankOf RARITY_ORDER (rarityKey a))
                              (rankOf RARITY_ORDER (rarityKey b))
  | SortSet =>
      let aRank := setRank a in
      let bRank := setRank b in
      if negb (sameKey aRank bRank) then
        match sortOrder with
        | Asc => subtractKeys aRank bRank
        | Desc => subtractKeys bRank aRank
        end
      else
        compareValues sortOrder (KStr (set_name (card_set a))) (KStr (set_name (card_set b)))
  | SortDexId => compareValues sortOrder (KNum (firstDexId a)) (KNum (firstDexId b))
  | _ => compareValues sortOrder (KStr (card_name a)) (KStr (card_name b))
  end.

Definition sortCards (sortProperty : SortProperty) (sortOrder : SortOrder)
  (cards : list PokemonCard) : list PokemonCard :=
  arraySort (compareCards sortProperty sortOrder) cards.
End Ranking.

(** ** Filtering ([matchesFilters]) *)

Definition isNil {A : Type} (l : list A) : bool :=
  match l with [] => true | _ => false end.

Definition matchesSeries (filters : FilterOptions) (card : PokemonCard) : bool :=
  isNil (filter_series filters) ||
  existsb (fun series =>
             let normalizedSeries := Js.toLowerCase series in
             String.eqb (Js.toLowerCase (set_name (card_set card))) normalizedSeries ||
             String.eqb (Js.toLowerCase (serie_name (card_serie card))) normalizedSeries)
          (filter_series filters).

Definition matchesType (filters : FilterOptions) (card : PokemonCard) : bool :=
  isNil (filter_types filters) ||
  forallb (fun type =>
             match card_types card with
             | Some cardTypes =>
                 existsb (fun cardType =>
                            String.eqb (Js.toLowerCase cardType) (Js.toLowerCase type))
                         cardTypes
             | None => false
             end)
          (filter_types filters).

Definition matchesRarity (filters : FilterOptions) (card : PokemonCard) : bool :=
  isNil (filter_rarities filters) ||
  existsb (fun rarity =>
             match card_rarity card with
             | Some r => String.eqb (Js.toLowerCase r) (Js.toLowerCase rarity)
             | None => false
             end)
          (filter_rarities filters).

Definition matchesHp (filters : FilterOptions) (card : PokemonCard) : bool :=
  let hp := hpOf card in
  (hp_min (hpRange filters) <=? hp) && (hp <=? hp_max (hpRange filters)).

Definition matchesFilters (filters : FilterOptions) (card : PokemonCard) : bool :=
  matchesSeries filters card && matchesType filters card &&
  matchesRarity filters card && matchesHp filters card.

(** ** The data-acquisition layer ([services/api.ts])

    An [async] function is embedded as a function from the state of the
    module (its caches and the log of the requests it has issued) to the
    value its promise settles with and the new state. *)

Inductive Result (A : Type) : Type :=
| Resolved (a : A)
| Rejected (message : string).
Arguments Resolved {A} a.
Arguments Rejected {A} message.

Inductive Request :=
| GetPokemonList (offset limit : Z)     (* GET /pokemon?offset=..&limit=.. *)
| GetPokemon (key : string)             (* GET /pokemon/{key} *)
| GetType                               (* GET /type *)
| GetGeneration.                        (* GET /generation *)

(** The remote source: what it answers to the request issued as the [n]-th
    of the process.  Indexing by [n] lets a repeated request be answered
    differently from the first. *)
Record Network := {
  answerList : nat -> Z -> Z -> Result PokeApiListResponse;
  answerPokemon : nat -> string -> Result PokeApiPokemon;
  answerType : nat -> Result (list PokeApiListItem);
  answerGeneration : nat -> Result (list PokeApiListItem);
}.

(** The module-level variables.  An in-flight index load is named by the
    position of its request in the log. *)
Record Service := {
  pokemonCache : gmap string value;
  pokemonIndexCache : option (list PokeApiListItem);
  pokemonIndexPromise : option nat;
  requestLog : list Request;
}.

Definition logRequest (r : Request) (s : Service) : Service :=
  {| pokemonCache := pokemonCache s;
     pokemonIndexCache := pokemonIndexCache s;
     pokemonIndexPromise := pokemonIndexPromise s;
     requestLog := requestLog s ++ [r] |}.

Definition setPokemonCache (c : gmap string value) (s : Service) : Service :=
  {| pokemonCache := c;
     pokemonIndexCache := pokemonIndexCache s;
     pokemonIndexPromise := pokemonIndexPromise s;
     requestLog := requestLog s |}.

Definition setIndex (cache : option (list PokeApiListItem)) (promise : option nat)
  (s : Service) : Service :=
  {| pokemonCache := pokemonCache s;
     pokemonIndexCache := cache;
     pokemonIndexPromise := promise;
     requestLog := requestLog s |}.

(** [fetchPokemon(offset, limit)], in two halves: the call issues the
    request, and the promise settles when the request does. *)
Definition fetchPokemon_request (offset limit : Z) (s : Service) : nat * Service :=
  (length (requestLog s), logRequest (GetPokemonList offset limit) s).

Definition fetchPokemon_settle (net : Network) (n : nat) (offset limit : Z)
  : Result PokeApiListResponse :=
  match answerList net n offset limit with
  | Resolved data => Resolved data
  | Rejected _ => Rejected "Failed to fetch pokemon"
  end.

Definition fetchPokemon (net : Network) (offset limit : Z) (s : Service)
  : Result PokeApiListResponse * Service :=
  let '(n, s') := fetchPokemon_request offset limit s in
  (fetchPokemon_settle net n offset limit, s').

(** A member of the stripped card passed as a cache key: a string when it
    is present, [undefined] otherwise. *)
Definition stringMember (k : string) (card : value) : option string :=
  match card with
  | VObj fields =>
      match getField k fields with
      | Some (VStr x) => Some x
      | _ => None
      end
  | _ => None
  end.

(** [cachePokemonCard(card, ...keys)] *)
Definition cachePokemonCard (card : value) (keys : list (option string))
  (cache : gmap string value) : gmap string value :=
  fold_left (fun m key => <[key := card]> m)
    (List.filter (fun key => Js.truthy key)
            (map (fun key => match key with
                             | Some k => Js.toLowerCase k
                             | None => ""
                             end) keys))
    cache.

(** [fetchPokemonById(id)] *)
Definition fetchPokemonById (net : Network) (id : string) (s : Service)
  : Result value * Service :=
  let key := Js.toLowerCase id in
  match pokemonCache s !! key with
  | Some cached => (Resolved cached, s)
  | None =>
      let n := length (requestLog s) in
      let s' := logRequest (GetPokemon key) s in
      match answerPokemon net n key with
      | Resolved data =>
          let card := mapPokemonToCard data in
          (Resolved card,
           setPokemonCache
             (cachePokemonCard card
                [Some id; stringMember "id" card; stringMember "localId" card;
                 stringMember "name" card; Some (pokemon_name data)]
                (pokemonCache s'))
             s')
      | Rejected _ => (Rejected "Failed to fetch pokemon details", s')
      end
  end.

(** [fetchTypes()] *)
Definition fetchTypes (net : Network) (s : Service) : Result (list string) * Service :=
  let n := length (requestLog s) in
  let s' := logRequest GetType s in
  match answerType net n with
  | Resolved items => (Resolved (map (fun t => toTitleCase (item_name t)) items), s')
  | Rejected _ => (Resolved [], s')
  end.

(** [fetchGenerations()] *)
Definition fetchGenerations (net : Network) (s : Service) : Result (list string) * Service :=
  let n := length (requestLog s) in
  let s' := logRequest GetGeneration s in
  match answerGeneration net n with
  | Resolved items => (Resolved (map (fun g => toTitleCase (item_name g)) items), s')
  | Rejected _ => (Resolved [], s')
  end.

(** [fetchRarities()] *)
Definition fetchRarities (s : Service) : Result (list string) * Service :=
  (Resolved ["Common"; "Uncommon"; "Rare"; "Epic"; "Legendary"], s).

(** *** The index loader

    [fetchPokemonIndex] has no [await]: a call runs to its [return] at once
    and hands back either the cached listing or the shared promise.  The
    handlers chained on the promise run later, when the request settles. *)

Inductive IndexHandle :=
| IndexReady (index : list PokeApiListItem)   (* the cache was warm *)
| IndexPending (load : nat).                  (* the promise of load [load] *)

(** The synchronous part of a call of [fetchPokemonIndex()]. *)
Definition fetchPokemonIndex_call (s : Service) : IndexHandle * Service :=
  match pokemonIndexCache s with
  | Some index => (IndexReady index, s)
  | None =>
      match pokemonIndexPromise s with
      | Some load => (IndexPending load, s)
      | None =>
          let '(load, s') := fetchPokemon_request 0 POKEMON_INDEX_LIMIT s in
          (IndexPending load, setIndex (pokemonIndexCache s') (Some load) s')
      end
  end.

(** The [then], [catch] and [finally] handlers of the shared promise, run
    when [fetchPokemon(0, POKEMON_INDEX_LIMIT)] settles with [r]. *)
Definition fetchPokemonIndex_settle (r : Result PokeApiListResponse) (s : Service)
  : Result (list PokeApiListItem) * Service :=
  match r with
  | Resolved response => (Resolved (results response), setIndex (Some (results response)) None s)
  | Rejected message => (Rejected message, setIndex None None s)
  end.

(** [await fetchPokemonIndex()] by one caller. *)
Definition fetchPokemonIndex (net : Network) (s : Service)
  : Result (list PokeApiListItem) * Service :=
  match fetchPokemonIndex_call s with
  | (IndexReady index, s') => (Resolved index, s')
  | (IndexPending load, s') =>
      fetchPokemonIndex_settle (fetchPokemon_settle net load 0 POKEMON_INDEX_LIMIT) s'
  end.

(** [n] callers invoking [fetchPokemonIndex()] one after the other before
    anything settles: the handles they receive, in order. *)
Fixpoint callers (n : nat) (s : Service) : list IndexHandle * Service :=
  match n with
  | O => ([], s)
  | S n' =>
      let '(h, s1) := fetchPokemonIndex_call s in
      let '(hs, s2) := callers n' s1 in
      (h :: hs, s2)
  end.

(** *** The batch detail fetcher

    The workers are cooperative tasks: each runs without interruption from
    one [await] to the next.  The pool is embedded as a machine whose step
    resumes one worker, and a schedule is the order in which the awaited
    fetches settle.  The pool does not look into [fetchPokemonById]:
    [fetched i name] is what the call made for the item at index [i] settles
    with, [Some card] when it resolves and [None] when it rejects. *)

Inductive Worker :=
| Awaiting (currentIndex : nat) (identifier : string)
| Returned.

(** Where a worker that takes [currentIndex] from the cursor goes:
    [if (currentIndex >= items.length) return;
     const identifier = items[currentIndex].name; ...
     await fetchPokemonById(identifier)]. *)
Definition claimed (items : list PokeApiListItem) (currentIndex : nat) : Worker :=
  match items !! currentIndex with
  | Some item => Awaiting currentIndex (item_name item)
  | None => Returned
  end.

Section Batch.
Context {Card : Type}.
Variable fetched : nat -> string -> option Card.

Record Pool := {
  nextIndex : nat;
  poolResults : list (option Card);
  workers : list Worker;
}.

(** From the head of the loop to the [await] or the [return]:
    [const currentIndex = nextIndex++; ...]. *)
Definition claim (items : list PokeApiListItem) (p : Pool) : Worker * Pool :=
  let currentIndex := nextIndex p in
  (claimed items currentIndex,
   {| nextIndex := S currentIndex; poolResults := poolResults p; workers := workers p |}).

(** [Array.from({ length: workerCount }, worker)]: the workers are started
    in turn, each running to its first [await]. *)
Fixpoint spawn (items : list PokeApiListItem) (workerCount : nat) (p : Pool) : Pool :=
  match workerCount with
  | O => p
  | S n =>
      let '(w, p') := claim items p in
      spawn items n {| nextIndex := nextIndex p'; poolResults := poolResults p';
                       workers := workers p' ++ [w] |}
  end.

(** The fetch awaited by worker [j] settles: the result is stored (or the
    failure logged) and the worker goes round the loop to its next
    [await] or to its [return]. *)
Definition resume (items : list PokeApiListItem) (p : Pool) (j : nat) : Pool :=
  match workers p !! j with
  | Some (Awaiting currentIndex identifier) =>
      let stored :=
        match fetched currentIndex identifier with
        | Some card => <[currentIndex := Some card]> (poolResults p)
        | None => poolResults p
        end in
      let '(w, p') := claim items {| nextIndex := nextIndex p; poolResults := stored;
                                     workers := workers p |} in
      {| nextIndex := nextIndex p'; poolResults := poolResults p';
         workers := <[j := w]> (workers p') |}
  | _ => p
  end.

Fixpoint firstAwaiting (ws : list Worker) (j : nat) : option nat :=
  match ws with
  | [] => None
  | Awaiting _ _ :: _ => Some j
  | Returned :: rest => firstAwaiting rest (S j)
  end.

(** The fetches still awaited settle, in the order of the workers. *)
Fixpoint drain (items : list PokeApiListItem) (fuel : nat) (p : Pool) : Pool :=
  match fuel with
  | O => p
  | S fuel' =>
      match firstAwaiting (workers p) 0 with
      | Some j => drain items fuel' (resume items p j)
      | None => p
      end
  end.

(** The pool when [await Promise.all(...)] is reached, then after the
    fetches have settled in the order [schedule] (an entry that names no
    awaiting worker is skipped) followed by the remaining ones. *)
Definition startPool (items : list PokeApiListItem) : Pool :=
  spawn items (Nat.min DETAIL_CONCURRENCY (length items))
        {| nextIndex := 0; poolResults := replicate (length items) None; workers := [] |}.

Definition runPool (schedule : list nat) (items : list PokeApiListItem) : Pool :=
  drain items (length items) (fold_left (resume items) schedule (startPool items)).

(** [fetchPokemonDetailsBatch(items)] *)
Definition fetchPokemonDetailsBatch (schedule : list nat) (items : list PokeApiListItem)
  : list Card :=
  match items with
  | [] => []
  | _ => omap id (poolResults (runPool schedule items))
  end.

(** The outcomes of the individual fetches, in the order of the input. *)
Definition outcomes (items : list PokeApiListItem) : list (option Card) :=
  imap (fun i item => fetched i (item_name item)) items.
End Batch.
Arguments Pool Card : clear implicits.

(** The items some worker is awaiting, and the number of workers that have
    not returned. *)
Definition awaited (ws : list Worker) (i : nat) : Prop :=
  exists j identifier, ws !! j = Some (Awaiting i identifier).

Fixpoint countAwaiting (ws : list Worker) : nat :=
  match ws with
  | [] => O
  | Awaiting _ _ :: rest => S (countAwaiting rest)
  | Returned :: rest => countAwaiting rest
  end.

(** What holds of the pool between two steps: every awaited index was
    claimed, lies in the input and is awaited by one worker only; a result
    slot holds the outcome of its fetch once that fetch has settled and
    [null] before; a worker returns only when the cursor is past the end. *)
Record PoolInv {Card : Type} (fetched : nat -> string -> option Card)
  (items : list PokeApiListItem) (p : Pool Card) : Prop := {
  inv_length : length (poolResults p) = length items;
  inv_claimed : forall j i identifier,
    workers p !! j = Some (Awaiting i identifier) ->
    (i < nextIndex p)%nat /\
    exists item, items !! i = Some item /\ identifier = item_name item;
  inv_distinct : forall j j' i identifier identifier',
    workers p !! j = Some (Awaiting i identifier) ->
    workers p !! j' = Some (Awaiting i identifier') -> j = j';
  inv_unsettled : forall i,
    (nextIndex p <= i)%nat \/ awaited (workers p) i ->
    (i < length items)%nat -> poolResults p !! i = Some None;
  inv_settled : forall i item,
    items !! i = Some item -> (i < nextIndex p)%nat -> ~ awaited (workers p) i ->
    poolResults p !! i = Some (fetched i (item_name item));
  inv_returned : forall j,
    workers p !! j = Some Returned -> (length items <= nextIndex p)%nat;
}.

(** Steps left: items not yet claimed plus fetches in flight. *)
Definition stepsLeft {Card : Type} (items : list PokeApiListItem) (p : Pool Card) : nat :=
  (length items - nextIndex p + countAwaiting (workers p))%nat.

(** Two strings are equal up to case. *)
Definition sameIgnoringCase (a b : string) : Prop :=
  Js.toLowerCase a = Js.toLowerCase b.

(** ** Sample data, for the examples *)

Definition bulbasaur : PokeApiPokemon :=
  {| pokemon_id := 1; pokemon_name := "bulbasaur"; height := 7; weight := 69;
     sprites := {| front_default := Some "https://img/1.png"; other := None |};
     stats := [ {| base_stat := 45; stat_name := "hp" |};
                {| base_stat := 49; stat_name := "attack" |};
                {| base_stat := 49; stat_name := "defense" |};
                {| base_stat := 65; stat_name := "special-attack" |};
                {| base_stat := 65; stat_name := "special-defense" |};
                {| base_stat := 45; stat_name := "speed" |} ];
     types := [ {| slot := 1; type_name := "grass" |}; {| slot := 2; type_name := "poison" |} ];
     abilities := [ {| ability_name := "overgrow"; ability_url := "u"; is_hidden := false |};
                    {| ability_name := "chlorophyll"; ability_url := "u"; is_hidden := true |} ];
     moves := [ {| move_name := "razor-wind";
                   version_group_details :=
                     [ {| level_learned_at := 0; move_learn_method_name := "egg";
                          version_group_name := "gold-silver" |} ] |};
                {| move_name := "vine-whip";
                   version_group_details :=
                     [ {| level_learned_at := 0; move_learn_method_name := "machine";
                          version_group_name := "red-blue" |};
                       {| level_learned_at := 13; move_learn_method_name := "level-up";
                          version_group_name := "red-blue" |} ] |} ] |}.

Definition statsOf (values : list Z) : list PokeApiStat :=
  map (fun v => {| base_stat := v; stat_name := "hp" |}) values.

Definition sampleCard (name : string) (series : string) (types : list string)
  (hp : option string) : PokemonCard :=
  {| card_id := "6"; card_localId := "6"; card_name := name; card_image := "img";
     card_rarity := Some "Epic";
     card_set := {| set_id := "s"; set_name := series; set_logo := None |};
     card_serie := {| serie_id := "s"; serie_name := series |};
     card_category := "Pokemon"; card_dexId := Some [6];
     card_types := Some types; card_hp := hp |}.

Definition sampleFilters (series types : list string) : FilterOptions :=
  {| filter_sets := []; filter_series := series; filter_types := types;
     filter_rarities := []; filter_subtypes := [];
     hpRange := {| hp_min := 0; hp_max := 1000 |} |}.

(** A remote source that fails every request. *)
Definition offline : Network :=
  {| answerList := fun _ _ _ => Rejected "Network Error";
     answerPokemon := fun _ _ => Rejected "Network Error";
     answerType := fun _ => Rejected "Network Error";
     answerGeneration := fun _ => Rejected "Network Error" |}.

(** The module as loaded: empty caches, no request issued. *)
Definition coldService : Service :=
  {| pokemonCache := ∅; pokemonIndexCache := None;
     pokemonIndexPromise := None; requestLog := [] |}.

Definition cardAbra : PokemonCard := sampleCard "Abra" "Alpha" ["Psychic"] (Some "25").
Definition cardZubat : PokemonCard := sampleCard "Zubat" "Beta" ["Poison"] (Some "40").

Definition listItem (name : string) : PokeApiListItem :=
  {| item_name := name; item_url := "https://pokeapi.co/api/v2/pokemon/" +:+ name |}.

Definition tenItems : list PokeApiListItem :=
  map listItem ["bulbasaur"; "ivysaur"; "venusaur"; "charmander"; "charmeleon";
                "charizard"; "squirtle"; "wartortle"; "blastoise"; "caterpie"].

(** Every fetch succeeds, with the identifier as the card, except those of
    the items at indices 3 and 7. *)
Definition failingAt3And7 (i : nat) (identifier : string) : option string :=
  if (i =? 3)%nat || (i =? 7)%nat then None else Some identifier.

(** No array is an element of an array, and no array has a hole: the shape
    of every object literal in [mapPokemonToCard]. *)
Fixpoint flat (v : value) : bool :=
  match v with
  | VArr elems =>
      forallb (fun e => match e with
                        | Some (VArr _) => false
                        | Some x => flat x
                        | None => false
                        end) elems
  | VObj fields => forallb (fun kv => flat (snd kv)) fields
  | _ => true
  end.

(** The slot test of [noEmpty]. *)
Definition filled (x : value) : bool := negb (isEmptyValue x) && noEmpty x.

(** [x] is not put after [y] by the comparator: [compare(x, y) <= 0]. *)
Definition notAfter {A : Type} (compare : A -> A -> option Z) (x y : A) : Prop :=
  default 0 (compare x y) <= 0.

(** A module whose index cache is warm. *)
Definition warmIndex : Service :=
  {| pokemonCache := ∅;
     pokemonIndexCache := Some [listItem "ivysaur"; listItem "bulbasaur"; listItem "pikachu"];
     pokemonIndexPromise := None; requestLog := [] |}.

(** A module whose index cache holds one entry, with a capital letter. *)
Definition capitalisedIndex : Service :=
  {| pokemonCache := ∅; pokemonIndexCache := Some [listItem "Pikachu"];
     pokemonIndexPromise := None; requestLog := [] |}.

(** ** The filter state and the derived lists of the views
    ([MainView.tsx], [GalleryView.tsx]) *)

Definition GALLERY_PAGE_SIZE : nat := 100.

Inductive SingleSelectKey := SelectSeries | SelectRarities.

Definition withSeries (series : list string) (prev : FilterOptions) : FilterOptions :=
  {| filter_sets := filter_sets prev; filter_series := series;
     filter_types := filter_types prev; filter_rarities := filter_rarities prev;
     filter_subtypes := filter_subtypes prev; hpRange := hpRange prev |}.

Definition withTypes (types : list string) (prev : FilterOptions) : FilterOptions :=
  {| filter_sets := filter_sets prev; filter_series := filter_series prev;
     filter_types := types; filter_rarities := filter_rarities prev;
     filter_subtypes := filter_subtypes prev; hpRange := hpRange prev |}.

Definition withRarities (rarities : list string) (prev : FilterOptions) : FilterOptions :=
  {| filter_sets := filter_sets prev; filter_series := filter_series prev;
     filter_types := filter_types prev; filter_rarities := rarities;
     filter_subtypes := filter_subtypes prev; hpRange := hpRange prev |}.

(** [value ? [value] : []] for [value : string | null] *)
Definition singleton_or_nil (value : option string) : list string :=
  match value with
  | Some v => if Js.truthy v then [v] else []
  | None => []
  end.

(** [handleSingleSelect(filterKey, value)], the update it passes to [setFilters]. *)
Definition handleSingleSelect (filterKey : SingleSelectKey) (value : option string)
  (prev : FilterOptions) : FilterOptions :=
  match filterKey with
  | SelectSeries => withSeries (singleton_or_nil value) prev
  | SelectRarities => withRarities (singleton_or_nil value) prev
  end.

(** [handleTypeToggle(type)], the update it passes to [setFilters]. *)
Definition handleTypeToggle (type : string) (prev : FilterOptions) : FilterOptions :=
  withTypes
    (if existsb (String.eqb type) (filter_types prev)
     then List.filter (fun item => negb (String.eqb item type)) (filter_types prev)
     else filter_types prev ++ [type])
    prev.

(** [handleClearTypes()] *)
Definition handleClearTypes (prev : FilterOptions) : FilterOptions := withTypes [] prev.

(** The state [clearFilters()] sets, which is also the initial state. *)
Definition clearedFilters : FilterOptions :=
  {| filter_sets := []; filter_series := []; filter_types := [];
     filter_rarities := []; filter_subtypes := [];
     hpRange := {| hp_min := 0; hp_max := 1000 |} |}.

(** [cards.filter(matchesFilters)] *)
Definition galleryFilteredCards (filters : FilterOptions) (cards : list PokemonCard)
  : list PokemonCard :=
  List.filter (matchesFilters filters) cards.

(** [galleryFilteredCards.slice(0, galleryPage * GALLERY_PAGE_SIZE)] *)
Definition galleryVisibleCards (filters : FilterOptions) (galleryPage : nat)
  (cards : list PokemonCard) : list PokemonCard :=
  firstn (galleryPage * GALLERY_PAGE_SIZE) (galleryFilteredCards filters cards).

(** [hasActiveQuery ? searchResults.filter(matchesFilters) : []] with
    [hasActiveQuery = searchQuery.trim().length > 0] *)
Definition filteredSearchCards (filters : FilterOptions) (searchQuery : string)
  (searchResults : list PokemonCard) : list PokemonCard :=
  if Js.truthy (Js.trim searchQuery)
  then List.filter (matchesFilters filters) searchResults
  else [].

(** [sortCards(filteredSearchCards)] *)
Definition searchDisplayCards (localeCompare : string -> string -> Z)
  (sortProperty : SortProperty) (sortOrder : SortOrder) (filters : FilterOptions)
  (searchQuery : string) (searchResults : list PokemonCard) : list PokemonCard :=
  sortCards localeCompare sortProperty sortOrder
            (filteredSearchCards filters searchQuery searchResults).

(** ** The loader of all entities ([fetchPokemonIndexList], [loadAllPokemon],
    [fetchAllPokemon]) *)

(** [fetchPokemonIndexList()] *)
Definition fetchPokemonIndexList (net : Network) (s : Service)
  : Result (list PokeApiListItem) * Service :=
  fetchPokemonIndex net s.




(** The module-level variables of [fetchAllPokemon]; the promise is
    recorded as the fact that a load is in flight. *)
Record AllPokemon := {
  allPokemonCache : option (list value);
  allPokemonPromise : bool;
}.

(** What a call of [fetchAllPokemon()] did before returning its promise:
    it found the cache warm, joined the load in flight, or started a load,
    which ran [loadAllPokemon()] up to its first [await], on the promise
    [h] of the index. *)
Inductive AllCall :=
| AllReady (cards : list value)
| AllJoined
| AllStarted (h : IndexHandle).

(** The synchronous part of a call of [fetchAllPokemon()]. *)
Definition fetchAllPokemon_call (st : Service * AllPokemon) : AllCall * (Service * AllPokemon) :=
  match allPokemonCache (snd st) with
  | Some cards => (AllReady cards, st)
  | None =>
      if allPokemonPromise (snd st) then (AllJoined, st)
      else
        let '(h, s') := fetchPokemonIndex_call (fst st) in
        (AllStarted h, (s', {| allPokemonCache := None; allPokemonPromise := true |}))
  end.

(** The [then], [catch] and [finally] handlers, run when [loadAllPokemon()]
    settles with [r]. *)
Definition fetchAllPokemon_settle (r : Result (list value)) (a : AllPokemon)
  : Result (list value) * AllPokemon :=
  match r with
  | Resolved cards => (Resolved cards, {| allPokemonCache := Some cards; allPokemonPromise := false |})
  | Rejected message => (Rejected message, {| allPokemonCache := None; allPokemonPromise := false |})
  end.

(** [n] callers invoking [fetchAllPokemon()] one after the other before
    anything settles: what each call did, in order. *)
Fixpoint allCallers (n : nat) (st : Service * AllPokemon)
  : list AllCall * (Service * AllPokemon) :=
  match n with
  | O => ([], st)
  | S n' =>
      let '(c, st1) := fetchAllPokemon_call st in
      let '(cs, st2) := allCallers n' st1 in
      (c :: cs, st2)
  end.

(** ** Reading a stored card, and more sample data *)

(** [obj.k] on a value *)
Definition member (k : string) (obj : value) : option value :=
  match obj with
  | VObj fields => getField k fields
  | _ => None
  end.

(** The keys under which [cachePokemonCard] stores a card. *)
Definition cacheKeys (keys : list (option string)) : list string :=
  List.filter (fun key => Js.truthy key)
    (map (fun key => match key with Some k => Js.toLowerCase k | None => "" end) keys).

(** A remote source that lists ten entities and knows the details of one. *)
Definition pokedex : Network :=
  {| answerList := fun _ _ _ => Resolved {| results := tenItems; count := 10 |};
     answerPokemon := fun _ key =>
       if String.eqb key "bulbasaur" then Resolved bulbasaur else Rejected "Not Found";
     answerType := fun _ => Resolved [listItem "grass"; listItem "poison"];
     answerGeneration := fun _ => Resolved [listItem "generation-i"] |}.

(** A card with no rarity. *)
Definition cardUnrated : PokemonCard :=
  {| card_id := "0"; card_localId := "0"; card_name := "Missingno"; card_image := "img";
     card_rarity := None;
     card_set := {| set_id := "s"; set_name := "Gamma"; set_logo := None |};
     card_serie := {| serie_id := "s"; serie_name := "Gamma" |};
     card_category := "Pokemon"; card_dexId := None;
     card_types := None; card_hp := None |}.

(** The members of the object literal of [mapPokemonToCard]. *)
Definition candidateFields (pokemon : PokeApiPokemon) : list (string * value) :=
  match candidateCard pokemon with
  | VObj fields => fields
  | _ => []
  end.

(** The card of [bulbasaur] as the views read it. *)
Definition cardBulbasaur : PokemonCard :=
  {| card_id := "1"; card_localId := "1"; card_name := "Bulbasaur";
     card_image := "https://img/1.png"; card_rarity := Some "Common";
     card_set := {| set_id := "generation-i"; set_name := "Generation I"; set_logo := None |};
     card_serie := {| serie_id := "generation-i"; serie_name := "Generation I" |};
     card_category := "Pokemon"; card_dexId := Some [1];
     card_types := Some ["Grass"; "Poison"]; card_hp := Some "45" |}.

(** ** Further definitions for the loaders, the provider and title case *)


(** The module as loaded, for [fetchAllPokemon]. *)
Definition coldAll : AllPokemon := {| allPokemonCache := None; allPokemonPromise := false |}.

(** The state of [PokemonProvider]. *)
Record ProviderState := {
  ctx_cards : list value;
  ctx_loading : bool;
  ctx_error : option string;
  availableGenerations : list string;
  availableTypes : list string;
  availableRarities : list string;
}.

(** The message [loadData] reports (the [e] of [Pokemon] carries an acute
    accent, U+00E9 in UTF-8). *)
Definition loadFailure : string :=
  "Failed to load Pok" +:+ String (ascii_of_nat 195) (String (ascii_of_nat 169) "")
  +:+ "mon cards. Please check your internet connection and try again.".

(** The state once [loadData()] has run to its end, given what the four
    promises passed to [Promise.all] settle with: all four resolve and the
    setters run, or one rejects and the [catch] block runs; [finally]
    clears [loading]. *)
Definition loadData (cardsData : Result (list value))
  (typesData generationsData raritiesData : Result (list string)) (st : ProviderState)
  : ProviderState :=
  match cardsData, typesData, generationsData, raritiesData with
  | Resolved cards, Resolved types, Resolved generations, Resolved rarities =>
      {| ctx_cards := cards; ctx_loading := false; ctx_error := None;
         availableGenerations := generations; availableTypes := types;
         availableRarities := rarities |}
  | _, _, _, _ =>
      {| ctx_cards := ctx_cards st; ctx_loading := false; ctx_error := Some loadFailure;
         availableGenerations := availableGenerations st;
         availableTypes := availableTypes st;
         availableRarities := availableRarities st |}
  end.

(** What the map of names holds after the entries [seen]: one entry per
    name, that of the last move of that name. *)
Definition lastByName (seen : list PokemonMoveSummary) (m : list (string * PokemonMoveSummary))
  : Prop :=
  List.NoDup (map fst m) /\
  (forall k, In k (map fst m) <-> In k (map pm_name seen)) /\
  (forall k move, In (k, move) m ->
     k = pm_name move /\
     exists before after, seen = before ++ move :: after /\ ~ In k (map pm_name after)).

(** Every character of [s] is a separator of [toTitleCase]. *)
Fixpoint onlySeparators (s : string) : bool :=
  match s with
  | EmptyString => true
  | String c s' => isSlugSeparator c && onlySeparators s'
  end.

(** A word: not empty, and without a separator. *)
Fixpoint noSeparator (s : string) : bool :=
  match s with
  | EmptyString => true
  | String c s' => negb (isSlugSeparator c) && noSeparator s'
  end.

Definition isWord (s : string) : Prop := s <> "" /\ noSeparator s = true.

(** [card.k] read as an array of strings, [undefined] when it is absent. *)
Definition stringsMember (k : string) (card : value) : option (list string) :=
  match member k card with
  | Some (VArr elems) =>
      Some (omap (fun e => match e with Some (VStr x) => Some x | _ => None end) elems)
  | _ => None
  end.

(** *** Search, on the state of the module

    [searchPokemon] awaits the index loader, then the batch fetcher, whose
    workers call [fetchPokemonById] on the state of the module, and sorts
    what comes back.  Here the detail fetches are not taken through their
    outcomes: every call and every settlement of [fetchPokemonById] acts on
    the cache and on the log of requests. *)

(** [fetchPokemonById(id)] in two halves.  The call looks the key up and,
    on a miss, issues the request; its promise settles when the request
    does, and the card is then written to the cache as it is at that
    moment. *)
Inductive DetailHandle :=
| DetailCached (cached : value)      (* the cache held the card *)
| DetailPending (request : nat).     (* the promise of request [request] *)

Definition fetchPokemonById_call (id : string) (s : Service) : DetailHandle * Service :=
  let key := Js.toLowerCase id in
  match pokemonCache s !! key with
  | Some cached => (DetailCached cached, s)
  | None => (DetailPending (length (requestLog s)), logRequest (GetPokemon key) s)
  end.

Definition fetchPokemonById_settle (net : Network) (id : string) (fetch : DetailHandle)
  (s : Service) : Result value * Service :=
  match fetch with
  | DetailCached cached => (Resolved cached, s)
  | DetailPending request =>
      match answerPokemon net request (Js.toLowerCase id) with
      | Resolved data =>
          let card := mapPokemonToCard data in
          (Resolved card,
           setPokemonCache
             (cachePokemonCard card
                [Some id; stringMember "id" card; stringMember "localId" card;
                 stringMember "name" card; Some (pokemon_name data)]
                (pokemonCache s))
             s)
      | Rejected _ => (Rejected "Failed to fetch pokemon details", s)
      end
  end.

(** The worker pool of [fetchPokemonDetailsBatch] with its fetches made on
    the state of the module: a worker that awaits holds the promise that
    [fetchPokemonById] returned to it. *)
Module Live.

Inductive Worker :=
| Awaiting (currentIndex : nat) (identifier : string) (fetch : DetailHandle)
| Returned.

Record Pool := {
  service : Service;
  nextIndex : nat;
  poolResults : list (option value);
  workers : list Worker;
}.

Section Machine.
Variable net : Network.
Variable items : list PokeApiListItem.

(** From the head of the loop to the [await] or the [return]; the call of
    [fetchPokemonById] is made on the way. *)
Definition claim (p : Pool) : Worker * Pool :=
  let currentIndex := nextIndex p in
  match items !! currentIndex with
  | Some item =>
      let identifier := item_name item in
      let '(fetch, s) := fetchPokemonById_call identifier (service p) in
      (Awaiting currentIndex identifier fetch,
       {| service := s; nextIndex := S currentIndex;
          poolResults := poolResults p; workers := workers p |})
  | None =>
      (Returned,
       {| service := service p; nextIndex := S currentIndex;
          poolResults := poolResults p; workers := workers p |})
  end.

Fixpoint spawn (workerCount : nat) (p : Pool) : Pool :=
  match workerCount with
  | O => p
  | S n =>
      let '(w, p') := claim p in
      spawn n {| service := service p'; nextIndex := nextIndex p';
                 poolResults := poolResults p'; workers := workers p' ++ [w] |}
  end.

(** The fetch awaited by worker [j] settles: the card is cached by
    [fetchPokemonById] and stored by the worker (or the failure logged),
    and the worker goes round the loop. *)
Definition resume (p : Pool) (j : nat) : Pool :=
  match workers p !! j with
  | Some (Awaiting currentIndex identifier fetch) =>
      let '(r, s) := fetchPokemonById_settle net identifier fetch (service p) in
      let stored :=
        match r with
        | Resolved card => <[currentIndex := Some card]> (poolResults p)
        | Rejected _ => poolResults p
        end in
      let '(w, p') := claim {| service := s; nextIndex := nextIndex p;
                               poolResults := stored; workers := workers p |} in
      {| service := service p'; nextIndex := nextIndex p';
         poolResults := poolResults p'; workers := <[j := w]> (workers p') |}
  | _ => p
  end.

Fixpoint firstAwaiting (ws : list Worker) (j : nat) : option nat :=
  match ws with
  | [] => None
  | Awaiting _ _ _ :: _ => Some j
  | Returned :: rest => firstAwaiting rest (S j)
  end.

Fixpoint drain (fuel : nat) (p : Pool) : Pool :=
  match fuel with
  | O => p
  | S fuel' =>
      match firstAwaiting (workers p) 0 with
      | Some j => drain fuel' (resume p j)
      | None => p
      end
  end.

Definition startPool (s : Service) : Pool :=
  spawn (Nat.min DETAIL_CONCURRENCY (length items))
        {| service := s; nextIndex := 0;
           poolResults := replicate (length items) None; workers := [] |}.

Definition runPool (schedule : list nat) (s : Service) : Pool :=
  drain (length items) (fold_left resume schedule (startPool s)).
End Machine.

(** [fetchPokemonDetailsBatch(items)] on the state of the module. *)
Definition fetchPokemonDetailsBatch (net : Network) (schedule : list nat)
  (items : list PokeApiListItem) (s : Service) : list value * Service :=
  match items with
  | [] => ([], s)
  | _ =>
      let p := runPool net items schedule s in
      (omap id (poolResults p), service p)
  end.
End Live.

(** A pool on the state of the module seen as a pool over outcomes. *)
Definition eraseWorker (w : Live.Worker) : Worker :=
  match w with
  | Live.Awaiting currentIndex identifier _ => Awaiting currentIndex identifier
  | Live.Returned => Returned
  end.

Definition erase (p : Live.Pool) : Pool value :=
  {| nextIndex := Live.nextIndex p; poolResults := Live.poolResults p;
     workers := eraseWorker <$> Live.workers p |}.

(** What a settled fetch leaves in the result slot. *)
Definition resolved {A : Type} (r : Result A) : option A :=
  match r with
  | Resolved a => Some a
  | Rejected _ => None
  end.

Definition isDetailRequest (r : Request) : bool :=
  match r with
  | GetPokemon _ => true
  | _ => false
  end.

(** From [s] to [s'] only details were requested: the index is as it was
    and the log has grown by requests for single entities. *)
Definition detailsOnly (s s' : Service) : Prop :=
  pokemonIndexCache s' = pokemonIndexCache s /\
  pokemonIndexPromise s' = pokemonIndexPromise s /\
  exists details, requestLog s' = requestLog s ++ details /\
                  forallb isDetailRequest details = true.

(** [outcome] is what [fetchPokemonById(identifier)] settled with, [None] for
    a rejection, when called in a state [called] and settled in a state
    [settled], both between [s] and [s']. *)
Definition fetchedBetween (net : Network) (s s' : Service) (identifier : string)
  (outcome : option value) : Prop :=
  exists called settled,
    detailsOnly s called /\
    detailsOnly (snd (fetchPokemonById_call identifier called)) settled /\
    detailsOnly (snd (fetchPokemonById_settle net identifier
                        (fst (fetchPokemonById_call identifier called)) settled)) s' /\
    outcome = resolved (fst (fetchPokemonById_settle net identifier
                               (fst (fetchPokemonById_call identifier called)) settled)).

(** The completion of a call that may throw. *)
Inductive Completion (A : Type) : Type :=
| Returns (a : A)
| Throws.
Arguments Returns {A} a.
Arguments Throws {A}.

(** [Array.prototype.sort(compare)] with a comparator that may throw.  Which
    pairs are compared is the choice of the engine, and it shows when the
    comparator throws.  The embedding follows V8: every element after the
    first is inserted into the sorted elements before it and is the first
    argument of every comparison made for it, the first element never is;
    it goes before the first element that it precedes.  A throw ends the
    sort. *)
Section ArraySortThrowing.
Context {A : Type}.
Variable compare : A -> A -> Completion Z.

Fixpoint insertPivot (pivot : A) (sorted : list A) : Completion (list A) :=
  match sorted with
  | [] => Returns [pivot]
  | y :: rest =>
      match compare pivot y with
      | Throws => Throws
      | Returns order =>
          if order <? 0 then Returns (pivot :: y :: rest)
          else
            match insertPivot pivot rest with
            | Returns placed => Returns (y :: placed)
            | Throws => Throws
            end
      end
  end.

Definition insertNext (sorted : Completion (list A)) (pivot : A) : Completion (list A) :=
  match sorted with
  | Returns done => insertPivot pivot done
  | Throws => Throws
  end.

Definition arraySortThrowing (l : list A) : Completion (list A) :=
  match l with
  | [] => Returns []
  | first :: rest => fold_left insertNext rest (Returns [first])
  end.
End ArraySortThrowing.

(** [ToString(v)], applied by [localeCompare] to its argument. *)
Fixpoint toStringJs (v : value) : string :=
  match v with
  | VUndefined => "undefined"
  | VNull => "null"
  | VBool b => if b then "true" else "false"
  | VNum n => Js.ofInt n
  | VStr s => s
  | VArr elems =>
      Js.join "," (map (fun e => match e with
                                 | None | Some VUndefined | Some VNull => ""
                                 | Some x => toStringJs x
                                 end) elems)
  | VObj _ => "[object Object]"
  end.

Section Search.
Variable localeCompare : string -> string -> Z.
Variable net : Network.
Variable schedule : list nat.

(** The predicate of [index.filter] in [searchPokemon]. *)
Definition matchesQuery (normalized : string) (pokemon : PokeApiListItem) : bool :=
  Js.includes (item_name pokemon) normalized || String.eqb (item_name pokemon) normalized.

(** [a.name.localeCompare(b.name)] on cards as they are stored, where
    [name] is a non-empty string or is absent.  The method is looked up on
    [a.name]: when that is not a string the call throws a TypeError;
    [b.name] is only converted to a string. *)
Definition byName (a b : value) : Completion Z :=
  match member "name" a with
  | Some (VStr x) => Returns (localeCompare x (toStringJs (default VUndefined (member "name" b))))
  | _ => Throws
  end.

(** [searchPokemon(query)]; whatever is thrown inside the [try] block
    becomes the rejection of the [catch] block. *)
Definition searchPokemon (query : string) (s : Service) : Result (list value) * Service :=
  let normalized := Js.toLowerCase (Js.trim query) in
  if negb (Js.truthy normalized) then (Resolved [], s)
  else
    match fetchPokemonIndex net s with
    | (Resolved index, s') =>
        let matched := List.filter (matchesQuery normalized) index in
        let '(cards, s'') := Live.fetchPokemonDetailsBatch net schedule matched s' in
        match arraySortThrowing byName cards with
        | Returns sorted => (Resolved sorted, s'')
        | Throws => (Rejected "Failed to search pokemon", s'')
        end
    | (Rejected _, s') => (Rejected "Failed to search pokemon", s')
    end.
End Search.

(** The worker and the state that [Live.claim] gives for the index [n]. *)
Definition claimedWorker (items : list PokeApiListItem) (n : nat) (s : Service) : Live.Worker :=
  match items !! n with
  | Some item =>
      Live.Awaiting n (item_name item) (fst (fetchPokemonById_call (item_name item) s))
  | None => Live.Returned
  end.

Definition claimedService (items : list PokeApiListItem) (n : nat) (s : Service) : Service :=
  match items !! n with
  | Some item => snd (fetchPokemonById_call (item_name item) s)
  | None => s
  end.

(** What holds of the pool on the state of the module between two steps,
    [s0] being the state in which the batch started and [outcomes] what the
    fetches settled so far have given: seen over these outcomes the pool is
    as [PoolInv] has it; only details were requested; a promise awaited was
    returned by a call of [fetchPokemonById] for the identifier; and the
    outcome of an item whose fetch has settled is what that fetch gave. *)
Record LiveInv (net : Network) (items : list PokeApiListItem) (s0 : Service)
  (outcomes : nat -> string -> option value) (p : Live.Pool) : Prop := {
  live_pool : PoolInv outcomes items (erase p);
  live_grows : detailsOnly s0 (Live.service p);
  live_fetches : forall j i identifier fetch,
    Live.workers p !! j = Some (Live.Awaiting i identifier fetch) ->
    exists called,
      detailsOnly s0 called /\
      fetch = fst (fetchPokemonById_call identifier called) /\
      detailsOnly (snd (fetchPokemonById_call identifier called)) (Live.service p);
  live_settled : forall i item,
    items !! i = Some item ->
    (Live.nextIndex p <= i)%nat \/ awaited (workers (erase p)) i \/
    fetchedBetween net s0 (Live.service p) (item_name item) (outcomes i (item_name item));
}.

(** [card.name] is a string, so that [card.name.localeCompare] can be
    called. *)
Definition hasName (card : value) : bool :=
  match member "name" card with
  | Some (VStr _) => true
  | _ => false
  end.

(** [String(card.name)], the text a card is compared by. *)
Definition nameOf (card : value) : string :=
  toStringJs (default VUndefined (member "name" card)).

(** [a] is not put after [b] by the names: [String(a.name)] compared with
    [String(b.name)] is not positive. *)
Definition inNameOrder (localeCompare : string -> string -> Z) (a b : value) : Prop :=
  localeCompare (nameOf a) (nameOf b) <= 0.

(** The details of [bulbasaur] under another id and name. *)
Definition entityNamed (id : Z) (name : string) : PokeApiPokemon :=
  {| pokemon_id := id; pokemon_name := name; height := height bulbasaur;
     weight := weight bulbasaur; sprites := sprites bulbasaur; stats := stats bulbasaur;
     types := types bulbasaur; abilities := abilities bulbasaur; moves := moves bulbasaur |}.

(** A remote source that knows every entity by name, and lists three. *)
Definition catalogue : Network :=
  {| answerList := fun _ _ _ =>
       Resolved {| results := [listItem "ivysaur"; listItem "bulbasaur"; listItem "pikachu"];
                   count := 3 |};
     answerPokemon := fun _ key => Resolved (entityNamed (Z.of_nat (String.length key)) key);
     answerType := fun _ => Resolved [];
     answerGeneration := fun _ => Resolved [] |}.

(** A module whose index holds a name made of a separator only. *)
Definition dashIndex : Service :=
  {| pokemonCache := ∅; pokemonIndexCache := Some [listItem "a-b"; listItem "-"];
     pokemonIndexPromise := None; requestLog := [] |}.

(** * Properties *)

(** ** The embedding on concrete inputs *)

Example trim_example : Js.trim "  Pika chu  " = "Pika chu".
Proof. reflexivity. Qed.

Example parseInt_example :
  map Js.parseInt10 [" -42px"; "12.5"; "abc"; ""; "+7"] = [Some (-42); Some 12; None; None; Some 7].
Proof. reflexivity. Qed.

Example toFixed_example :
  map Js.tenthsToFixed1 [7; 69; 100; -123] = ["0.7"; "6.9"; "10.0"; "-12.3"].
Proof. reflexivity. Qed.

Example toTitleCase_example :
  map toTitleCase ["mr-mime"; "special_attack"; "  tapu  koko "; "--"; ""]
  = ["Mr Mime"; "Special Attack"; "Tapu Koko"; ""; ""].
Proof. reflexivity. Qed.

(** Empty members go, at every depth; an array nested in an array is walked
    by its indices, and a deleted index leaves a hole. *)
Example stripEmpty_example :
  stripEmpty (VObj [("a", VStr ""); ("b", VArr [Some (VObj [("c", VNull)]); Some (VNum 1)]);
                    ("d", VObj [("e", VArr [])]); ("f", VArr [Some (VArr [Some (VArr [])])]);
                    ("g", VBool false); ("h", VNum 0)])
  = VObj [("b", VArr [Some (VNum 1)]); ("f", VArr [Some (VArr [None])]);
          ("g", VBool false); ("h", VNum 0)].
Proof. reflexivity. Qed.

(** The scenario of the specification: the stats of bulbasaur sum to 318,
    its rarity is Common and its generation is Generation I. *)
Example bulbasaur_card :
  sumStats (stats bulbasaur) = 318 /\
  stringMember "rarity" (mapPokemonToCard bulbasaur) = Some "Common" /\
  stringMember "series" (mapPokemonToCard bulbasaur) = Some "Generation I" /\
  stringMember "name" (mapPokemonToCard bulbasaur) = Some "Bulbasaur" /\
  stringMember "height" (mapPokemonToCard bulbasaur) = Some "0.7 m" /\
  stringMember "evolvesFrom" (mapPokemonToCard bulbasaur) = None /\
  stringMember "regulationMark" (mapPokemonToCard bulbasaur) = None.
Proof. repeat split. Qed.

(** A later move of the same name takes the place of the first one. *)
Example mapValues_example :
  mapValues [("Tackle", 1); ("Growl", 2); ("Tackle", 3)] = [3; 2].
Proof. reflexivity. Qed.

(** A fetch that resolves fills the cache under every alias of the card. *)
Example fetchPokemonById_example :
  let online := {| answerList := answerList offline;
                   answerPokemon := fun _ _ => Resolved bulbasaur;
                   answerType := answerType offline;
                   answerGeneration := answerGeneration offline |} in
  let '(r, s) := fetchPokemonById online "Bulbasaur" coldService in
  r = Resolved (mapPokemonToCard bulbasaur) /\
  requestLog s = [GetPokemon "bulbasaur"] /\
  pokemonCache s !! "bulbasaur" = Some (mapPokemonToCard bulbasaur) /\
  pokemonCache s !! "1" = Some (mapPokemonToCard bulbasaur) /\
  fetchPokemonById offline "1" s = (Resolved (mapPokemonToCard bulbasaur), s).
Proof. vm_compute. repeat split. Qed.

(** ** Rarity and generation *)

Lemma fold_sum_shift (l : list PokeApiStat) (acc : Z) :
  fold_left (fun total stat => total + base_stat stat) l acc
  = acc + fold_right Z.add 0 (map base_stat l).
Proof.
  revert acc. induction l as [|st l IH]; intros acc; simpl.
  - lia.
  - rewrite IH. lia.
Qed.

Lemma sumStats_total (stats : list PokeApiStat) :
  sumStats stats = fold_right Z.add 0 (map base_stat stats).
Proof. unfold sumStats. rewrite fold_sum_shift. lia. Qed.

Lemma rarity_by_total (stats : list PokeApiStat) :
  let total := sumStats stats in
  (600 <= total -> getRarityFromStats stats = "Legendary") /\
  (520 <= total < 600 -> getRarityFromStats stats = "Epic") /\
  (450 <= total < 520 -> getRarityFromStats stats = "Rare") /\
  (380 <= total < 450 -> getRarityFromStats stats = "Uncommon") /\
  (total < 380 -> getRarityFromStats stats = "Common").
Proof.
  intros total. unfold getRarityFromStats. fold total.
  repeat split; intros H;
    destruct (Z.leb_spec 600 total); try lia;
    destruct (Z.leb_spec 520 total); try lia;
    destruct (Z.leb_spec 450 total); try lia;
    destruct (Z.leb_spec 380 total); try lia; reflexivity.
Qed.

(** C7. The rarity of an entity is a function of the sum of its base stats,
    read off the descending thresholds 600, 520, 450 and 380, and the
    boundaries are exact: the sums 600, 599, 520, 519, 450, 449, 380 and 379
    give Legendary, Epic, Epic, Rare, Rare, Uncommon, Uncommon and Common. *)
Theorem rarity_thresholds_exact (stats : list PokeApiStat) :
  let total := fold_right Z.add 0 (map base_stat stats) in
  sumStats stats = total /\
  ((600 <= total -> getRarityFromStats stats = "Legendary") /\
   (520 <= total < 600 -> getRarityFromStats stats = "Epic") /\
   (450 <= total < 520 -> getRarityFromStats stats = "Rare") /\
   (380 <= total < 450 -> getRarityFromStats stats = "Uncommon") /\
   (total < 380 -> getRarityFromStats stats = "Common")) /\
  (total = 600 -> getRarityFromStats stats = "Legendary") /\
  (total = 599 -> getRarityFromStats stats = "Epic") /\
  (total = 520 -> getRarityFromStats stats = "Epic") /\
  (total = 519 -> getRarityFromStats stats = "Rare") /\
  (total = 450 -> getRarityFromStats stats = "Rare") /\
  (total = 449 -> getRarityFromStats stats = "Uncommon") /\
  (total = 380 -> getRarityFromStats stats = "Uncommon") /\
  (total = 379 -> getRarityFromStats stats = "Common").
Proof.
  intros total.
  pose proof (sumStats_total stats) as Hsum. fold total in Hsum.
  pose proof (rarity_by_total stats) as Hr. simpl in Hr. rewrite Hsum in Hr.
  destruct Hr as (H1 & H2 & H3 & H4 & H5).
  split; [exact Hsum|]. split; [tauto|].
  repeat split; intros ->;
    first [apply H1; lia | apply H2; lia | apply H3; lia | apply H4; lia | apply H5; lia].
Qed.

Lemma rarity_thresholds_exact_witness :
  getRarityFromStats (statsOf [300; 300]) = "Legendary" /\
  getRarityFromStats (statsOf [300; 299]) = "Epic" /\
  getRarityFromStats (statsOf [100; 100; 100; 100; 100; 20]) = "Epic" /\
  getRarityFromStats (statsOf [519]) = "Rare" /\
  getRarityFromStats (statsOf [318]) = "Common".
Proof.
  split; [|split; [|split; [|split]]].
  - destruct (rarity_thresholds_exact (statsOf [300; 300])) as (_ & _ & H & _).
    apply H. reflexivity.
  - destruct (rarity_thresholds_exact (statsOf [300; 299])) as (_ & _ & _ & H & _).
    apply H. reflexivity.
  - destruct (rarity_thresholds_exact (statsOf [100; 100; 100; 100; 100; 20]))
      as (_ & _ & _ & _ & H & _).
    apply H. reflexivity.
  - destruct (rarity_thresholds_exact (statsOf [519])) as (_ & _ & _ & _ & _ & H & _).
    apply H. reflexivity.
  - destruct (rarity_thresholds_exact (statsOf [318])) as (_ & (_ & _ & _ & _ & H) & _).
    apply H. simpl. lia.
Defined.

Lemma find_generation (dexId : Z) :
  (dexId <= 151 -> getGenerationByDexId dexId = nth 0 GENERATION_RANGES lastGeneration) /\
  (151 < dexId <= 251 -> getGenerationByDexId dexId = nth 1 GENERATION_RANGES lastGeneration) /\
  (251 < dexId <= 386 -> getGenerationByDexId dexId = nth 2 GENERATION_RANGES lastGeneration) /\
  (386 < dexId <= 493 -> getGenerationByDexId dexId = nth 3 GENERATION_RANGES lastGeneration) /\
  (493 < dexId <= 649 -> getGenerationByDexId dexId = nth 4 GENERATION_RANGES lastGeneration) /\
  (649 < dexId <= 721 -> getGenerationByDexId dexId = nth 5 GENERATION_RANGES lastGeneration) /\
  (721 < dexId <= 809 -> getGenerationByDexId dexId = nth 6 GENERATION_RANGES lastGeneration) /\
  (809 < dexId <= 905 -> getGenerationByDexId dexId = nth 7 GENERATION_RANGES lastGeneration) /\
  (905 < dexId -> getGenerationByDexId dexId = nth 8 GENERATION_RANGES lastGeneration).
Proof.
  unfold getGenerationByDexId, GENERATION_RANGES, MAX_SAFE_INTEGER; cbn [find maxDex nth].
  repeat split; intros H;
    destruct (Z.leb_spec dexId 151); try lia;
    destruct (Z.leb_spec dexId 251); try lia;
    destruct (Z.leb_spec dexId 386); try lia;
    destruct (Z.leb_spec dexId 493); try lia;
    destruct (Z.leb_spec dexId 649); try lia;
    destruct (Z.leb_spec dexId 721); try lia;
    destruct (Z.leb_spec dexId 809); try lia;
    destruct (Z.leb_spec dexId 905); try lia;
    try reflexivity;
    destruct (Z.leb_spec dexId 9007199254740991); reflexivity.
Qed.

Lemma generation_table_ascending :
  StronglySorted Z.lt (map maxDex GENERATION_RANGES).
Proof.
  unfold GENERATION_RANGES, MAX_SAFE_INTEGER; cbn [map maxDex].
  repeat (constructor; [|repeat (constructor; [lia|]); constructor]).
  constructor.
Qed.

Ltac earlier_ranges :=
  let j := fresh "j" in
  let r := fresh "r" in
  let Hj := fresh "Hj" in
  let Hr := fresh "Hr" in
  intros j r Hj Hr;
  do 9 (destruct j as [|j]; [try lia; inversion Hr; subst r; cbn [maxDex]; lia|]);
  lia.

(** C8. The generation assigned to a primary identifier is the first entry
    of the ascending table [GENERATION_RANGES] whose [maxDex] is at least
    the identifier, the last entry taking every identifier beyond the
    others; the function is total, so there is exactly one.  The boundaries
    of the nine ranges are exact: 151 is Generation I and 152 Generation II,
    and so on at 251, 386, 493, 649, 721, 809 and 905. *)
Theorem generation_first_matching_range :
  StronglySorted Z.lt (map maxDex GENERATION_RANGES) /\
  (forall dexId : Z,
     exists i : nat,
       GENERATION_RANGES !! i = Some (getGenerationByDexId dexId) /\
       (dexId <= maxDex (getGenerationByDexId dexId) \/ S i = length GENERATION_RANGES) /\
       (forall j r, (j < i)%nat -> GENERATION_RANGES !! j = Some r -> maxDex r < dexId)) /\
  map (fun dexId => displayName (getGenerationByDexId dexId))
      [151; 152; 251; 252; 386; 387; 493; 494; 649; 650; 721; 722; 809; 810; 905; 906]
  = ["Generation I"; "Generation II"; "Generation II"; "Generation III";
     "Generation III"; "Generation IV"; "Generation IV"; "Generation V";
     "Generation V"; "Generation VI"; "Generation VI"; "Generation VII";
     "Generation VII"; "Generation VIII"; "Generation VIII"; "Generation IX"].
Proof.
  split; [exact generation_table_ascending|].
  split; [|reflexivity].
  intros dexId.
  destruct (find_generation dexId) as (H0 & H1 & H2 & H3 & H4 & H5 & H6 & H7 & H8).
  destruct (Z.le_gt_cases dexId 151) as [L0|G0].
  { exists 0%nat. rewrite (H0 L0). cbn. repeat split; [left; lia | earlier_ranges]. }
  destruct (Z.le_gt_cases dexId 251) as [L1|G1].
  { exists 1%nat. rewrite H1 by lia. cbn. repeat split; [left; lia | earlier_ranges]. }
  destruct (Z.le_gt_cases dexId 386) as [L2|G2].
  { exists 2%nat. rewrite H2 by lia. cbn. repeat split; [left; lia | earlier_ranges]. }
  destruct (Z.le_gt_cases dexId 493) as [L3|G3].
  { exists 3%nat. rewrite H3 by lia. cbn. repeat split; [left; lia | earlier_ranges]. }
  destruct (Z.le_gt_cases dexId 649) as [L4|G4].
  { exists 4%nat. rewrite H4 by lia. cbn. repeat split; [left; lia | earlier_ranges]. }
  destruct (Z.le_gt_cases dexId 721) as [L5|G5].
  { exists 5%nat. rewrite H5 by lia. cbn. repeat split; [left; lia | earlier_ranges]. }
  destruct (Z.le_gt_cases dexId 809) as [L6|G6].
  { exists 6%nat. rewrite H6 by lia. cbn. repeat split; [left; lia | earlier_ranges]. }
  destruct (Z.le_gt_cases dexId 905) as [L7|G7].
  { exists 7%nat. rewrite H7 by lia. cbn. repeat split; [left; lia | earlier_ranges]. }
  exists 8%nat. rewrite H8 by lia. cbn. repeat split; [right; reflexivity | earlier_ranges].
Qed.

Lemma generation_first_matching_range_witness :
  exists i : nat,
    GENERATION_RANGES !! i = Some (getGenerationByDexId 152) /\
    (152 <= maxDex (getGenerationByDexId 152) \/ S i = length GENERATION_RANGES) /\
    (forall j r, (j < i)%nat -> GENERATION_RANGES !! j = Some r -> maxDex r < 152).
Proof. exact (proj1 (proj2 generation_first_matching_range) 152). Defined.

(** ** Filtering *)

Lemma isNil_true {A : Type} (l : list A) : isNil l = true <-> l = [].
Proof. destruct l; simpl; split; congruence. Qed.

Lemma matchesSeries_spec (filters : FilterOptions) (card : PokemonCard) :
  matchesSeries filters card = true <->
  (filter_series filters = [] \/
   exists series, In series (filter_series filters) /\
     (sameIgnoringCase (set_name (card_set card)) series \/
      sameIgnoringCase (serie_name (card_serie card)) series)).
Proof.
  unfold matchesSeries, sameIgnoringCase.
  rewrite orb_true_iff, isNil_true, existsb_exists.
  split; (intros [H|(series & Hin & H)]; [left; exact H | right; exists series; split; [exact Hin|]]).
  - apply orb_true_iff in H. destruct H as [H|H]; apply String.eqb_eq in H; auto.
  - apply orb_true_iff. destruct H as [H|H]; [left | right]; apply String.eqb_eq; exact H.
Qed.

Lemma matchesType_spec (filters : FilterOptions) (card : PokemonCard) :
  matchesType filters card = true <->
  (filter_types filters = [] \/
   forall type, In type (filter_types filters) ->
     exists cardType, In cardType (default [] (card_types card)) /\
       sameIgnoringCase cardType type).
Proof.
  unfold matchesType, sameIgnoringCase.
  rewrite orb_true_iff, isNil_true, forallb_forall.
  split; (intros [H|H]; [left; exact H | right; intros type Hin; specialize (H type Hin)]).
  - destruct (card_types card) as [cardTypes|]; [|discriminate].
    apply existsb_exists in H. destruct H as (cardType & Hc & Heq).
    exists cardType. split; [exact Hc | apply String.eqb_eq; exact Heq].
  - destruct H as (cardType & Hc & Heq).
    destruct (card_types card) as [cardTypes|]; [|destruct Hc].
    apply existsb_exists. exists cardType. split; [exact Hc | apply String.eqb_eq; exact Heq].
Qed.

Lemma matchesRarity_spec (filters : FilterOptions) (card : PokemonCard) :
  matchesRarity filters card = true <->
  (filter_rarities filters = [] \/
   exists rarity, In rarity (filter_rarities filters) /\
     exists r, card_rarity card = Some r /\ sameIgnoringCase r rarity).
Proof.
  unfold matchesRarity, sameIgnoringCase.
  rewrite orb_true_iff, isNil_true, existsb_exists.
  split; (intros [H|(rarity & Hin & H)]; [left; exact H | right; exists rarity; split; [exact Hin|]]).
  - destruct (card_rarity card) as [r|]; [|discriminate].
    exists r. split; [reflexivity | apply String.eqb_eq; exact H].
  - destruct H as (r & -> & H). apply String.eqb_eq; exact H.
Qed.

Lemma matchesHp_spec (filters : FilterOptions) (card : PokemonCard) :
  matchesHp filters card = true <->
  hp_min (hpRange filters) <= hpOf card <= hp_max (hpRange filters).
Proof.
  unfold matchesHp. cbv zeta. rewrite andb_true_iff, !Z.leb_le. tauto.
Qed.

(** ** Numbers written and read back ([String(n)], [parseInt]) *)

Lemma digits_from_acc (d : Decimal.uint) (acc : positive) :
  Js.digitsPrefix (Some (Zpos acc)) (NilEmpty.string_of_uint d)
  = Some (Zpos (Pos.of_uint_acc d acc)).
Proof.
  revert acc. induction d; intros acc; cbn [NilEmpty.string_of_uint Js.digitsPrefix Pos.of_uint_acc];
    [reflexivity | ..];
    match goal with
    | |- context [Js.isDigit ?c] => change (Js.isDigit c) with true; cbv iota
    end;
    match goal with
    | |- Js.digitsPrefix (Some ?v) _ = Some (Zpos (Pos.of_uint_acc _ ?a)) =>
        replace v with (Zpos a)
          by (match goal with
              | |- context [Js.digitValue ?k] =>
                  let n := eval vm_compute in (Js.digitValue k) in
                  change (Js.digitValue k) with n
              end; cbv [default from_option id]; lia)
    end; apply IHd.
Qed.

Lemma digits_from_zero (d : Decimal.uint) :
  Js.digitsPrefix (Some 0) (NilEmpty.string_of_uint d) = Some (Z.of_N (Pos.of_uint d)).
Proof.
  induction d; cbn [NilEmpty.string_of_uint Js.digitsPrefix Pos.of_uint];
    [reflexivity | exact IHd | ..];
    match goal with
    | |- context [Js.isDigit ?c] => change (Js.isDigit c) with true; cbv iota
    end;
    match goal with
    | |- Js.digitsPrefix (Some ?v) _ = Some (Z.of_N (Npos (Pos.of_uint_acc _ ?a))) =>
        change v with (Zpos a)
    end; apply digits_from_acc.
Qed.

Lemma digits_of_uint (d : Decimal.uint) :
  d <> Decimal.Nil ->
  Js.digitsPrefix None (NilEmpty.string_of_uint d) = Some (Z.of_N (Pos.of_uint d)).
Proof.
  intros Hd. rewrite <- digits_from_zero. destruct d; [contradiction | reflexivity ..].
Qed.

Lemma uint_string_head (d : Decimal.uint) :
  d <> Decimal.Nil ->
  exists c rest, NilEmpty.string_of_uint d = String c rest /\ Js.isDigit c = true.
Proof. intros Hd. destruct d; [contradiction | cbn; eauto ..]. Qed.

Lemma parseInt10_digits (s : string) (c : ascii) (rest : string) :
  s = String c rest -> Js.isDigit c = true -> Js.parseInt10 s = Js.digitsPrefix None s.
Proof.
  intros -> Hc. unfold Js.parseInt10. cbn [Js.trimStart].
  assert (Hw : Js.isWhiteSpace c = false).
  { destruct c as [[] [] [] [] [] [] [] []]; cbv in Hc |- *; congruence. }
  rewrite Hw.
  destruct c as [[] [] [] [] [] [] [] []]; try reflexivity; cbv in Hc; discriminate Hc.
Qed.

Lemma parseInt10_ofInt (n : Z) : Js.parseInt10 (Js.ofInt n) = Some n.
Proof.
  unfold Js.ofInt. destruct n as [|p|p]; cbn [Z.to_int NilZero.string_of_int].
  - reflexivity.
  - pose proof (Unsigned.to_uint_nonnil p) as Hnil.
    destruct (uint_string_head _ Hnil) as (c & rest & Hs & Hc).
    assert (Hz : NilZero.string_of_uint (Pos.to_uint p) = NilEmpty.string_of_uint (Pos.to_uint p)).
    { unfold NilZero.string_of_uint. destruct (Pos.to_uint p); [contradiction | reflexivity ..]. }
    rewrite Hz.
    rewrite (parseInt10_digits _ c rest Hs Hc), (digits_of_uint _ Hnil), Unsigned.of_to.
    reflexivity.
  - pose proof (Unsigned.to_uint_nonnil p) as Hnil.
    assert (Hz : NilZero.string_of_uint (Pos.to_uint p) = NilEmpty.string_of_uint (Pos.to_uint p)).
    { unfold NilZero.string_of_uint. destruct (Pos.to_uint p); [contradiction | reflexivity ..]. }
    rewrite Hz.
    unfold Js.parseInt10. cbn [Js.trimStart]. change (Js.isWhiteSpace "-") with false. cbv iota.
    rewrite (digits_of_uint _ Hnil), Unsigned.of_to. reflexivity.
Qed.

Lemma ofInt_truthy (n : Z) : Js.truthy (Js.ofInt n) = true.
Proof.
  unfold Js.ofInt. destruct n as [|p|p]; cbn [Z.to_int NilZero.string_of_int];
    [reflexivity | | reflexivity].
  pose proof (Unsigned.to_uint_nonnil p) as Hnil.
  unfold NilZero.string_of_uint. destruct (Pos.to_uint p); [contradiction | reflexivity ..].
Qed.

(** C5. A card matches the filter criteria exactly when all four conditions
    hold: no series is selected or the set or serie name of the card equals
    one of the selected series up to case; no type is selected or every
    selected type is, up to case, among the types of the card; no rarity is
    selected or the rarity of the card equals one of the selected rarities
    up to case; and the hp of the card, 0 when absent, lies in the inclusive
    range.  So the selection Fire, Flying rejects a card of the single type
    Fire and admits a card of types Fire, Flying, Dragon, and the selection
    A, B admits a card whose series is B.  The hp of a card is the number
    its [hp] member writes: a card whose hp reads 2000 is rejected by the
    range 0 to 1000.  Case is ignored on both sides: the selection FIRE,
    flying admits the types Fire, Flying, Dragon, the series b admits the
    series B, and the rarity RARE admits the rarity Rare. *)
Theorem matchesFilters_iff (filters : FilterOptions) (card : PokemonCard) :
  (matchesFilters filters card = true <->
   (filter_series filters = [] \/
    exists series, In series (filter_series filters) /\
      (sameIgnoringCase (set_name (card_set card)) series \/
       sameIgnoringCase (serie_name (card_serie card)) series)) /\
   (filter_types filters = [] \/
    forall type, In type (filter_types filters) ->
      exists cardType, In cardType (default [] (card_types card)) /\
        sameIgnoringCase cardType type) /\
   (filter_rarities filters = [] \/
    exists rarity, In rarity (filter_rarities filters) /\
      exists r, card_rarity card = Some r /\ sameIgnoringCase r rarity) /\
   hp_min (hpRange filters) <= hpOf card <= hp_max (hpRange filters)) /\
  (card_hp card = None -> hpOf card = 0) /\
  (filter_types filters = ["Fire"; "Flying"] ->
   (card_types card = Some ["Fire"] -> matchesFilters filters card = false) /\
   (card_types card = Some ["Fire"; "Flying"; "Dragon"] -> matchesType filters card = true)) /\
  (filter_series filters = ["A"; "B"] ->
   set_name (card_set card) = "B" -> serie_name (card_serie card) = "B" ->
   matchesSeries filters card = true) /\
  (forall n, card_hp card = Some (Js.ofInt n) ->
     hpOf card = n /\
     (matchesHp filters card = true <->
      hp_min (hpRange filters) <= n <= hp_max (hpRange filters))) /\
  (card_hp card = Some "" -> hpOf card = 0) /\
  (card_hp card = Some "2000" -> hp_max (hpRange filters) = 1000 ->
   hpOf card = 2000 /\ matchesFilters filters card = false) /\
  (filter_types filters = ["FIRE"; "flying"] ->
   card_types card = Some ["Fire"; "Flying"; "Dragon"] -> matchesType filters card = true) /\
  (filter_series filters = ["b"] ->
   set_name (card_set card) = "B" -> matchesSeries filters card = true) /\
  (filter_rarities filters = ["RARE"] ->
   card_rarity card = Some "Rare" -> matchesRarity filters card = true).
Proof.
  assert (Hwritten : forall n, card_hp card = Some (Js.ofInt n) -> hpOf card = n).
  { intros n H. unfold hpOf, orString. rewrite H, ofInt_truthy, parseInt10_ofInt. reflexivity. }
  split; [|split; [|split; [|split; [|split; [|split; [|split; [|split; [|split]]]]]]]].
  - unfold matchesFilters. rewrite !andb_true_iff.
    rewrite matchesSeries_spec, matchesType_spec, matchesRarity_spec, matchesHp_spec.
    tauto.
  - intros H. unfold hpOf. rewrite H. reflexivity.
  - intros Hf. split; intros Hc.
    + unfold matchesFilters, matchesType. rewrite Hf, Hc. cbn.
      rewrite andb_false_r. reflexivity.
    + unfold matchesType. rewrite Hf, Hc. reflexivity.
  - intros Hf Hs Hs'. unfold matchesSeries. rewrite Hf, Hs, Hs'. reflexivity.
  - intros n H. split; [exact (Hwritten n H)|].
    rewrite matchesHp_spec, (Hwritten n H). reflexivity.
  - intros H. unfold hpOf. rewrite H. reflexivity.
  - intros H Hmax. pose proof (Hwritten 2000 H) as Hhp. split; [exact Hhp|].
    unfold matchesFilters, matchesHp. cbv zeta. rewrite Hhp, Hmax.
    rewrite andb_false_r. apply andb_false_r.
  - intros Hf Hc. unfold matchesType. rewrite Hf, Hc. reflexivity.
  - intros Hf Hs. unfold matchesSeries. rewrite Hf, Hs. reflexivity.
  - intros Hf Hr. unfold matchesRarity. rewrite Hf, Hr. reflexivity.
Qed.

Lemma matchesFilters_iff_witness :
  matchesFilters (sampleFilters [] ["Fire"; "Flying"])
                 (sampleCard "Charmander" "B" ["Fire"] (Some "39")) = false /\
  matchesType (sampleFilters [] ["Fire"; "Flying"])
              (sampleCard "Charizard" "B" ["Fire"; "Flying"; "Dragon"] (Some "78")) = true /\
  matchesSeries (sampleFilters ["A"; "B"] [])
                (sampleCard "Charizard" "B" ["fire"] None) = true /\
  hpOf (sampleCard "Charizard" "B" ["fire"] None) = 0 /\
  hpOf (sampleCard "Charizard" "B" ["fire"] (Some "78")) = 78 /\
  matchesFilters (sampleFilters [] []) (sampleCard "Charizard" "B" ["fire"] (Some "2000"))
  = false /\
  matchesType (sampleFilters [] ["FIRE"; "flying"])
              (sampleCard "Charizard" "B" ["Fire"; "Flying"; "Dragon"] (Some "78")) = true /\
  matchesSeries (sampleFilters ["b"] []) (sampleCard "Charizard" "B" ["fire"] None) = true /\
  matchesFilters (withRarities ["EPIC"] (sampleFilters ["b"] ["FIRE"]))
                 (sampleCard "Charizard" "B" ["fire"] (Some "78")) = true.
Proof.
  split; [|split; [|split; [|split; [|split; [|split; [|split; [|split]]]]]]].
  - destruct (matchesFilters_iff (sampleFilters [] ["Fire"; "Flying"])
                (sampleCard "Charmander" "B" ["Fire"] (Some "39"))) as (_ & _ & H & _).
    apply H; reflexivity.
  - destruct (matchesFilters_iff (sampleFilters [] ["Fire"; "Flying"])
                (sampleCard "Charizard" "B" ["Fire"; "Flying"; "Dragon"] (Some "78")))
      as (_ & _ & H & _).
    apply H; reflexivity.
  - destruct (matchesFilters_iff (sampleFilters ["A"; "B"] [])
                (sampleCard "Charizard" "B" ["fire"] None)) as (_ & _ & _ & H & _).
    apply H; reflexivity.
  - destruct (matchesFilters_iff (sampleFilters ["A"; "B"] [])
                (sampleCard "Charizard" "B" ["fire"] None)) as (_ & H & _).
    apply H; reflexivity.
  - destruct (matchesFilters_iff (sampleFilters [] [])
                (sampleCard "Charizard" "B" ["fire"] (Some "78")))
      as (_ & _ & _ & _ & H & _).
    apply (H 78). reflexivity.
  - destruct (matchesFilters_iff (sampleFilters [] [])
                (sampleCard "Charizard" "B" ["fire"] (Some "2000")))
      as (_ & _ & _ & _ & _ & _ & H & _).
    apply H; reflexivity.
  - destruct (matchesFilters_iff (sampleFilters [] ["FIRE"; "flying"])
                (sampleCard "Charizard" "B" ["Fire"; "Flying"; "Dragon"] (Some "78")))
      as (_ & _ & _ & _ & _ & _ & _ & H & _).
    apply H; reflexivity.
  - destruct (matchesFilters_iff (sampleFilters ["b"] [])
                (sampleCard "Charizard" "B" ["fire"] None))
      as (_ & _ & _ & _ & _ & _ & _ & _ & H & _).
    apply H; reflexivity.
  - apply (proj1 (matchesFilters_iff (withRarities ["EPIC"] (sampleFilters ["b"] ["FIRE"]))
                    (sampleCard "Charizard" "B" ["fire"] (Some "78")))).
    split; [|split; [|split]].
    + right. exists "b". split; [left; reflexivity | left; vm_compute; reflexivity].
    + right. intros type [<-|[]]. exists "fire".
      split; [left; reflexivity | vm_compute; reflexivity].
    + right. exists "EPIC". split; [left; reflexivity|]. exists "Epic".
      split; [reflexivity | vm_compute; reflexivity].
    + assert (Hhp : hpOf (sampleCard "Charizard" "B" ["fire"] (Some "78")) = 78)
        by reflexivity.
      rewrite Hhp. cbn. lia.
Defined.

(** ** Failure handling of the single operations *)

Lemma trimStart_blank (q : string) : Js.isBlank q = true -> Js.trimStart q = "".
Proof.
  induction q as [|c q IH]; simpl; [reflexivity|].
  intros H. apply andb_true_iff in H. destruct H as [Hc Hq].
  rewrite Hc. exact (IH Hq).
Qed.

Lemma trim_blank (q : string) : Js.isBlank q = true -> Js.trim q = "".
Proof. intros H. unfold Js.trim. rewrite (trimStart_blank q H). reflexivity. Qed.

(** C10. Called with a query that is empty or made of white space only,
    [searchPokemon] resolves to the empty list and leaves the module
    untouched: whatever the index cache holds, whatever the remote source
    would answer and in whatever order the fetches would settle, nothing is
    read and no request is logged. *)
Theorem searchPokemon_blank_query
  (localeCompare : string -> string -> Z) (net : Network) (schedule : list nat)
  (query : string) (s : Service) :
  Js.isBlank query = true ->
  searchPokemon localeCompare net schedule query s = (Resolved [], s).
Proof.
  intros H. unfold searchPokemon. rewrite (trim_blank query H). reflexivity.
Qed.

Lemma searchPokemon_blank_query_witness :
  searchPokemon ordinalCompare offline [] "  " coldService = (Resolved [], coldService).
Proof.
  apply (searchPokemon_blank_query ordinalCompare offline [] "  " coldService).
  reflexivity.
Defined.

Lemma index_failure_state (s : Service) (r : Request) :
  pokemonIndexCache s = None -> pokemonIndexPromise s = None ->
  setIndex None None (setIndex (pokemonIndexCache (logRequest r s))
                               (Some (length (requestLog s))) (logRequest r s))
  = logRequest r s.
Proof.
  destruct s as [c ic ip log]; simpl. intros -> ->. reflexivity.
Qed.

Lemma fetchPokemonIndex_failure (net : Network) (s : Service) (message : string) :
  pokemonIndexCache s = None -> pokemonIndexPromise s = None ->
  answerList net (length (requestLog s)) 0 POKEMON_INDEX_LIMIT = Rejected message ->
  fetchPokemonIndex net s
  = (Rejected "Failed to fetch pokemon", logRequest (GetPokemonList 0 POKEMON_INDEX_LIMIT) s).
Proof.
  intros Hc Hp Hnet. unfold fetchPokemonIndex, fetchPokemonIndex_call.
  rewrite Hc, Hp. cbn [fetchPokemon_request].
  unfold fetchPokemon_settle. rewrite Hnet. cbn [fetchPokemonIndex_settle].
  rewrite index_failure_state by assumption. reflexivity.
Qed.

(** C4, as the code has it.  No operation repeats a request: a call logs
    exactly one.  [fetchPokemon], [fetchPokemonById] (on a cache miss), the
    index loader (cold) and [searchPokemon] surface the failure of that
    request to their caller as an error.  [fetchTypes] and
    [fetchGenerations] do not: when the type-list or generation-list request
    fails they resolve to the empty list. *)
Theorem network_failure_handling (net : Network) (s : Service) :
  let n := length (requestLog s) in
  (forall message, answerType net n = Rejected message ->
     fetchTypes net s = (Resolved [], logRequest GetType s)) /\
  (forall message, answerGeneration net n = Rejected message ->
     fetchGenerations net s = (Resolved [], logRequest GetGeneration s)) /\
  (forall offset limit message, answerList net n offset limit = Rejected message ->
     fetchPokemon net offset limit s
     = (Rejected "Failed to fetch pokemon", logRequest (GetPokemonList offset limit) s)) /\
  (forall id message,
     pokemonCache s !! Js.toLowerCase id = None ->
     answerPokemon net n (Js.toLowerCase id) = Rejected message ->
     fetchPokemonById net id s
     = (Rejected "Failed to fetch pokemon details", logRequest (GetPokemon (Js.toLowerCase id)) s)) /\
  (forall message,
     pokemonIndexCache s = None -> pokemonIndexPromise s = None ->
     answerList net n 0 POKEMON_INDEX_LIMIT = Rejected message ->
     fetchPokemonIndex net s
     = (Rejected "Failed to fetch pokemon", logRequest (GetPokemonList 0 POKEMON_INDEX_LIMIT) s)) /\
  (forall localeCompare schedule query message,
     Js.truthy (Js.toLowerCase (Js.trim query)) = true ->
     pokemonIndexCache s = None -> pokemonIndexPromise s = None ->
     answerList net n 0 POKEMON_INDEX_LIMIT = Rejected message ->
     searchPokemon localeCompare net schedule query s
     = (Rejected "Failed to search pokemon", logRequest (GetPokemonList 0 POKEMON_INDEX_LIMIT) s)).
Proof.
  intros n. subst n.
  split; [|split; [|split; [|split; [|split]]]].
  - intros message H. unfold fetchTypes. rewrite H. reflexivity.
  - intros message H. unfold fetchGenerations. rewrite H. reflexivity.
  - intros offset limit message H. unfold fetchPokemon, fetchPokemon_request, fetchPokemon_settle.
    rewrite H. reflexivity.
  - intros id message Hmiss H. unfold fetchPokemonById. rewrite Hmiss, H. reflexivity.
  - intros message Hc Hp H. exact (fetchPokemonIndex_failure net s message Hc Hp H).
  - intros localeCompare schedule query message Hq Hc Hp H.
    unfold searchPokemon. rewrite Hq. cbn [negb].
    rewrite (fetchPokemonIndex_failure net s message Hc Hp H). reflexivity.
Qed.

Lemma network_failure_handling_witness :
  fetchTypes offline coldService = (Resolved [], logRequest GetType coldService) /\
  fetchPokemonById offline "Pikachu" coldService
  = (Rejected "Failed to fetch pokemon details", logRequest (GetPokemon "pikachu") coldService) /\
  searchPokemon ordinalCompare offline [] " Pika " coldService
  = (Rejected "Failed to search pokemon",
     logRequest (GetPokemonList 0 POKEMON_INDEX_LIMIT) coldService).
Proof.
  destruct (network_failure_handling offline coldService) as (Ht & _ & _ & Hid & _ & Hs).
  split; [|split].
  - apply (Ht "Network Error"). reflexivity.
  - apply (Hid "Pikachu" "Network Error"); reflexivity.
  - apply (Hs ordinalCompare [] " Pika " "Network Error"); reflexivity.
Defined.

(** C4 as stated fails: with the remote source down, [fetchTypes] and
    [fetchGenerations] resolve, to the empty list, where the claim has them
    reject. *)
Lemma fetchTypes_swallows_failure :
  answerType offline 0 = Rejected "Network Error" /\
  answerGeneration offline 0 = Rejected "Network Error" /\
  fst (fetchTypes offline coldService) = Resolved [] /\
  fst (fetchGenerations offline coldService) = Resolved [] /\
  ~ (exists message, fst (fetchTypes offline coldService) = Rejected message) /\
  ~ (exists message, fst (fetchGenerations offline coldService) = Rejected message).
Proof.
  repeat split; try reflexivity; intros [message H]; discriminate H.
Qed.

(** ** Ranking by set *)

(** C3, as the code has it.  Sorting by [set] compares the generation ranks
    first, and the direction flips that comparison.  When the two ranks are
    the same the comparator falls through to the common tail, which compares
    the set names with [localeCompare] in the requested direction: the
    tie-break is on the set name, and it is flipped by the direction like
    the primary comparison. *)
Theorem sort_by_set_comparator
  (localeCompare : string -> string -> Z) (a b : PokemonCard) :
  (sameKey (setRank a) (setRank b) = false ->
   compareCards localeCompare SortSet Asc a b = subtractKeys (setRank a) (setRank b) /\
   compareCards localeCompare SortSet Desc a b = subtractKeys (setRank b) (setRank a)) /\
  (forall x y, setRank a = KNum x -> setRank b = KNum y -> x <> y ->
   compareCards localeCompare SortSet Asc a b = Some (x - y) /\
   compareCards localeCompare SortSet Desc a b = Some (y - x)) /\
  (sameKey (setRank a) (setRank b) = true ->
   compareCards localeCompare SortSet Asc a b
   = Some (localeCompare (set_name (card_set a)) (set_name (card_set b))) /\
   compareCards localeCompare SortSet Desc a b
   = Some (localeCompare (set_name (card_set b)) (set_name (card_set a))) /\
   (localeCompare (set_name (card_set a)) (set_name (card_set b)) <= 0 ->
    sortCards localeCompare SortSet Asc [a; b] = [a; b]) /\
   (0 < localeCompare (set_name (card_set b)) (set_name (card_set a)) ->
    sortCards localeCompare SortSet Desc [a; b] = [b; a])).
Proof.
  split; [|split].
  - intros H. unfold compareCards. cbv zeta. rewrite H. cbn [negb]. split; reflexivity.
  - intros x y Ha Hb Hxy. unfold compareCards. cbv zeta. rewrite Ha, Hb. cbn [sameKey].
    destruct (Z.eqb_spec x y) as [E|_]; [contradiction|]. cbn. split; reflexivity.
  - intros H.
    assert (Hasc : compareCards localeCompare SortSet Asc a b
                   = Some (localeCompare (set_name (card_set a)) (set_name (card_set b)))).
    { unfold compareCards. cbv zeta. rewrite H. reflexivity. }
    assert (Hdesc : compareCards localeCompare SortSet Desc a b
                    = Some (localeCompare (set_name (card_set b)) (set_name (card_set a)))).
    { unfold compareCards. cbv zeta. rewrite H. reflexivity. }
    split; [exact Hasc|]. split; [exact Hdesc|]. split; intros Hlc.
    + unfold sortCards. cbn [arraySort insertSorted]. rewrite Hasc. cbv [default from_option id].
      destruct (Z.ltb_spec 0 (localeCompare (set_name (card_set a)) (set_name (card_set b))));
        [lia | reflexivity].
    + unfold sortCards. cbn [arraySort insertSorted]. rewrite Hdesc. cbv [default from_option id].
      destruct (Z.ltb_spec 0 (localeCompare (set_name (card_set b)) (set_name (card_set a))));
        [reflexivity | lia].
Qed.

Lemma sort_by_set_comparator_witness :
  sortCards ordinalCompare SortSet Asc [cardAbra; cardZubat] = [cardAbra; cardZubat] /\
  sortCards ordinalCompare SortSet Desc [cardAbra; cardZubat] = [cardZubat; cardAbra].
Proof.
  destruct (sort_by_set_comparator ordinalCompare cardAbra cardZubat) as (_ & _ & H).
  destruct (H eq_refl) as (_ & _ & Hasc & Hdesc).
  split.
  - apply Hasc. vm_compute. discriminate.
  - apply Hdesc. reflexivity.
Defined.

(** C3 as stated fails.  The two cards have the same rank (neither set is a
    generation) and are in ascending order both by display name and by set
    name, so a tie-break that ignored the direction would keep Abra first
    in both directions; sorted descending, Zubat comes first. *)
Lemma sort_by_set_tiebreak_flipped :
  sameKey (setRank cardAbra) (setRank cardZubat) = true /\
  ordinalCompare (card_name cardAbra) (card_name cardZubat) < 0 /\
  ordinalCompare (set_name (card_set cardAbra)) (set_name (card_set cardZubat)) < 0 /\
  compareCards ordinalCompare SortSet Asc cardAbra cardZubat = Some (-1) /\
  compareCards ordinalCompare SortSet Desc cardAbra cardZubat = Some 1 /\
  sortCards ordinalCompare SortSet Desc [cardAbra; cardZubat] = [cardZubat; cardAbra] /\
  compareCards ordinalCompare SortSet Desc cardAbra cardZubat
  <> compareCards ordinalCompare SortSet Asc cardAbra cardZubat.
Proof.
  repeat split; try reflexivity. vm_compute. discriminate.
Qed.

(** ** The index loader *)

Lemma callers_while_pending (n : nat) (s : Service) (load : nat) :
  pokemonIndexCache s = None -> pokemonIndexPromise s = Some load ->
  callers n s = (repeat (IndexPending load) n, s).
Proof.
  intros Hc Hp. induction n as [|n IH]; simpl; [reflexivity|].
  unfold fetchPokemonIndex_call. rewrite Hc, Hp. rewrite IH. reflexivity.
Qed.

Lemma first_caller (s : Service) :
  pokemonIndexCache s = None -> pokemonIndexPromise s = None ->
  fetchPokemonIndex_call s
  = (IndexPending (length (requestLog s)),
     setIndex None (Some (length (requestLog s)))
              (logRequest (GetPokemonList 0 POKEMON_INDEX_LIMIT) s)).
Proof.
  intros Hc Hp. unfold fetchPokemonIndex_call. rewrite Hc, Hp.
  cbn [fetchPokemon_request]. cbn [logRequest pokemonIndexCache]. rewrite Hc. reflexivity.
Qed.

(** C9. The index loader is single-flight.  When [N] callers invoke it while
    the cache is cold and before the load settles, one request is issued and
    every caller receives the promise of that one load.  If the load fails,
    the rejection is passed on, the cache is still unset and no promise is
    left behind, so the next call issues a request of its own; if it
    succeeds, the listing is cached and the next call issues none. *)
Theorem index_loader_single_flight (N : nat) (s : Service) :
  (0 < N)%nat ->
  pokemonIndexCache s = None -> pokemonIndexPromise s = None ->
  let load := length (requestLog s) in
  let request := GetPokemonList 0 POKEMON_INDEX_LIMIT in
  let pending := snd (callers N s) in
  fst (callers N s) = repeat (IndexPending load) N /\
  requestLog pending = requestLog s ++ [request] /\
  pokemonIndexCache pending = None /\
  (forall message,
     let failed := snd (fetchPokemonIndex_settle (Rejected message) pending) in
     fst (fetchPokemonIndex_settle (Rejected message) pending) = Rejected message /\
     pokemonIndexCache failed = None /\
     pokemonIndexPromise failed = None /\
     requestLog failed = requestLog s ++ [request] /\
     fst (fetchPokemonIndex_call failed) = IndexPending (S load) /\
     requestLog (snd (fetchPokemonIndex_call failed)) = requestLog s ++ [request; request]) /\
  (forall response,
     let loaded := snd (fetchPokemonIndex_settle (Resolved response) pending) in
     fst (fetchPokemonIndex_settle (Resolved response) pending) = Resolved (results response) /\
     fetchPokemonIndex_call loaded = (IndexReady (results response), loaded) /\
     requestLog loaded = requestLog s ++ [request]).
Proof.
  intros HN Hc Hp load request pending.
  destruct N as [|n]; [lia|].
  assert (Hcallers : callers (S n) s
                     = (repeat (IndexPending load) (S n),
                        setIndex None (Some load) (logRequest request s))).
  { cbn [callers]. rewrite (first_caller s Hc Hp).
    rewrite (callers_while_pending n _ load) by reflexivity. reflexivity. }
  subst pending. rewrite Hcallers. cbn [fst snd].
  split; [reflexivity|]. split; [reflexivity|]. split; [reflexivity|]. split.
  - intros message. cbn [fetchPokemonIndex_settle fst snd].
    split; [reflexivity|]. split; [reflexivity|]. split; [reflexivity|].
    split; [reflexivity|].
    unfold fetchPokemonIndex_call. cbn.
    rewrite length_app. cbn [length]. replace (length (requestLog s) + 1)%nat with (S load) by (subst load; lia).
    split; [reflexivity|]. rewrite <- app_assoc. reflexivity.
  - intros response. cbn [fetchPokemonIndex_settle fst snd].
    split; [reflexivity|]. split; reflexivity.
Qed.

Lemma index_loader_single_flight_witness :
  fst (callers 3 coldService) = [IndexPending 0%nat; IndexPending 0%nat; IndexPending 0%nat] /\
  requestLog (snd (callers 3 coldService)) = [GetPokemonList 0 POKEMON_INDEX_LIMIT].
Proof.
  destruct (index_loader_single_flight 3 coldService) as (Hh & Hlog & _);
    [lia | reflexivity | reflexivity |].
  split; [exact Hh | exact Hlog].
Defined.

(** ** The batch detail fetcher *)

Section BatchProofs.
Context {Card : Type}.
Variable fetched : nat -> string -> option Card.
Variable items : list PokeApiListItem.

Lemma claimed_awaiting c i identifier :
  claimed items c = Awaiting i identifier ->
  i = c /\ exists item, items !! c = Some item /\ identifier = item_name item.
Proof.
  unfold claimed. destruct (items !! c) as [item|] eqn:E; [|discriminate].
  intros H. inversion H; subst. split; [reflexivity | eauto].
Qed.

Lemma claimed_returned c : claimed items c = Returned -> (length items <= c)%nat.
Proof.
  unfold claimed. destruct (items !! c) as [item|] eqn:E; [discriminate|].
  intros _. apply lookup_ge_None_1. exact E.
Qed.

(** The worker at [j], which awaited [i], stores its outcome and takes the
    next claim. *)
Lemma replace_inv (p : Pool Card) (j i : nat) (identifier : string)
  (stored : list (option Card)) :
  PoolInv fetched items p ->
  workers p !! j = Some (Awaiting i identifier) ->
  length stored = length items ->
  stored !! i = Some (fetched i identifier) ->
  (forall i', i' <> i -> stored !! i' = poolResults p !! i') ->
  PoolInv fetched items
    {| nextIndex := S (nextIndex p); poolResults := stored;
       workers := <[j := claimed items (nextIndex p)]> (workers p) |}.
Proof.
  intros Inv Hj Hlen Hi Hother.
  destruct (inv_claimed _ _ _ Inv j i identifier Hj) as (Hic & item_i & Hitem_i & Hid).
  assert (Hawaited_old : forall i', i' <> nextIndex p ->
            awaited (<[j := claimed items (nextIndex p)]> (workers p)) i' ->
            i' <> i /\ awaited (workers p) i').
  { intros i' Hne (j' & id' & H). apply list_lookup_insert_Some in H.
    destruct H as [(-> & Hw & _) | (Hjj & H)].
    - apply claimed_awaiting in Hw. destruct Hw as [-> _]. contradiction.
    - split; [|exists j', id'; exact H].
      intros ->. apply Hjj. exact (inv_distinct _ _ _ Inv j j' i _ _ Hj H). }
  constructor; cbn [nextIndex poolResults workers].
  - exact Hlen.
  - intros j' i' id' H. apply list_lookup_insert_Some in H.
    destruct H as [(-> & Hw & _) | (Hjj & H)].
    + apply claimed_awaiting in Hw. destruct Hw as (-> & Hw). split; [lia | exact Hw].
    + destruct (inv_claimed _ _ _ Inv j' i' id' H) as [Hlt Hw]. split; [lia | exact Hw].
  - intros j1 j2 i' id1 id2 H1 H2.
    apply list_lookup_insert_Some in H1. apply list_lookup_insert_Some in H2.
    destruct H1 as [(-> & Hw1 & _) | (Hj1 & H1)], H2 as [(-> & Hw2 & _) | (Hj2 & H2)].
    + reflexivity.
    + apply claimed_awaiting in Hw1. destruct Hw1 as (-> & _).
      destruct (inv_claimed _ _ _ Inv j2 _ id2 H2) as [Hlt _]. lia.
    + apply claimed_awaiting in Hw2. destruct Hw2 as (-> & _).
      destruct (inv_claimed _ _ _ Inv j1 _ id1 H1) as [Hlt _]. lia.
    + exact (inv_distinct _ _ _ Inv j1 j2 i' id1 id2 H1 H2).
  - intros i' Hcase Hrange.
    destruct (decide (i' = nextIndex p)) as [->|Hne].
    + rewrite Hother by lia. apply (inv_unsettled _ _ _ Inv); [left; lia | exact Hrange].
    + destruct Hcase as [Hge | Haw].
      * rewrite Hother by lia. apply (inv_unsettled _ _ _ Inv); [left; lia | exact Hrange].
      * destruct (Hawaited_old i' Hne Haw) as [Hni Hold].
        rewrite Hother by exact Hni.
        apply (inv_unsettled _ _ _ Inv); [right; exact Hold | exact Hrange].
  - intros i' item Hitem Hlt Hnot.
    destruct (decide (i' = i)) as [->|Hni].
    + rewrite Hi. rewrite Hitem_i in Hitem. inversion Hitem; subst. reflexivity.
    + rewrite Hother by exact Hni.
      destruct (decide (i' = nextIndex p)) as [->|Hne].
      * exfalso. apply Hnot. exists j. unfold claimed. rewrite Hitem.
        eexists. apply list_lookup_insert_eq. apply (lookup_lt_Some _ _ _ Hj).
      * apply (inv_settled _ _ _ Inv); [exact Hitem | lia |].
        intros (j' & id' & H). apply Hnot. exists j', id'.
        rewrite list_lookup_insert_ne; [exact H|].
        intros ->. rewrite Hj in H. inversion H; subst. contradiction.
  - intros j' H. apply list_lookup_insert_Some in H.
    destruct H as [(-> & Hw & _) | (Hjj & H)].
    + apply claimed_returned in Hw. lia.
    + pose proof (inv_returned _ _ _ Inv j' H). lia.
Qed.

Lemma resume_eq (p : Pool Card) (j i : nat) (identifier : string) :
  workers p !! j = Some (Awaiting i identifier) ->
  resume fetched items p j =
    {| nextIndex := S (nextIndex p);
       poolResults := match fetched i identifier with
                      | Some card => <[i := Some card]> (poolResults p)
                      | None => poolResults p
                      end;
       workers := <[j := claimed items (nextIndex p)]> (workers p) |}.
Proof. intros H. unfold resume. rewrite H. reflexivity. Qed.

Lemma resume_skip (p : Pool Card) (j : nat) :
  (forall i identifier, workers p !! j <> Some (Awaiting i identifier)) ->
  resume fetched items p j = p.
Proof.
  intros H. unfold resume. destruct (workers p !! j) as [[i identifier|]|] eqn:E; try reflexivity.
  exfalso. exact (H i identifier eq_refl).
Qed.

Lemma resume_inv (p : Pool Card) (j : nat) :
  PoolInv fetched items p -> PoolInv fetched items (resume fetched items p j).
Proof.
  intros Inv.
  destruct (workers p !! j) as [[i identifier|]|] eqn:Hj.
  - rewrite (resume_eq p j i identifier Hj).
    destruct (inv_claimed _ _ _ Inv j i identifier Hj) as (Hic & item_i & Hitem_i & Hid).
    assert (Hrange : (i < length (poolResults p))%nat).
    { rewrite (inv_length _ _ _ Inv). apply (lookup_lt_Some _ _ _ Hitem_i). }
    apply (replace_inv p j i identifier); try assumption.
    + destruct (fetched i identifier); [rewrite length_insert|]; apply (inv_length _ _ _ Inv).
    + destruct (fetched i identifier) as [card|].
      * apply list_lookup_insert_eq. exact Hrange.
      * apply (inv_unsettled _ _ _ Inv); [right; exists j, identifier; exact Hj|].
        rewrite <- (inv_length _ _ _ Inv). exact Hrange.
    + intros i' Hne. destruct (fetched i identifier) as [card|]; [|reflexivity].
      apply list_lookup_insert_ne. congruence.
  - rewrite resume_skip; [exact Inv|]. intros i identifier. congruence.
  - rewrite resume_skip; [exact Inv|]. intros i identifier. congruence.
Qed.

Lemma append_inv (p : Pool Card) :
  PoolInv fetched items p ->
  PoolInv fetched items
    {| nextIndex := S (nextIndex p); poolResults := poolResults p;
       workers := workers p ++ [claimed items (nextIndex p)] |}.
Proof.
  intros Inv.
  assert (Hkeep : forall i', awaited (workers p) i' ->
            awaited (workers p ++ [claimed items (nextIndex p)]) i').
  { intros i' (j' & id' & H). exists j', id'. apply lookup_app_l_Some. exact H. }
  assert (Hsplit : forall i', awaited (workers p ++ [claimed items (nextIndex p)]) i' ->
            awaited (workers p) i' \/ i' = nextIndex p).
  { intros i' (j' & id' & H). apply lookup_snoc_Some in H.
    destruct H as [(_ & H) | (_ & Hw)].
    - left. exists j', id'. exact H.
    - right. apply claimed_awaiting in Hw. tauto. }
  constructor; cbn [nextIndex poolResults workers].
  - apply (inv_length _ _ _ Inv).
  - intros j' i' id' H. apply lookup_snoc_Some in H.
    destruct H as [(_ & H) | (_ & Hw)].
    + destruct (inv_claimed _ _ _ Inv j' i' id' H) as [Hlt Hw]. split; [lia | exact Hw].
    + apply claimed_awaiting in Hw. destruct Hw as (-> & Hw). split; [lia | exact Hw].
  - intros j1 j2 i' id1 id2 H1 H2.
    apply lookup_snoc_Some in H1. apply lookup_snoc_Some in H2.
    destruct H1 as [(_ & H1) | (-> & Hw1)], H2 as [(_ & H2) | (-> & Hw2)].
    + exact (inv_distinct _ _ _ Inv j1 j2 i' id1 id2 H1 H2).
    + apply claimed_awaiting in Hw2. destruct Hw2 as (-> & _).
      destruct (inv_claimed _ _ _ Inv j1 _ id1 H1) as [Hlt _]. lia.
    + apply claimed_awaiting in Hw1. destruct Hw1 as (-> & _).
      destruct (inv_claimed _ _ _ Inv j2 _ id2 H2) as [Hlt _]. lia.
    + reflexivity.
  - intros i' [Hge | Haw] Hrange.
    + apply (inv_unsettled _ _ _ Inv); [left; lia | exact Hrange].
    + destruct (Hsplit i' Haw) as [Hold | ->].
      * apply (inv_unsettled _ _ _ Inv); [right; exact Hold | exact Hrange].
      * apply (inv_unsettled _ _ _ Inv); [left; lia | exact Hrange].
  - intros i' item Hitem Hlt Hnot.
    destruct (decide (i' = nextIndex p)) as [->|Hne].
    + exfalso. apply Hnot. exists (length (workers p)). unfold claimed. rewrite Hitem.
      eexists. apply lookup_snoc_Some. right. split; reflexivity.
    + apply (inv_settled _ _ _ Inv); [exact Hitem | lia |].
      intros Hold. apply Hnot. exact (Hkeep i' Hold).
  - intros j' H. apply lookup_snoc_Some in H.
    destruct H as [(_ & H) | (_ & Hw)].
    + pose proof (inv_returned _ _ _ Inv j' H). lia.
    + apply claimed_returned in Hw. lia.
Qed.

Lemma spawn_inv (workerCount : nat) (p : Pool Card) :
  PoolInv fetched items p -> PoolInv fetched items (spawn items workerCount p).
Proof.
  revert p. induction workerCount as [|n IH]; intros p Inv; [exact Inv|].
  cbn [spawn claim nextIndex poolResults workers]. apply IH.
  exact (append_inv p Inv).
Qed.

Lemma initial_inv :
  PoolInv fetched items
    {| nextIndex := 0; poolResults := replicate (length items) None; workers := [] |}.
Proof.
  constructor; cbn [nextIndex poolResults workers].
  - apply length_replicate.
  - intros j i identifier H. rewrite lookup_nil in H. discriminate.
  - intros j j' i identifier identifier' H. rewrite lookup_nil in H. discriminate.
  - intros i _ Hrange. apply lookup_replicate_2. exact Hrange.
  - intros i item _ Hlt. lia.
  - intros j H. rewrite lookup_nil in H. discriminate.
Qed.

Lemma run_inv (schedule : list nat) (p : Pool Card) :
  PoolInv fetched items p ->
  PoolInv fetched items (fold_left (resume fetched items) schedule p).
Proof.
  revert p. induction schedule as [|j schedule IH]; intros p Inv; [exact Inv|].
  cbn [fold_left]. apply IH. apply resume_inv. exact Inv.
Qed.

Lemma drain_inv (fuel : nat) (p : Pool Card) :
  PoolInv fetched items p -> PoolInv fetched items (drain fetched items fuel p).
Proof.
  revert p. induction fuel as [|fuel IH]; intros p Inv; [exact Inv|].
  cbn [drain]. destruct (firstAwaiting (workers p) 0); [|exact Inv].
  apply IH. apply resume_inv. exact Inv.
Qed.

(** *** Progress *)

Lemma countAwaiting_snoc (ws : list Worker) (w : Worker) :
  countAwaiting (ws ++ [w])
  = (countAwaiting ws + match w with Awaiting _ _ => 1 | Returned => 0 end)%nat.
Proof.
  induction ws as [|[i identifier|] ws IH]; cbn [app countAwaiting].
  - destruct w; reflexivity.
  - rewrite IH. reflexivity.
  - exact IH.
Qed.

Lemma countAwaiting_insert (ws : list Worker) (j i : nat) (identifier : string) (w : Worker) :
  ws !! j = Some (Awaiting i identifier) ->
  S (countAwaiting (<[j := w]> ws))
  = (countAwaiting ws + match w with Awaiting _ _ => 1 | Returned => 0 end)%nat.
Proof.
  revert j. induction ws as [|w' ws IH]; intros j H; [rewrite lookup_nil in H; discriminate|].
  destruct j as [|j].
  - inversion H; subst. destruct w; cbn; lia.
  - change (<[S j := w]> (w' :: ws)) with (w' :: <[j := w]> ws).
    specialize (IH j H). destruct w', w; cbn [countAwaiting] in *; lia.
Qed.

Lemma stepsLeft_append (p : Pool Card) :
  stepsLeft items {| nextIndex := S (nextIndex p); poolResults := poolResults p;
                     workers := workers p ++ [claimed items (nextIndex p)] |}
  = stepsLeft items p.
Proof.
  unfold stepsLeft; cbn [nextIndex workers]. rewrite countAwaiting_snoc.
  destruct (claimed items (nextIndex p)) as [i identifier|] eqn:E.
  - apply claimed_awaiting in E. destruct E as (_ & item & Hitem & _).
    apply lookup_lt_Some in Hitem. lia.
  - apply claimed_returned in E. lia.
Qed.

Lemma stepsLeft_spawn (workerCount : nat) (p : Pool Card) :
  stepsLeft items (spawn items workerCount p) = stepsLeft items p.
Proof.
  revert p. induction workerCount as [|n IH]; intros p; [reflexivity|].
  cbn [spawn claim nextIndex poolResults workers]. rewrite IH. apply stepsLeft_append.
Qed.

Lemma stepsLeft_resume (p : Pool Card) (j i : nat) (identifier : string) :
  workers p !! j = Some (Awaiting i identifier) ->
  S (stepsLeft items (resume fetched items p j)) = stepsLeft items p.
Proof.
  intros Hj. rewrite (resume_eq p j i identifier Hj).
  unfold stepsLeft; cbn [nextIndex workers].
  pose proof (countAwaiting_insert (workers p) j i identifier (claimed items (nextIndex p)) Hj) as Hc.
  destruct (claimed items (nextIndex p)) as [i' identifier'|] eqn:E.
  - apply claimed_awaiting in E. destruct E as (_ & item & Hitem & _).
    apply lookup_lt_Some in Hitem. lia.
  - apply claimed_returned in E. lia.
Qed.

Lemma stepsLeft_resume_le (p : Pool Card) (j : nat) :
  (stepsLeft items (resume fetched items p j) <= stepsLeft items p)%nat.
Proof.
  destruct (workers p !! j) as [[i identifier|]|] eqn:Hj.
  - pose proof (stepsLeft_resume p j i identifier Hj). lia.
  - rewrite resume_skip; [lia|]. intros i identifier. congruence.
  - rewrite resume_skip; [lia|]. intros i identifier. congruence.
Qed.

Lemma stepsLeft_run (schedule : list nat) (p : Pool Card) :
  (stepsLeft items (fold_left (resume fetched items) schedule p) <= stepsLeft items p)%nat.
Proof.
  revert p. induction schedule as [|j schedule IH]; intros p; cbn [fold_left]; [lia|].
  specialize (IH (resume fetched items p j)). pose proof (stepsLeft_resume_le p j). lia.
Qed.

Lemma firstAwaiting_Some (ws : list Worker) (k j : nat) :
  firstAwaiting ws k = Some j ->
  exists i identifier, (k <= j)%nat /\ ws !! (j - k)%nat = Some (Awaiting i identifier).
Proof.
  revert k. induction ws as [|[i identifier|] ws IH]; intros k H; cbn [firstAwaiting] in H.
  - discriminate.
  - inversion H; subst. exists i, identifier. split; [lia|].
    replace (j - j)%nat with 0%nat by lia. reflexivity.
  - destruct (IH (S k) H) as (i & identifier & Hle & Hl).
    exists i, identifier. split; [lia|].
    replace (j - k)%nat with (S (j - S k)) by lia. exact Hl.
Qed.

Lemma firstAwaiting_None (ws : list Worker) (k : nat) :
  firstAwaiting ws k = None <-> forall j w, ws !! j = Some w -> w = Returned.
Proof.
  revert k. induction ws as [|[i identifier|] ws IH]; intros k; cbn [firstAwaiting].
  - split; [|reflexivity]. intros _ j w H. rewrite lookup_nil in H. discriminate.
  - split; [discriminate|]. intros H. specialize (H 0%nat _ eq_refl). discriminate.
  - rewrite IH. split; intros H j w Hj.
    + destruct j as [|j]; [inversion Hj; reflexivity | exact (H j w Hj)].
    + exact (H (S j) w Hj).
Qed.

Lemma countAwaiting_zero (ws : list Worker) (k : nat) :
  countAwaiting ws = 0%nat -> firstAwaiting ws k = None.
Proof.
  revert k. induction ws as [|[i identifier|] ws IH]; intros k H; cbn in H |- *.
  - reflexivity.
  - discriminate.
  - apply IH. exact H.
Qed.

(** With as much fuel as there are steps left, every worker has returned. *)
Lemma drain_returns (fuel : nat) (p : Pool Card) :
  (stepsLeft items p <= fuel)%nat ->
  firstAwaiting (workers (drain fetched items fuel p)) 0 = None.
Proof.
  revert p. induction fuel as [|fuel IH]; intros p Hfuel; cbn [drain].
  - apply countAwaiting_zero. unfold stepsLeft in Hfuel. lia.
  - destruct (firstAwaiting (workers p) 0) as [j|] eqn:E; [|exact E].
    apply IH. destruct (firstAwaiting_Some _ _ _ E) as (i & identifier & _ & Hj).
    replace (j - 0)%nat with j in Hj by lia.
    pose proof (stepsLeft_resume p j i identifier Hj). lia.
Qed.

Lemma workers_resume (p : Pool Card) (j : nat) :
  length (workers (resume fetched items p j)) = length (workers p).
Proof.
  destruct (workers p !! j) as [[i identifier|]|] eqn:Hj.
  - rewrite (resume_eq p j i identifier Hj). cbn [workers]. apply length_insert.
  - rewrite resume_skip; [reflexivity|]. intros i identifier. congruence.
  - rewrite resume_skip; [reflexivity|]. intros i identifier. congruence.
Qed.

Lemma workers_run (schedule : list nat) (p : Pool Card) :
  length (workers (fold_left (resume fetched items) schedule p)) = length (workers p).
Proof.
  revert p. induction schedule as [|j schedule IH]; intros p; cbn [fold_left]; [reflexivity|].
  rewrite IH. apply workers_resume.
Qed.

Lemma workers_drain (fuel : nat) (p : Pool Card) :
  length (workers (drain fetched items fuel p)) = length (workers p).
Proof.
  revert p. induction fuel as [|fuel IH]; intros p; cbn [drain]; [reflexivity|].
  destruct (firstAwaiting (workers p) 0); [|reflexivity].
  rewrite IH. apply workers_resume.
Qed.

Lemma workers_spawn (workerCount : nat) (p : Pool Card) :
  length (workers (spawn items workerCount p)) = (length (workers p) + workerCount)%nat.
Proof.
  revert p. induction workerCount as [|n IH]; intros p; cbn [spawn claim nextIndex poolResults workers].
  - lia.
  - rewrite IH. cbn [workers]. rewrite length_app. cbn [length]. lia.
Qed.

(** Once every worker has returned, the result slots hold the outcomes of
    the fetches, in the order of the input. *)
Lemma returned_results (p : Pool Card) :
  PoolInv fetched items p ->
  (0 < length (workers p))%nat ->
  firstAwaiting (workers p) 0 = None ->
  poolResults p = outcomes fetched items.
Proof.
  intros Inv Hw Hdone.
  pose proof (proj1 (firstAwaiting_None _ _) Hdone) as Hall.
  destruct (lookup_lt_is_Some_2 (workers p) 0%nat Hw) as [w0 Hw0].
  pose proof (Hall _ _ Hw0) as ->.
  pose proof (inv_returned _ _ _ Inv _ Hw0) as Hpast.
  apply list_eq. intros i. unfold outcomes. rewrite list_lookup_imap.
  destruct (items !! i) as [item|] eqn:Hitem; cbn [fmap option_fmap option_map].
  - apply (inv_settled _ _ _ Inv); [exact Hitem | |].
    + apply lookup_lt_Some in Hitem. lia.
    + intros (j & identifier & Hj). specialize (Hall _ _ Hj). discriminate.
  - apply lookup_ge_None_2. rewrite (inv_length _ _ _ Inv).
    apply lookup_ge_None_1. exact Hitem.
Qed.

Lemma runPool_results (schedule : list nat) :
  items <> [] ->
  poolResults (runPool fetched schedule items) = outcomes fetched items /\
  firstAwaiting (workers (runPool fetched schedule items)) 0 = None.
Proof.
  intros Hne. unfold runPool.
  set (start := startPool items).
  assert (Inv : PoolInv fetched items start) by (apply spawn_inv, initial_inv).
  assert (Hsteps : (stepsLeft items start <= length items)%nat).
  { subst start. unfold startPool. rewrite stepsLeft_spawn.
    unfold stepsLeft; cbn [nextIndex workers countAwaiting]. lia. }
  assert (Hworkers : (0 < length (workers start))%nat).
  { subst start. unfold startPool. rewrite workers_spawn. cbn [workers length].
    destruct items; [contradiction|]. unfold DETAIL_CONCURRENCY. cbn [length]. lia. }
  assert (Hdone : firstAwaiting
            (workers (drain fetched items (length items)
                        (fold_left (resume fetched items) schedule start))) 0 = None).
  { apply drain_returns. pose proof (stepsLeft_run schedule start). lia. }
  split; [|exact Hdone].
  apply returned_results.
  - apply drain_inv, run_inv, Inv.
  - rewrite workers_drain, workers_run. exact Hworkers.
  - exact Hdone.
Qed.
End BatchProofs.

Lemma batch_outcomes {Card : Type} (fetched : nat -> string -> option Card)
  (schedule : list nat) (items : list PokeApiListItem) :
  fetchPokemonDetailsBatch fetched schedule items = omap id (outcomes fetched items).
Proof.
  unfold fetchPokemonDetailsBatch. destruct items as [|item items]; [reflexivity|].
  destruct (runPool_results fetched (item :: items) schedule) as [-> _]; [discriminate|].
  reflexivity.
Qed.

Lemma omap_id_length {A : Type} (l : list (option A)) :
  (length (omap id l) <= length l)%nat.
Proof.
  induction l as [|[x|] l IH]; cbn [omap list_omap id length]; [lia | cbn; lia | lia].
Qed.

(** C2. The batch fetcher returns, for every schedule of the settlements,
    the cards of exactly those items whose own fetch resolved, in the order
    of the input; an item whose fetch rejected is left out and the call
    still completes, every worker having returned, so at most as many cards
    as items come back.  With ten items of which those at indices 3 and 7
    fail, the result is the eight other cards in their input order. *)
Theorem batch_partial_success {Card : Type} (fetched : nat -> string -> option Card)
  (schedule : list nat) (items : list PokeApiListItem) :
  fetchPokemonDetailsBatch fetched schedule items
  = omap id (imap (fun i item => fetched i (item_name item)) items) /\
  (length (fetchPokemonDetailsBatch fetched schedule items) <= length items)%nat /\
  (items <> [] -> firstAwaiting (workers (runPool fetched schedule items)) 0 = None) /\
  (forall card : nat -> Card,
     length items = 10%nat ->
     (forall i item, items !! i = Some item ->
        fetched i (item_name item)
        = if (i =? 3)%nat || (i =? 7)%nat then None else Some (card i)) ->
     fetchPokemonDetailsBatch fetched schedule items
     = map card [0; 1; 2; 4; 5; 6; 8; 9]%nat).
Proof.
  pose proof (batch_outcomes fetched schedule items) as Hout. unfold outcomes in Hout.
  split; [exact Hout|]. split; [|split].
  - rewrite Hout. etransitivity; [apply omap_id_length|]. rewrite length_imap. lia.
  - intros Hne. exact (proj2 (runPool_results fetched items schedule Hne)).
  - intros card Hten Hfetched. rewrite Hout.
    do 10 (destruct items as [|? items]; [discriminate Hten|]).
    destruct items; [|discriminate Hten].
    cbn [imap compose].
    rewrite !(fun i item H => Hfetched i item H) by reflexivity.
    reflexivity.
Qed.

Lemma batch_partial_success_witness :
  fetchPokemonDetailsBatch failingAt3And7 [5; 4; 3; 2; 1; 0; 0; 3; 9]%nat tenItems
  = ["bulbasaur"; "ivysaur"; "venusaur"; "charmeleon"; "charizard"; "squirtle";
     "blastoise"; "caterpie"].
Proof.
  destruct (batch_partial_success failingAt3And7 [5; 4; 3; 2; 1; 0; 0; 3; 9]%nat tenItems)
    as (_ & _ & _ & H).
  rewrite (H (fun i => default "" (item_name <$> tenItems !! i))).
  - reflexivity.
  - reflexivity.
  - intros i item Hi.
    do 10 (destruct i as [|i]; [inversion Hi; subst item; reflexivity|]).
    discriminate Hi.
Defined.

(** ** The strip-empty pass *)

(** Induction on a value, with the hypothesis on every element of an array
    and on every member of an object. *)
Lemma value_ind_nested (P : value -> Prop) :
  P VUndefined -> P VNull -> (forall b, P (VBool b)) -> (forall n, P (VNum n)) ->
  (forall s, P (VStr s)) ->
  (forall elems,
     Forall (fun e => match e with Some x => P x | None => True end) elems ->
     P (VArr elems)) ->
  (forall fields, Forall (fun kv => P (snd kv)) fields -> P (VObj fields)) ->
  forall v, P v.
Proof.
  intros HU HN HB HZ HS HA HO.
  fix IH 1. intros [ | | b | n | s | elems | fields ].
  - exact HU.
  - exact HN.
  - apply HB.
  - apply HZ.
  - apply HS.
  - apply HA. induction elems as [|[x|] elems IHe]; constructor; auto.
  - apply HO. induction fields as [|[k x] fields IHf]; constructor; auto.
Qed.

Lemma stripEmpty_shape (v : value) :
  match v with
  | VArr _ => exists elems, stripEmpty v = VArr elems
  | VObj _ => exists fields, stripEmpty v = VObj fields
  | _ => stripEmpty v = v
  end.
Proof. destruct v; cbn [stripEmpty]; eauto. Qed.

Lemma stripItem_twice (x : value) :
  stripEmpty (stripEmpty x) = stripEmpty x ->
  stripItem stripEmpty (stripItem stripEmpty x) = stripItem stripEmpty x.
Proof.
  intros H. destruct x; cbn [stripItem stripEmpty] in *; try reflexivity; exact H.
Qed.

Lemma mapFilterDense_fixed {A : Type} (f : A -> A) (keep : A -> bool)
  (elems : list (option A)) :
  Forall (fun e => match e with Some x => f (f x) = f x | None => True end) elems ->
  mapFilterDense f keep (map Some (mapFilterDense f keep elems))
  = mapFilterDense f keep elems.
Proof.
  induction 1 as [|[x|] elems Hx _ IH]; cbn [mapFilterDense map].
  - reflexivity.
  - destruct (keep (f x)) eqn:K; [|exact IH].
    cbn [mapFilterDense map]. rewrite Hx, K, IH. reflexivity.
  - exact IH.
Qed.

Lemma rewriteFields_fixed (slot : value -> option value) (fields : list (string * value)) :
  Forall (fun kv => forall v', slot (snd kv) = Some v' -> slot v' = Some v') fields ->
  rewriteFields slot (rewriteFields slot fields) = rewriteFields slot fields.
Proof.
  induction 1 as [|[k x] fields Hx _ IH]; cbn [rewriteFields]; [reflexivity|].
  cbn [snd] in Hx. destruct (slot x) as [v'|] eqn:E; [|exact IH].
  cbn [rewriteFields]. rewrite (Hx v' eq_refl), IH. reflexivity.
Qed.

Lemma rewriteElems_fixed (slot : value -> option value) (elems : list (option value)) :
  Forall (fun e => match e with
                   | Some x => forall v', slot x = Some v' -> slot v' = Some v'
                   | None => True
                   end) elems ->
  rewriteElems slot (rewriteElems slot elems) = rewriteElems slot elems.
Proof.
  induction 1 as [|[x|] elems Hx _ IH]; cbn [rewriteElems]; [reflexivity| |].
  - destruct (slot x) as [v'|] eqn:E; cbn [rewriteElems]; rewrite IH; [|reflexivity].
    rewrite (Hx v' eq_refl). reflexivity.
  - rewrite IH. reflexivity.
Qed.

(** What [stripEmpty] leaves under a key is left unchanged by a second
    pass, and so is the stripped value as a whole. *)
Lemma stripEmpty_stable (v : value) :
  (forall v', stripSlot stripEmpty v = Some v' -> stripSlot stripEmpty v' = Some v') /\
  stripEmpty (stripEmpty v) = stripEmpty v.
Proof.
  induction v as [ | | b | n | s | elems IH | fields IH ] using value_ind_nested;
    try (split; [|reflexivity]; cbn [stripSlot]; intros v' H;
         match type of H with
         | (if ?c then _ else _) = _ => destruct c eqn:E; inversion H; subst
         | _ => discriminate H
         end; cbn [stripSlot]; rewrite ?E; reflexivity).
  - (* arrays *)
    split.
    + intros v' H.
      assert (Hfixed : mapFilterDense (stripItem stripEmpty) (fun y => negb (isEmptyValue y))
                (map Some (mapFilterDense (stripItem stripEmpty)
                             (fun y => negb (isEmptyValue y)) elems))
              = mapFilterDense (stripItem stripEmpty) (fun y => negb (isEmptyValue y)) elems).
      { apply mapFilterDense_fixed.
        eapply Forall_impl; [exact IH|]. intros [x|] Hx; [|exact I].
        apply stripItem_twice. exact (proj2 Hx). }
      unfold stripSlot in H.
      remember (mapFilterDense (stripItem stripEmpty) (fun y => negb (isEmptyValue y)) elems)
        as kept eqn:E.
      destruct kept as [|y kept]; [discriminate|].
      inversion H; subst v'. unfold stripSlot.
      change (Some y :: map Some kept) with (map Some (y :: kept)).
      rewrite Hfixed. reflexivity.
    + cbn [stripEmpty]. f_equal. apply rewriteElems_fixed.
      eapply Forall_impl; [exact IH|]. intros [x|] Hx; [|exact I]. exact (proj1 Hx).
  - (* objects *)
    assert (Hfix : stripEmpty (stripEmpty (VObj fields)) = stripEmpty (VObj fields)).
    { cbn [stripEmpty]. f_equal. apply rewriteFields_fixed.
      eapply Forall_impl; [exact IH|]. intros [k x] Hx. exact (proj1 Hx). }
    split; [|exact Hfix].
    intros v' H. unfold stripSlot in H. cbv zeta in H.
    destruct (stripEmpty_shape (VObj fields)) as [fields' Hshape].
    rewrite Hshape in H, Hfix.
    destruct (isEmptyValue (VObj fields')) eqn:E; [discriminate|].
    injection H as <-.
    change (stripSlot stripEmpty (VObj fields'))
      with (if isEmptyValue (stripEmpty (VObj fields')) then None
            else Some (stripEmpty (VObj fields'))).
    rewrite Hfix, E. reflexivity.
Qed.

Lemma rewriteFields_filled (slot : value -> option value) (fields : list (string * value)) :
  Forall (fun kv => forall v', slot (snd kv) = Some v' -> filled v' = true) fields ->
  forallb (fun kv => filled (snd kv)) (rewriteFields slot fields) = true.
Proof.
  induction 1 as [|[k x] fields Hx _ IH]; cbn [rewriteFields]; [reflexivity|].
  cbn [snd] in Hx. destruct (slot x) as [v'|] eqn:E; [|exact IH].
  cbn [forallb snd]. rewrite (Hx v' eq_refl), IH. reflexivity.
Qed.

Lemma mapFilterDense_filled (f : value -> value) (elems : list (option value)) :
  Forall (fun e => match e with Some x => noEmpty (f x) = true | None => True end) elems ->
  forallb (fun e => match e with Some x => filled x | None => false end)
          (map Some (mapFilterDense f (fun y => negb (isEmptyValue y)) elems)) = true.
Proof.
  induction 1 as [|[x|] elems Hx _ IH]; cbn [mapFilterDense map forallb]; [reflexivity| |exact IH].
  destruct (negb (isEmptyValue (f x))) eqn:K; [|exact IH].
  cbn [map forallb]. unfold filled at 1. rewrite K, Hx, IH. reflexivity.
Qed.

Lemma noEmpty_filled_fields (fields : list (string * value)) :
  noEmpty (VObj fields) = forallb (fun kv => filled (snd kv)) fields.
Proof. reflexivity. Qed.

Lemma noEmpty_filled_elems (elems : list (option value)) :
  noEmpty (VArr elems)
  = forallb (fun e => match e with Some x => filled x | None => false end) elems.
Proof. reflexivity. Qed.

(** On a flat value, what [stripEmpty] leaves under a key is not empty and
    holds nothing empty; and a stripped object holds nothing empty. *)
Lemma stripEmpty_flat (v : value) :
  flat v = true ->
  (forall v', stripSlot stripEmpty v = Some v' -> filled v' = true) /\
  match v with
  | VObj _ => noEmpty (stripEmpty v) = true
  | _ => True
  end.
Proof.
  induction v as [ | | b | n | s | elems IH | fields IH ] using value_ind_nested; intros Hflat;
    try (split; [|exact I]; cbn [stripSlot]; intros v' H;
         match type of H with
         | (if ?c then _ else _) = _ => destruct c eqn:E; inversion H; subst
         | _ => discriminate H
         end; unfold filled; rewrite E; reflexivity).
  - (* arrays *)
    split; [|exact I]. intros v' H. unfold stripSlot in H.
    remember (mapFilterDense (stripItem stripEmpty) (fun y => negb (isEmptyValue y)) elems)
      as kept eqn:E.
    destruct kept as [|y kept]; [discriminate|].
    injection H as <-.
    change (filled (VArr (map Some (y :: kept))) = true).
    unfold filled. rewrite noEmpty_filled_elems. cbn [map isEmptyValue negb andb].
    change (Some y :: map Some kept) with (map Some (y :: kept)). rewrite E.
    apply mapFilterDense_filled.
    clear E. cbn [flat] in Hflat.
    induction IH as [|[x|] elems Hx _ IHe]; constructor.
    + cbn [forallb] in Hflat. apply andb_true_iff in Hflat. destruct Hflat as [Hx' _].
      destruct x; cbn [stripItem noEmpty]; try reflexivity; [discriminate Hx'|].
      exact (proj2 (Hx Hx')).
    + apply IHe. cbn [forallb] in Hflat. apply andb_true_iff in Hflat. tauto.
    + exact I.
    + apply IHe. cbn [forallb] in Hflat. apply andb_true_iff in Hflat. tauto.
  - (* objects *)
    assert (Hclean : noEmpty (stripEmpty (VObj fields)) = true).
    { cbn [stripEmpty]. rewrite noEmpty_filled_fields. apply rewriteFields_filled.
      cbn [flat] in Hflat.
      induction IH as [|[k x] fields Hx _ IHf]; constructor.
      - cbn [forallb snd] in Hflat. apply andb_true_iff in Hflat.
        exact (proj1 (Hx (proj1 Hflat))).
      - apply IHf. cbn [forallb] in Hflat. apply andb_true_iff in Hflat. tauto. }
    split; [|exact Hclean].
    intros v' H. unfold stripSlot in H. cbv zeta in H.
    destruct (isEmptyValue (stripEmpty (VObj fields))) eqn:E; [discriminate|].
    injection H as <-.
    change (filled (stripEmpty (VObj fields)) = true).
    unfold filled. rewrite E, Hclean. reflexivity.
Qed.

Lemma flat_strings (l : list string) : flat (strings l) = true.
Proof. unfold strings. induction l as [|x l IH]; [reflexivity|]. exact IH. Qed.

Lemma flat_optStr (o : option string) : flat (optStr o) = true.
Proof. destruct o; reflexivity. Qed.

Lemma flat_optNum (o : option Z) : flat (optNum o) = true.
Proof. destruct o; reflexivity. Qed.

Lemma flat_objects {A : Type} (f : A -> value) (l : list A) :
  (forall a, flat (f a) = true) ->
  (forall a, match f a with VArr _ => False | _ => True end) ->
  flat (VArr (map (fun a => Some (f a)) l)) = true.
Proof.
  intros Hflat Hobj. induction l as [|a l IH]; [reflexivity|].
  cbn [map flat forallb]. specialize (Hflat a). specialize (Hobj a).
  destruct (f a); try contradiction; cbn [flat forallb] in *; rewrite ?Hflat; exact IH.
Qed.

Lemma flat_attackValue (a : Attack) : flat (attackValue a) = true.
Proof.
  unfold attackValue. cbn [flat]. rewrite forallb_app. cbn [forallb snd].
  rewrite flat_strings. destruct (at_text a); reflexivity.
Qed.

Lemma flat_moveValue (m : PokemonMoveSummary) : flat (moveValue m) = true.
Proof.
  unfold moveValue. cbn [flat forallb snd]. rewrite flat_optNum, !flat_optStr. reflexivity.
Qed.

Lemma flat_optField (cond : bool) (k : string) (v : value) :
  flat v = true -> forallb (fun kv => flat (snd kv)) (optField cond k v) = true.
Proof. intros H. destruct cond; cbn [optField forallb snd]; rewrite ?H; reflexivity. Qed.

Lemma candidateCard_flat (pokemon : PokeApiPokemon) : flat (candidateCard pokemon) = true.
Proof.
  unfold candidateCard. cbv zeta. cbn [flat]. rewrite !forallb_app.
  repeat (apply andb_true_intro; split);
    try (apply flat_optField);
    try reflexivity;
    try apply flat_strings;
    try apply flat_optStr;
    try (apply flat_objects; intros a; first [exact I | apply flat_attackValue | apply flat_moveValue | reflexivity]).
Qed.

(** C1. For every raw detail record, the entity that [mapPokemonToCard]
    returns has no attribute and no array element, at any depth, that is
    null, undefined, the empty string, an empty array or an empty object.
    The pass [stripEmpty] is idempotent: applied to the entity it returned,
    and indeed to any value it has already stripped, it changes nothing. *)
Theorem normalized_card_has_no_empty_attribute :
  (forall pokemon : PokeApiPokemon, noEmpty (mapPokemonToCard pokemon) = true) /\
  (forall pokemon : PokeApiPokemon,
     stripEmpty (mapPokemonToCard pokemon) = mapPokemonToCard pokemon) /\
  (forall obj : value, stripEmpty (stripEmpty obj) = stripEmpty obj).
Proof.
  split; [|split].
  - intros pokemon. unfold mapPokemonToCard.
    pose proof (stripEmpty_flat (candidateCard pokemon) (candidateCard_flat pokemon)) as [_ H].
    exact H.
  - intros pokemon. unfold mapPokemonToCard. apply stripEmpty_stable.
  - intros obj. apply stripEmpty_stable.
Qed.

(** ** Search *)

Lemma startsWith_prefix (p s : string) :
  Js.startsWith p s = true <-> exists after, s = p +:+ after.
Proof.
  revert s. induction p as [|a p IH]; intros s; cbn [Js.startsWith].
  - split; [intros _; exists s; reflexivity | reflexivity].
  - destruct s as [|b s].
    + split; [discriminate | intros [after H]; discriminate H].
    + rewrite andb_true_iff, Ascii.eqb_eq, IH. split.
      * intros [-> [after ->]]. exists after. reflexivity.
      * intros [after H]. cbn in H. injection H as -> ->. split; [reflexivity | eauto].
Qed.

(** [includes] is the substring test. *)
Lemma includes_substring (s needle : string) :
  Js.includes s needle = true <-> exists before after, s = before +:+ needle +:+ after.
Proof.
  induction s as [|c s IH].
  - cbn [Js.includes]. rewrite orb_false_r, startsWith_prefix. split.
    + intros [after H]. exists "", after. exact H.
    + intros (before & after & H). destruct before; [|discriminate H]. exists after. exact H.
  - cbn [Js.includes]. rewrite orb_true_iff, startsWith_prefix, IH. split.
    + intros [[after H] | (before & after & H)].
      * exists "", after. exact H.
      * exists (String c before), after. cbn. rewrite H. reflexivity.
    + intros (before & after & H). destruct before as [|c' before].
      * left. exists after. exact H.
      * right. cbn in H. injection H as -> H. exists before, after. exact H.
Qed.

Lemma includes_self (s : string) : Js.includes s s = true.
Proof.
  apply includes_substring. exists "", "". change (s = s +:+ "").
  induction s as [|c s IH]; [reflexivity|].
  change (String c s = String c (s +:+ "")). f_equal. exact IH.
Qed.

Lemma matchesQuery_includes (normalized : string) (pokemon : PokeApiListItem) :
  matchesQuery normalized pokemon = Js.includes (item_name pokemon) normalized.
Proof.
  unfold matchesQuery. destruct (String.eqb_spec (item_name pokemon) normalized) as [E|_].
  - rewrite E, includes_self. reflexivity.
  - apply orb_false_r.
Qed.

Section ArraySortFacts.
Context {A : Type}.
Variable compare : A -> A -> option Z.

Lemma insertSorted_perm (x : A) (l : list A) :
  Permutation (insertSorted compare x l) (x :: l).
Proof.
  induction l as [|y l IH]; cbn [insertSorted]; [reflexivity|].
  destruct (0 <? default 0 (compare x y)); [|reflexivity].
  rewrite IH. apply perm_swap.
Qed.

Lemma arraySort_perm (l : list A) : Permutation (arraySort compare l) l.
Proof.
  induction l as [|x l IH]; cbn [arraySort]; [reflexivity|].
  rewrite insertSorted_perm, IH. reflexivity.
Qed.

Hypothesis compare_total : forall x y, 0 < default 0 (compare x y) -> notAfter compare y x.

Lemma insertSorted_sorted (x : A) (l : list A) :
  Sorted (notAfter compare) l -> Sorted (notAfter compare) (insertSorted compare x l).
Proof.
  induction 1 as [|y l Hl IH Hhd]; cbn [insertSorted].
  - repeat constructor.
  - destruct (Z.ltb_spec 0 (default 0 (compare x y))) as [Hgt|Hle].
    + constructor; [exact IH|].
      destruct l as [|z l]; cbn [insertSorted].
      * constructor. apply compare_total. exact Hgt.
      * destruct (0 <? default 0 (compare x z)).
        -- constructor. inversion Hhd; assumption.
        -- constructor. apply compare_total. exact Hgt.
    + constructor; [constructor; assumption|]. constructor. exact Hle.
Qed.

Lemma arraySort_sorted (l : list A) : Sorted (notAfter compare) (arraySort compare l).
Proof.
  induction l as [|x l IH]; cbn [arraySort]; [constructor|].
  apply insertSorted_sorted. exact IH.
Qed.
End ArraySortFacts.

(** ** The batch fetcher on the state of the module *)

Lemma fetchPokemonById_halves (net : Network) (id : string) (s : Service) :
  fetchPokemonById net id s
  = fetchPokemonById_settle net id (fst (fetchPokemonById_call id s))
                            (snd (fetchPokemonById_call id s)).
Proof.
  unfold fetchPokemonById, fetchPokemonById_call, fetchPokemonById_settle.
  destruct (pokemonCache s !! Js.toLowerCase id); [reflexivity|]. cbn [fst snd].
  destruct (answerPokemon net (length (requestLog s)) (Js.toLowerCase id)); reflexivity.
Qed.

Lemma detailsOnly_refl (s : Service) : detailsOnly s s.
Proof.
  split; [reflexivity|]. split; [reflexivity|].
  exists []. split; [rewrite app_nil_r; reflexivity | reflexivity].
Qed.

Lemma detailsOnly_trans (a b c : Service) : detailsOnly a b -> detailsOnly b c -> detailsOnly a c.
Proof.
  intros (Hc1 & Hp1 & d1 & Hl1 & Hd1) (Hc2 & Hp2 & d2 & Hl2 & Hd2).
  split; [congruence|]. split; [congruence|].
  exists (d1 ++ d2). split.
  - rewrite Hl2, Hl1, <- app_assoc. reflexivity.
  - rewrite forallb_app, Hd1, Hd2. reflexivity.
Qed.

Lemma detailsOnly_call (id : string) (s : Service) :
  detailsOnly s (snd (fetchPokemonById_call id s)).
Proof.
  unfold fetchPokemonById_call. cbv zeta.
  destruct (pokemonCache s !! Js.toLowerCase id); cbn [snd]; [apply detailsOnly_refl|].
  split; [reflexivity|]. split; [reflexivity|].
  exists [GetPokemon (Js.toLowerCase id)]. split; reflexivity.
Qed.

Lemma detailsOnly_settle (net : Network) (id : string) (fetch : DetailHandle) (s : Service) :
  detailsOnly s (snd (fetchPokemonById_settle net id fetch s)).
Proof.
  unfold fetchPokemonById_settle.
  destruct fetch as [cached|request]; cbn [snd]; [apply detailsOnly_refl|].
  destruct (answerPokemon net request (Js.toLowerCase id)); cbn [snd]; [|apply detailsOnly_refl].
  split; [reflexivity|]. split; [reflexivity|].
  exists []. split; [rewrite app_nil_r; reflexivity | reflexivity].
Qed.

Lemma detailsOnly_claimed (items : list PokeApiListItem) (n : nat) (s : Service) :
  detailsOnly s (claimedService items n s).
Proof.
  unfold claimedService. destruct (items !! n); [apply detailsOnly_call | apply detailsOnly_refl].
Qed.

Lemma fetchedBetween_later (net : Network) (s a b : Service) (id : string)
  (outcome : option value) :
  fetchedBetween net s a id outcome -> detailsOnly a b -> fetchedBetween net s b id outcome.
Proof.
  intros (called & settled & H1 & H2 & H3 & H4) Hab.
  exists called, settled. split; [exact H1|]. split; [exact H2|].
  split; [exact (detailsOnly_trans _ _ _ H3 Hab) | exact H4].
Qed.

Lemma live_claim (items : list PokeApiListItem) (p : Live.Pool) :
  Live.claim items p
  = (claimedWorker items (Live.nextIndex p) (Live.service p),
     {| Live.service := claimedService items (Live.nextIndex p) (Live.service p);
        Live.nextIndex := S (Live.nextIndex p);
        Live.poolResults := Live.poolResults p; Live.workers := Live.workers p |}).
Proof.
  unfold Live.claim, claimedWorker, claimedService. cbv zeta.
  destruct (items !! Live.nextIndex p) as [item|]; [|reflexivity].
  destruct (fetchPokemonById_call (item_name item) (Live.service p)); reflexivity.
Qed.

Lemma live_resume (net : Network) (items : list PokeApiListItem) (p : Live.Pool) (j i : nat)
  (identifier : string) (fetch : DetailHandle) :
  Live.workers p !! j = Some (Live.Awaiting i identifier fetch) ->
  let settled := fetchPokemonById_settle net identifier fetch (Live.service p) in
  Live.resume net items p j
  = {| Live.service := claimedService items (Live.nextIndex p) (snd settled);
       Live.nextIndex := S (Live.nextIndex p);
       Live.poolResults := match resolved (fst settled) with
                           | Some card => <[i := Some card]> (Live.poolResults p)
                           | None => Live.poolResults p
                           end;
       Live.workers := <[j := claimedWorker items (Live.nextIndex p) (snd settled)]>
                         (Live.workers p) |}.
Proof.
  intros Hj settled. unfold Live.resume. rewrite Hj. fold settled.
  destruct settled as [r s]. rewrite live_claim. cbn [fst snd Live.service Live.nextIndex
    Live.poolResults Live.workers]. destruct r; reflexivity.
Qed.

Lemma live_resume_skip (net : Network) (items : list PokeApiListItem) (p : Live.Pool) (j : nat) :
  (forall i identifier fetch, Live.workers p !! j <> Some (Live.Awaiting i identifier fetch)) ->
  Live.resume net items p j = p.
Proof.
  intros H. unfold Live.resume.
  destruct (Live.workers p !! j) as [[i identifier fetch|]|] eqn:E; try reflexivity.
  exfalso. exact (H i identifier fetch eq_refl).
Qed.

Lemma erase_claimed (items : list PokeApiListItem) (n : nat) (s : Service) :
  eraseWorker (claimedWorker items n s) = claimed items n.
Proof. unfold claimedWorker, claimed. destruct (items !! n); reflexivity. Qed.

Lemma erase_lookup (p : Live.Pool) (j : nat) :
  workers (erase p) !! j = eraseWorker <$> Live.workers p !! j.
Proof. cbn [erase workers]. apply list_lookup_fmap. Qed.

Lemma erase_awaiting (p : Live.Pool) (j i : nat) (identifier : string) :
  workers (erase p) !! j = Some (Awaiting i identifier) ->
  exists fetch, Live.workers p !! j = Some (Live.Awaiting i identifier fetch).
Proof.
  rewrite erase_lookup. destruct (Live.workers p !! j) as [[i' identifier' fetch|]|];
    cbn; intros H; inversion H; subst. eauto.
Qed.

Lemma erase_firstAwaiting (ws : list Live.Worker) (k : nat) :
  firstAwaiting (eraseWorker <$> ws) k = Live.firstAwaiting ws k.
Proof.
  revert k. induction ws as [|[i identifier fetch|] ws IH]; intros k; cbn; [reflexivity..|].
  apply IH.
Qed.

Lemma erase_resume (net : Network) (items : list PokeApiListItem)
  (outcomes : nat -> string -> option value) (p : Live.Pool) (j i : nat)
  (identifier : string) (fetch : DetailHandle) :
  Live.workers p !! j = Some (Live.Awaiting i identifier fetch) ->
  outcomes i identifier
  = resolved (fst (fetchPokemonById_settle net identifier fetch (Live.service p))) ->
  erase (Live.resume net items p j) = resume outcomes items (erase p) j.
Proof.
  intros Hj Hout. rewrite (live_resume net items p j i identifier fetch Hj). cbv zeta.
  assert (Hj' : workers (erase p) !! j = Some (Awaiting i identifier)).
  { rewrite erase_lookup, Hj. reflexivity. }
  rewrite (resume_eq outcomes items (erase p) j i identifier Hj'), Hout.
  unfold erase at 1. cbn [Live.nextIndex Live.poolResults Live.workers].
  cbn [erase nextIndex poolResults workers].
  rewrite list_fmap_insert, erase_claimed. reflexivity.
Qed.

Lemma PoolInv_outcomes {Card : Type} (f g : nat -> string -> option Card)
  (items : list PokeApiListItem) (p : Pool Card) :
  (forall i identifier, ~ awaited (workers p) i -> g i identifier = f i identifier) ->
  PoolInv f items p -> PoolInv g items p.
Proof.
  intros Hsame Inv. constructor.
  - exact (inv_length _ _ _ Inv).
  - exact (inv_claimed _ _ _ Inv).
  - exact (inv_distinct _ _ _ Inv).
  - exact (inv_unsettled _ _ _ Inv).
  - intros i item Hitem Hlt Hnot. rewrite (Hsame i (item_name item) Hnot).
    exact (inv_settled _ _ _ Inv i item Hitem Hlt Hnot).
  - exact (inv_returned _ _ _ Inv).
Qed.

Section LiveProofs.
Variable net : Network.
Variable items : list PokeApiListItem.
Variable s0 : Service.

Lemma live_append_inv (outcomes : nat -> string -> option value) (p : Live.Pool) :
  LiveInv net items s0 outcomes p ->
  LiveInv net items s0 outcomes
    {| Live.service := claimedService items (Live.nextIndex p) (Live.service p);
       Live.nextIndex := S (Live.nextIndex p);
       Live.poolResults := Live.poolResults p;
       Live.workers := Live.workers p
                       ++ [claimedWorker items (Live.nextIndex p) (Live.service p)] |}.
Proof.
  intros Inv. set (n := Live.nextIndex p). set (s := Live.service p).
  assert (Hgrow : detailsOnly s (claimedService items n s)) by apply detailsOnly_claimed.
  constructor; cbn [Live.service Live.nextIndex Live.poolResults Live.workers].
  - unfold erase. cbn [Live.nextIndex Live.poolResults Live.workers].
    rewrite fmap_app. cbn [fmap list_fmap]. rewrite erase_claimed.
    exact (append_inv outcomes items (erase p) (live_pool _ _ _ _ _ Inv)).
  - exact (detailsOnly_trans _ _ _ (live_grows _ _ _ _ _ Inv) Hgrow).
  - intros j i identifier fetch Hj.
    apply lookup_app_Some in Hj. destruct Hj as [Hold|[Hlen Hnew]].
    + destruct (live_fetches _ _ _ _ _ Inv j i identifier fetch Hold) as (called & H1 & H2 & H3).
      exists called. split; [exact H1|]. split; [exact H2|].
      exact (detailsOnly_trans _ _ _ H3 Hgrow).
    + destruct (j - length (Live.workers p))%nat; [|discriminate Hnew].
      cbn in Hnew. unfold claimedWorker in Hnew. unfold claimedService. fold n s in Hnew |- *.
      destruct (items !! n) as [item|]; [|discriminate Hnew].
      inversion Hnew; subst. exists s. split; [exact (live_grows _ _ _ _ _ Inv)|].
      split; [reflexivity | apply detailsOnly_refl].
  - intros i item Hitem.
    destruct (live_settled _ _ _ _ _ Inv i item Hitem) as [Hge|[Haw|Hdone]].
    + fold n in Hge. destruct (Nat.eq_dec i n) as [->|Hne]; [|left; lia].
      right. left. exists (length (Live.workers p)), (item_name item).
      cbn [erase workers Live.workers]. rewrite fmap_app, lookup_app_r by (rewrite length_fmap; lia).
      rewrite length_fmap, Nat.sub_diag. cbn. unfold claimedWorker. rewrite Hitem. reflexivity.
    + right. left. destruct Haw as (j & identifier & Hj). exists j, identifier.
      cbn [erase workers Live.workers] in Hj |- *. rewrite fmap_app.
      apply lookup_app_l_Some. exact Hj.
    + right. right. exact (fetchedBetween_later _ _ _ _ _ _ Hdone Hgrow).
Qed.

Lemma live_spawn_inv (outcomes : nat -> string -> option value) (workerCount : nat)
  (p : Live.Pool) :
  LiveInv net items s0 outcomes p ->
  LiveInv net items s0 outcomes (Live.spawn items workerCount p).
Proof.
  revert p. induction workerCount as [|n IH]; intros p Inv; [exact Inv|].
  cbn [Live.spawn]. rewrite live_claim.
  cbn [Live.service Live.nextIndex Live.poolResults Live.workers].
  apply IH. apply live_append_inv. exact Inv.
Qed.

Lemma live_initial_inv (outcomes : nat -> string -> option value) :
  LiveInv net items s0 outcomes
    {| Live.service := s0; Live.nextIndex := 0;
       Live.poolResults := replicate (length items) None; Live.workers := [] |}.
Proof.
  constructor; cbn [Live.service Live.nextIndex Live.poolResults Live.workers].
  - exact (initial_inv outcomes items).
  - apply detailsOnly_refl.
  - intros j i identifier fetch H. rewrite lookup_nil in H. discriminate H.
  - intros i item _. left. lia.
Qed.

Lemma live_resume_inv (p : Live.Pool) (j : nat) :
  (exists outcomes, LiveInv net items s0 outcomes p) ->
  exists outcomes, LiveInv net items s0 outcomes (Live.resume net items p j).
Proof.
  intros [g Inv].
  destruct (Live.workers p !! j) as [[i0 id0 fetch|]|] eqn:Hj;
    [|exists g; rewrite live_resume_skip; [exact Inv | intros; congruence] ..].
  set (settled := fetchPokemonById_settle net id0 fetch (Live.service p)).
  set (g' := fun i identifier => if Nat.eqb i i0 then resolved (fst settled) else g i identifier).
  assert (Hj' : workers (erase p) !! j = Some (Awaiting i0 id0))
    by (rewrite erase_lookup, Hj; reflexivity).
  assert (Haw0 : awaited (workers (erase p)) i0) by (exists j, id0; exact Hj').
  assert (Inv' : PoolInv g' items (erase p)).
  { apply (PoolInv_outcomes g g'); [|exact (live_pool _ _ _ _ _ Inv)].
    intros i identifier Hnot. unfold g'. destruct (Nat.eqb_spec i i0) as [->|_]; [|reflexivity].
    contradiction. }
  assert (Hg0 : g' i0 id0 = resolved (fst settled)) by (unfold g'; rewrite Nat.eqb_refl; reflexivity).
  pose proof (erase_resume net items g' p j i0 id0 fetch Hj Hg0) as Herase.
  destruct (inv_claimed _ _ _ (live_pool _ _ _ _ _ Inv) j i0 id0 Hj')
    as (Hlt0 & item0 & Hitem0 & Hid0).
  destruct (live_fetches _ _ _ _ _ Inv j i0 id0 fetch Hj) as (called0 & Hc1 & Hc2 & Hc3).
  assert (Hsettle : detailsOnly (Live.service p) (snd settled)) by apply detailsOnly_settle.
  set (n := Live.nextIndex p) in *.
  assert (Hclaim : detailsOnly (snd settled) (claimedService items n (snd settled)))
    by apply detailsOnly_claimed.
  assert (Hstep : detailsOnly (Live.service p) (claimedService items n (snd settled)))
    by exact (detailsOnly_trans _ _ _ Hsettle Hclaim).
  exists g'.
  assert (Hform := live_resume net items p j i0 id0 fetch Hj). cbv zeta in Hform.
  fold settled n in Hform.
  constructor.
  - rewrite Herase. apply resume_inv. exact Inv'.
  - rewrite Hform. cbn [Live.service].
    exact (detailsOnly_trans _ _ _ (live_grows _ _ _ _ _ Inv) Hstep).
  - rewrite Hform. cbn [Live.service Live.workers]. intros j' i identifier fetch' Hw.
    destruct (Nat.eq_dec j' j) as [->|Hne].
    + rewrite list_lookup_insert_eq in Hw by (apply lookup_lt_Some in Hj; exact Hj).
      inversion Hw as [Hw']. unfold claimedWorker in Hw'. unfold claimedService.
      destruct (items !! n) as [item|]; [|discriminate Hw'].
      inversion Hw'; subst. exists (snd settled).
      split; [exact (detailsOnly_trans _ _ _ (live_grows _ _ _ _ _ Inv) Hsettle)|].
      split; [reflexivity | apply detailsOnly_refl].
    + rewrite list_lookup_insert_ne in Hw by congruence.
      destruct (live_fetches _ _ _ _ _ Inv j' i identifier fetch' Hw) as (called & H1 & H2 & H3).
      exists called. split; [exact H1|]. split; [exact H2|].
      exact (detailsOnly_trans _ _ _ H3 Hstep).
  - rewrite Hform. cbn [Live.service Live.nextIndex]. intros i item Hitem.
    destruct (Nat.eq_dec i i0) as [->|Hne0].
    + right. right. rewrite Hitem in Hitem0. inversion Hitem0; subst item0.
      rewrite <- Hid0. rewrite Hg0.
      exists called0, (Live.service p). split; [exact Hc1|].
      rewrite <- Hc2. split; [exact Hc3|]. fold settled. split; [exact Hclaim | reflexivity].
    + assert (Hsame : g' i (item_name item) = g i (item_name item)).
      { unfold g'. destruct (Nat.eqb_spec i i0); [contradiction | reflexivity]. }
      rewrite Hsame.
      destruct (live_settled _ _ _ _ _ Inv i item Hitem) as [Hge|[Haw|Hdone]].
      * fold n in Hge. destruct (Nat.eq_dec i n) as [->|Hne]; [|left; lia].
        right. left. exists j, (item_name item).
        cbn [erase workers Live.workers]. rewrite list_lookup_fmap.
        rewrite list_lookup_insert_eq by (apply lookup_lt_Some in Hj; exact Hj).
        cbn. unfold claimedWorker. rewrite Hitem. reflexivity.
      * right. left. destruct Haw as (j' & identifier & Hw). exists j', identifier.
        cbn [erase workers Live.workers] in Hw |- *. rewrite list_lookup_fmap in Hw |- *.
        destruct (Nat.eq_dec j' j) as [->|Hne].
        -- rewrite Hj in Hw. cbn in Hw. inversion Hw. congruence.
        -- rewrite list_lookup_insert_ne by congruence. exact Hw.
      * right. right. exact (fetchedBetween_later _ _ _ _ _ _ Hdone Hstep).
Qed.

Lemma live_run_inv (schedule : list nat) (p : Live.Pool) :
  (exists outcomes, LiveInv net items s0 outcomes p) ->
  exists outcomes, LiveInv net items s0 outcomes (fold_left (Live.resume net items) schedule p).
Proof.
  revert p. induction schedule as [|j schedule IH]; intros p Inv; [exact Inv|].
  cbn [fold_left]. apply IH. apply live_resume_inv. exact Inv.
Qed.

Lemma live_drain_inv (fuel : nat) (p : Live.Pool) :
  (exists outcomes, LiveInv net items s0 outcomes p) ->
  exists outcomes, LiveInv net items s0 outcomes (Live.drain net items fuel p).
Proof.
  revert p. induction fuel as [|fuel IH]; intros p Inv; [exact Inv|].
  cbn [Live.drain]. destruct (Live.firstAwaiting (Live.workers p) 0); [|exact Inv].
  apply IH. apply live_resume_inv. exact Inv.
Qed.

Lemma live_stepsLeft_resume (p : Live.Pool) (j : nat) :
  (stepsLeft items (erase (Live.resume net items p j)) <= stepsLeft items (erase p))%nat /\
  (forall i identifier fetch,
     Live.workers p !! j = Some (Live.Awaiting i identifier fetch) ->
     S (stepsLeft items (erase (Live.resume net items p j))) = stepsLeft items (erase p)).
Proof.
  destruct (Live.workers p !! j) as [[i identifier fetch|]|] eqn:Hj.
  - assert (H : S (stepsLeft items (erase (Live.resume net items p j)))
                = stepsLeft items (erase p)).
    { rewrite (erase_resume net items
                 (fun _ _ => resolved (fst (fetchPokemonById_settle net identifier fetch
                                              (Live.service p))))
                 p j i identifier fetch Hj eq_refl).
      apply (stepsLeft_resume _ items (erase p) j i identifier).
      rewrite erase_lookup, Hj. reflexivity. }
    split; [lia|]. intros i' identifier' fetch' _. exact H.
  - rewrite live_resume_skip by (intros; congruence). split; [lia | intros; discriminate].
  - rewrite live_resume_skip by (intros; congruence). split; [lia | intros; discriminate].
Qed.

Lemma live_stepsLeft_run (schedule : list nat) (p : Live.Pool) :
  (stepsLeft items (erase (fold_left (Live.resume net items) schedule p))
   <= stepsLeft items (erase p))%nat.
Proof.
  revert p. induction schedule as [|j schedule IH]; intros p; cbn [fold_left]; [lia|].
  specialize (IH (Live.resume net items p j)).
  pose proof (proj1 (live_stepsLeft_resume p j)). lia.
Qed.

Lemma live_firstAwaiting_Some (ws : list Live.Worker) (k j : nat) :
  Live.firstAwaiting ws k = Some j ->
  exists i identifier fetch,
    (k <= j)%nat /\ ws !! (j - k)%nat = Some (Live.Awaiting i identifier fetch).
Proof.
  revert k. induction ws as [|[i identifier fetch|] ws IH]; intros k H; cbn [Live.firstAwaiting] in H.
  - discriminate.
  - inversion H; subst. exists i, identifier, fetch. split; [lia|].
    rewrite Nat.sub_diag. reflexivity.
  - destruct (IH _ H) as (i & identifier & fetch & Hle & Hj).
    exists i, identifier, fetch. split; [lia|].
    replace (j - k)%nat with (S (j - S k)) by lia. exact Hj.
Qed.

Lemma live_drain_returns (fuel : nat) (p : Live.Pool) :
  (stepsLeft items (erase p) <= fuel)%nat ->
  Live.firstAwaiting (Live.workers (Live.drain net items fuel p)) 0 = None.
Proof.
  revert p. induction fuel as [|fuel IH]; intros p Hfuel; cbn [Live.drain].
  - rewrite <- erase_firstAwaiting. apply countAwaiting_zero.
    unfold stepsLeft in Hfuel. cbn [erase workers] in Hfuel |- *. lia.
  - destruct (Live.firstAwaiting (Live.workers p) 0) as [j|] eqn:E; [|exact E].
    apply IH. destruct (live_firstAwaiting_Some _ _ _ E) as (i & identifier & fetch & _ & Hj).
    replace (j - 0)%nat with j in Hj by lia.
    pose proof (proj2 (live_stepsLeft_resume p j) i identifier fetch Hj). lia.
Qed.

(** What the batch on the state of the module comes to: every worker has
    returned, only details were requested, and the result slots hold, item
    by item, what the fetch of the item gave. *)
Lemma live_runPool (schedule : list nat) :
  items <> [] ->
  let p := Live.runPool net items schedule s0 in
  Live.firstAwaiting (Live.workers p) 0 = None /\
  detailsOnly s0 (Live.service p) /\
  exists outcomes,
    Live.poolResults p = imap (fun i item => outcomes i (item_name item)) items /\
    forall i item, items !! i = Some item ->
      fetchedBetween net s0 (Live.service p) (item_name item) (outcomes i (item_name item)).
Proof.
  intros Hne p.
  set (start := Live.startPool items s0).
  assert (Hstart : exists outcomes, LiveInv net items s0 outcomes start).
  { exists (fun _ _ => None). apply live_spawn_inv, live_initial_inv. }
  assert (Hsteps : (stepsLeft items (erase start) <= length items)%nat).
  { assert (E : forall n q, stepsLeft items (erase (Live.spawn items n q))
                            = stepsLeft items (erase q)).
    { induction n as [|n IH]; intros q; [reflexivity|].
      cbn [Live.spawn]. rewrite live_claim.
      cbn [Live.service Live.nextIndex Live.poolResults Live.workers]. rewrite IH.
      unfold erase. cbn [Live.nextIndex Live.poolResults Live.workers].
      rewrite fmap_app. cbn [fmap list_fmap]. rewrite erase_claimed.
      exact (stepsLeft_append items (erase q)). }
    subst start. unfold Live.startPool. rewrite E.
    unfold stepsLeft. cbn. lia. }
  assert (Hworkers : forall q j, length (Live.workers (Live.resume net items q j))
                                 = length (Live.workers q)).
  { intros q j. destruct (Live.workers q !! j) as [[i identifier fetch|]|] eqn:Hj.
    - rewrite (live_resume net items q j i identifier fetch Hj). cbn [Live.workers].
      apply length_insert.
    - rewrite live_resume_skip by (intros; congruence). reflexivity.
    - rewrite live_resume_skip by (intros; congruence). reflexivity. }
  assert (Hcount : (0 < length (Live.workers p))%nat).
  { subst p. unfold Live.runPool. fold start.
    assert (Hd : forall fuel q, length (Live.workers (Live.drain net items fuel q))
                                = length (Live.workers q)).
    { induction fuel as [|fuel IH]; intros q; cbn [Live.drain]; [reflexivity|].
      destruct (Live.firstAwaiting (Live.workers q) 0); [|reflexivity].
      rewrite IH. apply Hworkers. }
    assert (Hr : forall schedule' q,
               length (Live.workers (fold_left (Live.resume net items) schedule' q))
               = length (Live.workers q)).
    { induction schedule' as [|j schedule' IH]; intros q; cbn [fold_left]; [reflexivity|].
      rewrite IH. apply Hworkers. }
    assert (Hs : forall n q, length (Live.workers (Live.spawn items n q))
                             = (length (Live.workers q) + n)%nat).
    { induction n as [|n IH]; intros q; cbn [Live.spawn]; [lia|].
      rewrite live_claim. cbn [Live.service Live.nextIndex Live.poolResults Live.workers].
      rewrite IH. cbn [Live.workers]. rewrite length_app. cbn [length]. lia. }
    rewrite Hd, Hr. subst start. unfold Live.startPool. rewrite Hs. cbn [Live.workers length].
    destruct items; [contradiction|]. unfold DETAIL_CONCURRENCY. cbn [length]. lia. }
  assert (Hdone : Live.firstAwaiting (Live.workers p) 0 = None).
  { subst p. unfold Live.runPool. fold start. apply live_drain_returns.
    pose proof (live_stepsLeft_run schedule start). lia. }
  destruct (live_drain_inv (length items) _ (live_run_inv schedule start Hstart))
    as [outcomes Inv].
  fold start in Inv. change (Live.drain net items (length items)
                               (fold_left (Live.resume net items) schedule start))
    with p in Inv.
  split; [exact Hdone|]. split; [exact (live_grows _ _ _ _ _ Inv)|].
  exists outcomes.
  assert (Hdone' : firstAwaiting (workers (erase p)) 0 = None).
  { cbn [erase workers]. rewrite erase_firstAwaiting. exact Hdone. }
  assert (Hw : (0 < length (workers (erase p)))%nat).
  { cbn [erase workers]. rewrite length_fmap. exact Hcount. }
  pose proof (returned_results outcomes items (erase p) (live_pool _ _ _ _ _ Inv) Hw Hdone')
    as Hres.
  split; [exact Hres|].
  intros i item Hitem.
  pose proof (proj1 (firstAwaiting_None _ _) Hdone') as Hall.
  destruct (lookup_lt_is_Some_2 (workers (erase p)) 0%nat Hw) as [w0 Hw0].
  pose proof (Hall _ _ Hw0) as ->.
  pose proof (inv_returned _ _ _ (live_pool _ _ _ _ _ Inv) _ Hw0) as Hpast.
  cbn [erase nextIndex] in Hpast.
  destruct (live_settled _ _ _ _ _ Inv i item Hitem) as [Hge|[Haw|Hfetched]].
  - apply lookup_lt_Some in Hitem. lia.
  - destruct Haw as (j & identifier & Hj). specialize (Hall _ _ Hj). discriminate Hall.
  - exact Hfetched.
Qed.
End LiveProofs.

Lemma live_batch (net : Network) (schedule : list nat) (items : list PokeApiListItem)
  (s : Service) :
  let batch := Live.fetchPokemonDetailsBatch net schedule items s in
  detailsOnly s (snd batch) /\
  exists outcomes,
    fst batch = omap id (imap (fun i item => outcomes i (item_name item)) items) /\
    forall i item, items !! i = Some item ->
      fetchedBetween net s (snd batch) (item_name item) (outcomes i (item_name item)).
Proof.
  destruct items as [|item0 items'] eqn:E.
  - cbn. split; [apply detailsOnly_refl|]. exists (fun _ _ => None).
    split; [reflexivity|]. intros i item H. rewrite lookup_nil in H. discriminate H.
  - rewrite <- E. assert (Hne : items <> []) by (rewrite E; discriminate).
    destruct (live_runPool net items s schedule Hne) as (_ & Hgrow & outcomes & Hres & Hfetched).
    assert (Hbatch : Live.fetchPokemonDetailsBatch net schedule items s
                     = (omap id (Live.poolResults (Live.runPool net items schedule s)),
                        Live.service (Live.runPool net items schedule s))).
    { rewrite E. reflexivity. }
    intros batch. subst batch. rewrite Hbatch. cbn [fst snd].
    split; [exact Hgrow|]. exists outcomes. rewrite Hres. split; [reflexivity | exact Hfetched].
Qed.

(** ** Sorting by name *)

Section SortByName.
Variable localeCompare : string -> string -> Z.

Lemma byName_named (a b : value) :
  hasName a = true -> byName localeCompare a b = Returns (localeCompare (nameOf a) (nameOf b)).
Proof.
  unfold hasName, byName, nameOf. destruct (member "name" a) as [[]|]; try discriminate.
  reflexivity.
Qed.

Lemma byName_nameless (a b : value) : hasName a = false -> byName localeCompare a b = Throws.
Proof.
  unfold hasName, byName. destruct (member "name" a) as [[]|]; try discriminate; reflexivity.
Qed.

Lemma insertPivot_named (pivot : value) (sorted : list value) :
  hasName pivot = true ->
  exists placed,
    insertPivot (byName localeCompare) pivot sorted = Returns placed /\
    Permutation placed (pivot :: sorted) /\
    ((forall a b, 0 <= localeCompare a b -> localeCompare b a <= 0) ->
     Sorted (inNameOrder localeCompare) sorted ->
     Sorted (inNameOrder localeCompare) placed /\
     forall z, inNameOrder localeCompare z pivot ->
               HdRel (inNameOrder localeCompare) z sorted ->
               HdRel (inNameOrder localeCompare) z placed).
Proof.
  intros Hp. induction sorted as [|y rest IH]; cbn [insertPivot].
  - exists [pivot]. split; [reflexivity|]. split; [reflexivity|].
    intros _ _. split; [repeat constructor|]. intros z Hz _. constructor. exact Hz.
  - rewrite (byName_named pivot y Hp).
    destruct (Z.ltb_spec (localeCompare (nameOf pivot) (nameOf y)) 0) as [Hlt|Hge].
    + exists (pivot :: y :: rest). split; [reflexivity|]. split; [reflexivity|].
      intros _ Hs. split.
      * constructor; [exact Hs|]. constructor. unfold inNameOrder. lia.
      * intros z Hz _. constructor. exact Hz.
    + destruct IH as (placed & -> & Hperm & Hsorted).
      exists (y :: placed). split; [reflexivity|]. split.
      * rewrite Hperm. apply perm_swap.
      * intros Hlc Hs. inversion Hs as [|? ? Hrest Hhd]; subst.
        destruct (Hsorted Hlc Hrest) as [Hplaced Hhead]. split.
        -- constructor; [exact Hplaced|]. apply Hhead; [|exact Hhd].
           unfold inNameOrder. apply Hlc. exact Hge.
        -- intros z _ Hz. inversion Hz; subst. constructor. assumption.
Qed.

Lemma insertPivot_nameless (pivot : value) (sorted : list value) :
  hasName pivot = false -> sorted <> [] ->
  insertPivot (byName localeCompare) pivot sorted = Throws.
Proof.
  intros Hp Hne. destruct sorted as [|y rest]; [contradiction|].
  cbn [insertPivot]. rewrite (byName_nameless pivot y Hp). reflexivity.
Qed.

Lemma insertNext_thrown (rest : list value) :
  fold_left (insertNext (byName localeCompare)) rest Throws = Throws.
Proof. induction rest as [|x rest IH]; [reflexivity | exact IH]. Qed.

Lemma sort_named (rest done : list value) :
  Forall (fun card => hasName card = true) rest ->
  exists sorted,
    fold_left (insertNext (byName localeCompare)) rest (Returns done) = Returns sorted /\
    Permutation sorted (done ++ rest) /\
    ((forall a b, 0 <= localeCompare a b -> localeCompare b a <= 0) ->
     Sorted (inNameOrder localeCompare) done -> Sorted (inNameOrder localeCompare) sorted).
Proof.
  revert done. induction rest as [|x rest IH]; intros done Hall; cbn [fold_left].
  - exists done. split; [reflexivity|]. split; [rewrite app_nil_r; reflexivity|]. auto.
  - inversion Hall as [|? ? Hx Hrest]; subst. cbn [insertNext].
    destruct (insertPivot_named x done Hx) as (placed & -> & Hperm & Hsorted).
    destruct (IH placed Hrest) as (sorted & Hrun & Hperm' & Hsorted').
    exists sorted. split; [exact Hrun|]. split.
    + rewrite Hperm', Hperm. cbn [app]. apply Permutation_middle.
    + intros Hlc Hdone. apply (Hsorted' Hlc). apply (Hsorted Hlc Hdone).
Qed.

Lemma sort_nameless (rest done : list value) :
  done <> [] ->
  Exists (fun card => hasName card = false) rest ->
  fold_left (insertNext (byName localeCompare)) rest (Returns done) = Throws.
Proof.
  intros Hdone Hex. revert done Hdone.
  induction Hex as [x rest Hx|x rest Hex IH]; intros done Hdone; cbn [fold_left insertNext].
  - rewrite (insertPivot_nameless x done Hx Hdone). apply insertNext_thrown.
  - destruct (hasName x) eqn:Hx.
    + destruct (insertPivot_named x done Hx) as (placed & -> & Hperm & _).
      apply IH. intros ->. apply Permutation_nil in Hperm. discriminate Hperm.
    + rewrite (insertPivot_nameless x done Hx Hdone). apply insertNext_thrown.
Qed.

(** The sort of [searchPokemon] returns when every card has a name, and
    then gives the cards in the order of their names. *)
Lemma arraySortThrowing_named (cards : list value) :
  Forall (fun card => hasName card = true) cards ->
  exists sorted,
    arraySortThrowing (byName localeCompare) cards = Returns sorted /\
    Permutation sorted cards /\
    ((forall a b, 0 <= localeCompare a b -> localeCompare b a <= 0) ->
     Sorted (inNameOrder localeCompare) sorted).
Proof.
  intros Hall. destruct cards as [|first rest]; cbn [arraySortThrowing].
  - exists []. split; [reflexivity|]. split; [reflexivity|]. intros _. constructor.
  - inversion Hall as [|? ? _ Hrest]; subst.
    destruct (sort_named rest [first] Hrest) as (sorted & Hrun & Hperm & Hsorted).
    exists sorted. split; [exact Hrun|]. split; [exact Hperm|].
    intros Hlc. apply (Hsorted Hlc). repeat constructor.
Qed.

(** It throws only over a card that has no name. *)
Lemma arraySortThrowing_throws (cards : list value) :
  arraySortThrowing (byName localeCompare) cards = Throws ->
  Exists (fun card => hasName card = false) cards.
Proof.
  intros Hthrow.
  destruct (forallb hasName cards) eqn:E.
  - assert (Hall : Forall (fun card => hasName card = true) cards).
    { apply List.Forall_forall. intros card Hin.
      exact (proj1 (forallb_forall hasName cards) E card Hin). }
    destruct (arraySortThrowing_named cards Hall) as (sorted & Hrun & _).
    rewrite Hrun in Hthrow. discriminate Hthrow.
  - clear Hthrow. induction cards as [|card cards IH]; [discriminate E|].
    cbn [forallb] in E. destruct (hasName card) eqn:Hc.
    + apply Exists_cons_tl. apply IH. exact E.
    + apply Exists_cons_hd. exact Hc.
Qed.

(** Two cards or more, none with a name: the first comparison throws,
    whichever pair the engine takes. *)
Lemma arraySortThrowing_no_names (first second : value) (rest : list value) :
  Forall (fun card => hasName card = false) (first :: second :: rest) ->
  arraySortThrowing (byName localeCompare) (first :: second :: rest) = Throws.
Proof.
  intros Hall. cbn [arraySortThrowing]. apply sort_nameless; [discriminate|].
  apply Exists_cons_hd. inversion Hall as [|? ? _ Hrest]; subst.
  inversion Hrest; subst. assumption.
Qed.
End SortByName.

(** ** Search *)

Lemma normalized_blank (q : string) : Js.trim q = "" <-> Js.toLowerCase (Js.trim q) = "".
Proof. destruct (Js.trim q); split; intros H; try reflexivity; discriminate H. Qed.

Lemma fetchPokemonIndex_warm (net : Network) (s : Service) (index : list PokeApiListItem) :
  pokemonIndexCache s = Some index -> fetchPokemonIndex net s = (Resolved index, s).
Proof.
  intros H. unfold fetchPokemonIndex, fetchPokemonIndex_call. rewrite H. reflexivity.
Qed.

Lemma fetchPokemonIndex_answered (net : Network) (s : Service) (response : PokeApiListResponse) :
  pokemonIndexCache s = None -> pokemonIndexPromise s = None ->
  answerList net (length (requestLog s)) 0 POKEMON_INDEX_LIMIT = Resolved response ->
  fetchPokemonIndex net s
  = (Resolved (results response),
     setIndex (Some (results response)) None
       (logRequest (GetPokemonList 0 POKEMON_INDEX_LIMIT) s)).
Proof.
  intros Hc Hp Hnet. unfold fetchPokemonIndex. rewrite (first_caller s Hc Hp).
  unfold fetchPokemon_settle. rewrite Hnet. cbn [fetchPokemonIndex_settle].
  destruct s as [c ic ip log]; reflexivity.
Qed.

(** What [searchPokemon] does with the index once it has it. *)
Lemma searchPokemon_run (localeCompare : string -> string -> Z) (net : Network)
  (schedule : list nat) (query : string) (s s' : Service) (index : list PokeApiListItem) :
  Js.toLowerCase (Js.trim query) <> "" ->
  fetchPokemonIndex net s = (Resolved index, s') ->
  let batch := Live.fetchPokemonDetailsBatch net schedule
                 (List.filter (matchesQuery (Js.toLowerCase (Js.trim query))) index) s' in
  searchPokemon localeCompare net schedule query s
  = match arraySortThrowing (byName localeCompare) (fst batch) with
    | Returns sorted => (Resolved sorted, snd batch)
    | Throws => (Rejected "Failed to search pokemon", snd batch)
    end.
Proof.
  intros Hq Hindex batch. unfold searchPokemon.
  destruct (Js.toLowerCase (Js.trim query)) as [|c rest] eqn:E; [contradiction|].
  cbn [Js.truthy negb]. rewrite Hindex. fold batch.
  destruct batch as [cards s'']. reflexivity.
Qed.

(** C6, as the code has it by design.  A query that is blank after trimming
    gives the empty list and leaves the module untouched.  For any other
    query, over an index whose names are in lower case and when every card
    found has a name, [searchPokemon] returns exactly the cards of the index
    entries whose name, lowercased, contains the trimmed and lowercased
    query as a substring: those entries, in index order, are what the batch
    fetcher is given; each card is what a call of [fetchPokemonById] for
    the name of the entry gave during the batch, the entries whose fetch
    failed being dropped; the state returned is the one the batch leaves,
    which differs from the state after the index by detail requests and
    cache entries only; and the cards come sorted by name. *)
Theorem search_matches_sorted (localeCompare : string -> string -> Z) (net : Network)
  (schedule : list nat) (query : string) (s : Service) :
  let normalized := Js.toLowerCase (Js.trim query) in
  (normalized = "" -> searchPokemon localeCompare net schedule query s = (Resolved [], s)) /\
  (forall index s',
     let matched :=
       List.filter (fun entry => Js.includes (Js.toLowerCase (item_name entry)) normalized)
                   index in
     let batch := Live.fetchPokemonDetailsBatch net schedule matched s' in
     normalized <> "" ->
     fetchPokemonIndex net s = (Resolved index, s') ->
     Forall (fun entry => Js.toLowerCase (item_name entry) = item_name entry) index ->
     Forall (fun card => hasName card = true) (fst batch) ->
     (forall entry,
        In entry matched <->
        In entry index /\
        exists before after,
          Js.toLowerCase (item_name entry) = before +:+ normalized +:+ after) /\
     detailsOnly s' (snd batch) /\
     (exists outcomes,
        fst batch = omap id (imap (fun i entry => outcomes i (item_name entry)) matched) /\
        forall i entry, matched !! i = Some entry ->
          fetchedBetween net s' (snd batch) (item_name entry)
                         (outcomes i (item_name entry))) /\
     exists sorted,
       searchPokemon localeCompare net schedule query s = (Resolved sorted, snd batch) /\
       arraySortThrowing (byName localeCompare) (fst batch) = Returns sorted /\
       Permutation sorted (fst batch) /\
       ((forall a b, 0 <= localeCompare a b -> localeCompare b a <= 0) ->
        Sorted (fun a b => localeCompare (nameOf a) (nameOf b) <= 0) sorted)).
Proof.
  intros normalized. split.
  - intros Hblank. unfold searchPokemon. fold normalized. rewrite Hblank. reflexivity.
  - intros index s' matched batch Hquery Hindex Hlower Hnamed.
    assert (Hmatched : List.filter (matchesQuery normalized) index = matched).
    { subst matched. apply filter_ext_in. intros entry Hin.
      rewrite matchesQuery_includes.
      rewrite (proj1 (List.Forall_forall _ index) Hlower entry Hin). reflexivity. }
    pose proof (searchPokemon_run localeCompare net schedule query s s' index Hquery Hindex)
      as Hrun.
    cbv zeta in Hrun. fold normalized in Hrun. rewrite Hmatched in Hrun. fold batch in Hrun.
    destruct (live_batch net schedule matched s') as (Hgrow & outcomes & Hres & Hfetched).
    fold batch in Hgrow, Hres, Hfetched.
    destruct (arraySortThrowing_named localeCompare (fst batch) Hnamed)
      as (sorted & Hsort & Hperm & Hsorted).
    rewrite Hsort in Hrun.
    split; [|split; [exact Hgrow | split]].
    + intros entry. subst matched. rewrite filter_In, includes_substring. reflexivity.
    + exists outcomes. split; [exact Hres | exact Hfetched].
    + exists sorted. split; [exact Hrun|]. split; [exact Hsort|]. split; [exact Hperm|].
      exact Hsorted.
Qed.

Lemma search_matches_sorted_witness :
  exists sorted,
    searchPokemon ordinalCompare catalogue [1; 0]%nat "  SAUR " warmIndex
    = (Resolved sorted,
       snd (Live.fetchPokemonDetailsBatch catalogue [1; 0]%nat
              [listItem "ivysaur"; listItem "bulbasaur"] warmIndex)) /\
    map nameOf sorted = ["Bulbasaur"; "Ivysaur"] /\
    requestLog (snd (Live.fetchPokemonDetailsBatch catalogue [1; 0]%nat
                       [listItem "ivysaur"; listItem "bulbasaur"] warmIndex))
    = [GetPokemon "ivysaur"; GetPokemon "bulbasaur"].
Proof.
  destruct (search_matches_sorted ordinalCompare catalogue [1; 0]%nat "  SAUR " warmIndex)
    as [_ H].
  destruct (H [listItem "ivysaur"; listItem "bulbasaur"; listItem "pikachu"] warmIndex)
    as (_ & _ & _ & sorted & Hsearch & Hsort & _).
  - discriminate.
  - reflexivity.
  - repeat constructor.
  - vm_compute. repeat constructor.
  - exists sorted. split; [exact Hsearch|]. split; [|reflexivity].
    vm_compute in Hsort. injection Hsort as <-. reflexivity.
Defined.

(** C6 as stated fails on the blank query.  Every name contains the empty
    text, and the cards of the three entries of this index can be
    fetched; the search for a query of white space returns none of them. *)
Lemma search_blank_query_returns_nothing :
  pokemonIndexCache warmIndex
  = Some [listItem "ivysaur"; listItem "bulbasaur"; listItem "pikachu"] /\
  Forall (fun entry =>
            Js.includes (Js.toLowerCase (item_name entry)) (Js.toLowerCase (Js.trim "  "))
            = true)
         [listItem "ivysaur"; listItem "bulbasaur"; listItem "pikachu"] /\
  map nameOf (fst (Live.fetchPokemonDetailsBatch catalogue []
                     [listItem "ivysaur"; listItem "bulbasaur"; listItem "pikachu"] warmIndex))
  = ["Ivysaur"; "Bulbasaur"; "Pikachu"] /\
  searchPokemon ordinalCompare catalogue [] "  " warmIndex = (Resolved [], warmIndex).
Proof.
  split; [reflexivity|]. split; [repeat constructor|]. split; [|reflexivity].
  vm_compute. reflexivity.
Qed.

(** The two slips of [searchPokemon] that C6 leaves out.  The names of the
    index are compared as they are held: an entry with a capital letter is
    not found by the query that names it.  And a card without a name, here
    the one of the entry [-], makes the sort throw and the search
    reject. *)
Example search_slips :
  fst (searchPokemon ordinalCompare catalogue [] "pika" capitalisedIndex) = Resolved [] /\
  map hasName (fst (Live.fetchPokemonDetailsBatch catalogue []
                      [listItem "a-b"; listItem "-"] dashIndex)) = [true; false] /\
  fst (searchPokemon ordinalCompare catalogue [] "-" dashIndex)
  = Rejected "Failed to search pokemon" /\
  requestLog (snd (searchPokemon ordinalCompare catalogue [] "-" dashIndex))
  = [GetPokemon "a-b"; GetPokemon "-"].
Proof. repeat split; vm_compute; reflexivity. Qed.

(** * Further properties *)

(** ** The entity cache *)

Lemma fold_insert_lookup (card : value) (keys : list string) (cache : gmap string value)
  (k : string) :
  (In k keys -> fold_left (fun m key => <[key := card]> m) keys cache !! k = Some card) /\
  (~ In k keys -> fold_left (fun m key => <[key := card]> m) keys cache !! k = cache !! k).
Proof.
  revert cache. induction keys as [|key keys IH]; intros cache; cbn [fold_left].
  - split; [intros [] | reflexivity].
  - destruct (IH (<[key := card]> cache)) as [IHin IHout]. split.
    + intros [->|Hin].
      * destruct (in_dec string_dec k keys) as [Hin|Hout]; [exact (IHin Hin)|].
        rewrite (IHout Hout). apply lookup_insert_eq.
      * exact (IHin Hin).
    + intros Hn. rewrite IHout by (intros H; apply Hn; right; exact H).
      apply lookup_insert_ne. intros ->. apply Hn. left. reflexivity.
Qed.

Lemma cachePokemonCard_lookup (card : value) (keys : list (option string))
  (cache : gmap string value) (k : string) :
  (In k (cacheKeys keys) -> cachePokemonCard card keys cache !! k = Some card) /\
  (~ In k (cacheKeys keys) -> cachePokemonCard card keys cache !! k = cache !! k).
Proof. unfold cachePokemonCard. apply fold_insert_lookup. Qed.

Lemma cacheKeys_spec (keys : list (option string)) (k : string) :
  In k (cacheKeys keys) <->
  k <> "" /\ exists alias, In (Some alias) keys /\ k = Js.toLowerCase alias.
Proof.
  unfold cacheKeys. rewrite filter_In, in_map_iff. split.
  - intros [(key & Hk & Hin) Ht]. split; [intros ->; discriminate Ht|].
    destruct key as [alias|]; [|subst k; discriminate Ht].
    exists alias. split; [exact Hin | symmetry; exact Hk].
  - intros [Hne (alias & Hin & ->)]. split.
    + exists (Some alias). split; [reflexivity | exact Hin].
    + destruct (Js.toLowerCase alias); [contradiction | reflexivity].
Qed.

(** X1. A fetch by identifier that goes to the network and succeeds returns
    the normalized record after one request and stores it under the
    identifier, the raw name and the id, localId and name of the card, all
    lowercased; a later fetch by any of these aliases, in any letter case,
    returns the same card without a request, whatever the network would
    answer.  Other keys of the cache are left as they were. *)
Theorem fetchPokemonById_caches_aliases (net : Network) (id : string) (s : Service)
  (data : PokeApiPokemon) :
  pokemonCache s !! Js.toLowerCase id = None ->
  answerPokemon net (length (requestLog s)) (Js.toLowerCase id) = Resolved data ->
  let card := mapPokemonToCard data in
  let aliases := [Some id; stringMember "id" card; stringMember "localId" card;
                  stringMember "name" card; Some (pokemon_name data)] in
  let s' := snd (fetchPokemonById net id s) in
  fst (fetchPokemonById net id s) = Resolved card /\
  requestLog s' = requestLog s ++ [GetPokemon (Js.toLowerCase id)] /\
  (forall net' alias again,
     In (Some alias) aliases -> Js.toLowerCase again = Js.toLowerCase alias ->
     again <> "" ->
     fetchPokemonById net' again s' = (Resolved card, s')) /\
  (forall k, ~ In k (cacheKeys aliases) -> pokemonCache s' !! k = pokemonCache s !! k).
Proof.
  intros Hmiss Hnet card aliases s'.
  assert (Hrun : fetchPokemonById net id s
                 = (Resolved card,
                    setPokemonCache (cachePokemonCard card aliases (pokemonCache s))
                                    (logRequest (GetPokemon (Js.toLowerCase id)) s))).
  { unfold fetchPokemonById. rewrite Hmiss, Hnet. reflexivity. }
  subst s'. rewrite Hrun. cbn [fst snd].
  split; [reflexivity|]. split; [reflexivity|]. split.
  - intros net' alias again Hin Hlow Hne.
    unfold fetchPokemonById. cbn [pokemonCache setPokemonCache].
    rewrite (proj1 (cachePokemonCard_lookup card aliases (pokemonCache s) (Js.toLowerCase again)));
      [reflexivity|].
    apply cacheKeys_spec. split.
    + destruct again; [contradiction | discriminate].
    + exists alias. split; [exact Hin | exact Hlow].
  - intros k Hk. cbn [pokemonCache setPokemonCache].
    exact (proj2 (cachePokemonCard_lookup card aliases (pokemonCache s) k) Hk).
Qed.

Lemma fetchPokemonById_caches_aliases_witness :
  let s' := snd (fetchPokemonById pokedex "Bulbasaur" coldService) in
  fetchPokemonById pokedex "Bulbasaur" coldService
  = (Resolved (mapPokemonToCard bulbasaur), s') /\
  requestLog s' = [GetPokemon "bulbasaur"] /\
  fetchPokemonById offline "BULBASAUR" s' = (Resolved (mapPokemonToCard bulbasaur), s') /\
  fetchPokemonById offline "1" s' = (Resolved (mapPokemonToCard bulbasaur), s').
Proof.
  intros s'.
  pose proof (fetchPokemonById_caches_aliases pokedex "Bulbasaur" coldService bulbasaur
                eq_refl eq_refl) as H.
  cbv zeta in H. destruct H as (Hr & Hlog & Hhit & _).
  split; [|split; [exact Hlog|split]].
  - rewrite (surjective_pairing (fetchPokemonById pokedex "Bulbasaur" coldService)).
    rewrite Hr. reflexivity.
  - apply (Hhit offline "Bulbasaur" "BULBASAUR"); [left; reflexivity | reflexivity | discriminate].
  - apply (Hhit offline "1" "1"); [right; left; reflexivity | reflexivity | discriminate].
Defined.

(** ** Ranking *)

(** X2. Sorting rearranges and nothing else: for every property, direction
    and collation, consistent or not, [sortCards] returns a permutation of
    its input. *)
Theorem sortCards_permutation (localeCompare : string -> string -> Z)
  (sortProperty : SortProperty) (sortOrder : SortOrder) (cards : list PokemonCard) :
  Permutation (sortCards localeCompare sortProperty sortOrder cards) cards /\
  length (sortCards localeCompare sortProperty sortOrder cards) = length cards /\
  (forall card, In card (sortCards localeCompare sortProperty sortOrder cards) <-> In card cards).
Proof.
  pose proof (arraySort_perm (compareCards localeCompare sortProperty sortOrder) cards) as H.
  split; [exact H|]. split.
  - apply Permutation_length. exact H.
  - intros card. split; apply Permutation_in; [exact H | symmetry; exact H].
Qed.

Lemma Sorted_weaken {A : Type} (R R' : A -> A -> Prop) (l : list A) :
  (forall a b, R a b -> R' a b) -> Sorted R l -> Sorted R' l.
Proof.
  intros HR. induction 1 as [|a l _ IH Hhd]; constructor; [exact IH|].
  destruct Hhd; constructor. apply HR. assumption.
Qed.

Lemma sorted_by_key (key : PokemonCard -> Z) (compare : PokemonCard -> PokemonCard -> option Z)
  (cards : list PokemonCard) :
  (forall a b, compare a b = Some (key a - key b)) ->
  StronglySorted (fun a b => key a <= key b) (arraySort compare cards).
Proof.
  intros Hc. apply Sorted_StronglySorted.
  - intros a b c Hab Hbc. lia.
  - apply (Sorted_weaken (notAfter compare)).
    + intros a b Hab. unfold notAfter in Hab. rewrite Hc in Hab. cbn in Hab. lia.
    + apply arraySort_sorted. intros x y H. unfold notAfter. rewrite Hc in *. cbn in *. lia.
Qed.

Lemma sorted_by_key_desc (key : PokemonCard -> Z)
  (compare : PokemonCard -> PokemonCard -> option Z) (cards : list PokemonCard) :
  (forall a b, compare a b = Some (key b - key a)) ->
  StronglySorted (fun a b => key b <= key a) (arraySort compare cards).
Proof.
  intros Hc. apply Sorted_StronglySorted.
  - intros a b c Hab Hbc. lia.
  - apply (Sorted_weaken (notAfter compare)).
    + intros a b Hab. unfold notAfter in Hab. rewrite Hc in Hab. cbn in Hab. lia.
    + apply arraySort_sorted. intros x y H. unfold notAfter. rewrite Hc in *. cbn in *. lia.
Qed.

(** X3. Sorted by [hp] or by [dexId], the cards are in numerical order of
    that value, ascending or descending as requested; a missing or
    unreadable hp and a missing dexId count as 0. *)
Theorem sortCards_numeric_order (localeCompare : string -> string -> Z)
  (cards : list PokemonCard) :
  StronglySorted (fun a b => hpOf a <= hpOf b) (sortCards localeCompare SortHp Asc cards) /\
  StronglySorted (fun a b => hpOf b <= hpOf a) (sortCards localeCompare SortHp Desc cards) /\
  StronglySorted (fun a b => firstDexId a <= firstDexId b)
                 (sortCards localeCompare SortDexId Asc cards) /\
  StronglySorted (fun a b => firstDexId b <= firstDexId a)
                 (sortCards localeCompare SortDexId Desc cards) /\
  (forall card, card_hp card = None \/ card_hp card = Some "" \/ card_hp card = Some "n/a" ->
                hpOf card = 0) /\
  (forall card, card_dexId card = None \/ card_dexId card = Some [] -> firstDexId card = 0).
Proof.
  split; [|split; [|split; [|split; [|split]]]].
  - apply (sorted_by_key hpOf). reflexivity.
  - apply (sorted_by_key_desc hpOf). reflexivity.
  - apply (sorted_by_key firstDexId). reflexivity.
  - apply (sorted_by_key_desc firstDexId). reflexivity.
  - intros card [H|[H|H]]; unfold hpOf; rewrite H; reflexivity.
  - intros card [H|H]; unfold firstDexId; rewrite H; reflexivity.
Qed.

Lemma insertSorted_filter {A : Type} (compare : A -> A -> option Z) (P : A -> bool)
  (x : A) (l : list A) :
  (forall y, 0 < default 0 (compare x y) -> P x = true -> P y = false) ->
  List.filter P (insertSorted compare x l) = List.filter P (x :: l).
Proof.
  intros Hjump. induction l as [|y l IH]; cbn [insertSorted]; [reflexivity|].
  destruct (Z.ltb_spec 0 (default 0 (compare x y))) as [Hgt|_]; [|reflexivity].
  cbn [List.filter] in *. rewrite IH.
  destruct (P x) eqn:Px; [|reflexivity].
  rewrite (Hjump y Hgt eq_refl). reflexivity.
Qed.

Lemma arraySort_stable {A : Type} (compare : A -> A -> option Z) (P : A -> bool)
  (l : list A) :
  (forall x y, 0 < default 0 (compare x y) -> P x = true -> P y = false) ->
  List.filter P (arraySort compare l) = List.filter P l.
Proof.
  intros Hjump. induction l as [|x l IH]; cbn [arraySort]; [reflexivity|].
  rewrite insertSorted_filter by (apply Hjump). cbn [List.filter]. rewrite IH. reflexivity.
Qed.

(** X4. The sort is stable: cards with the same hp keep, among themselves,
    the order they had in the input, in both directions; likewise for cards
    with the same first dexId. *)
Theorem sortCards_stable (localeCompare : string -> string -> Z) (sortOrder : SortOrder)
  (cards : list PokemonCard) (n : Z) :
  List.filter (fun card => hpOf card =? n) (sortCards localeCompare SortHp sortOrder cards)
  = List.filter (fun card => hpOf card =? n) cards /\
  List.filter (fun card => firstDexId card =? n)
              (sortCards localeCompare SortDexId sortOrder cards)
  = List.filter (fun card => firstDexId card =? n) cards.
Proof.
  split; apply arraySort_stable; intros x y Hgt Hx; apply Z.eqb_eq in Hx;
    apply Z.eqb_neq; destruct sortOrder; cbn in Hgt; lia.
Qed.

Lemma indexOf_bounds (key : string) (table : list string) (from i : Z) :
  indexOf key table from = Some i -> from <= i < from + Z.of_nat (length table).
Proof.
  revert from. induction table as [|k table IH]; intros from H; cbn [indexOf] in H; [discriminate|].
  destruct (String.eqb key k).
  - inversion H; subst. cbn [length]. lia.
  - specialize (IH _ H). cbn [length]. lia.
Qed.

Lemma indexOf_In (key : string) (table : list string) (from : Z) :
  In key table -> exists i, indexOf key table from = Some i.
Proof.
  revert from. induction table as [|k table IH]; intros from H; [destruct H|].
  cbn [indexOf]. destruct (String.eqb_spec key k) as [->|Hne]; [eauto|].
  destruct H as [->|H]; [contradiction|]. apply IH. exact H.
Qed.

Lemma indexOf_not_In (key : string) (table : list string) (from : Z) :
  ~ In key table -> indexOf key table from = None.
Proof.
  revert from. induction table as [|k table IH]; intros from H; [reflexivity|].
  cbn [indexOf]. destruct (String.eqb_spec key k) as [->|Hne].
  - exfalso. apply H. left. reflexivity.
  - apply IH. intros Hin. apply H. right. exact Hin.
Qed.

Lemma insertSorted_ext_in {A : Type} (compare compare' : A -> A -> option Z) (x : A)
  (l : list A) :
  (forall y, In y l -> compare x y = compare' x y) ->
  insertSorted compare x l = insertSorted compare' x l.
Proof.
  induction l as [|y l IH]; intros H; cbn [insertSorted]; [reflexivity|].
  rewrite (H y (or_introl eq_refl)).
  rewrite IH by (intros z Hz; apply H; right; exact Hz). reflexivity.
Qed.

(** The sort consults the comparator on the elements of the list only. *)
Lemma arraySort_ext_in {A : Type} (compare compare' : A -> A -> option Z) (l : list A) :
  (forall x y, In x l -> In y l -> compare x y = compare' x y) ->
  arraySort compare l = arraySort compare' l.
Proof.
  induction l as [|x l IH]; intros H; cbn [arraySort]; [reflexivity|].
  rewrite IH by (intros a b Ha Hb; apply H; right; assumption).
  apply insertSorted_ext_in. intros y Hy. apply H; [left; reflexivity|].
  right. exact (Permutation_in _ (arraySort_perm compare' l) Hy).
Qed.

(** A list in the order of a key is the elements below a bound followed by
    the others. *)
Lemma sorted_split {A : Type} (key : A -> Z) (bound : Z) (l : list A) :
  StronglySorted (fun a b => key a <= key b) l ->
  l = List.filter (fun a => key a <? bound) l
      ++ List.filter (fun a => negb (key a <? bound)) l.
Proof.
  induction 1 as [|a l Hl IH Hall]; [reflexivity|]. cbn [List.filter].
  destruct (Z.ltb_spec (key a) bound) as [Hlt|Hge]; cbn [negb app].
  - f_equal. exact IH.
  - assert (Hnone : List.filter (fun b => key b <? bound) l = []).
    { clear IH Hl. induction l as [|b l IHl]; [reflexivity|]. cbn [List.filter].
      inversion Hall as [|? ? Hb Hrest]; subst.
      destruct (Z.ltb_spec (key b) bound); [lia|]. apply IHl. exact Hrest. }
    rewrite Hnone in IH |- *. cbn [app] in IH |- *. f_equal. exact IH.
Qed.

Lemma filter_perm {A : Type} (P : A -> bool) (l l' : list A) :
  Permutation l l' -> Permutation (List.filter P l) (List.filter P l').
Proof.
  induction 1 as [|x l l' _ IH|x y l|l l' l'' _ IH1 _ IH2]; cbn [List.filter].
  - constructor.
  - destruct (P x); [constructor|]; exact IH.
  - destruct (P x), (P y); try reflexivity. apply perm_swap.
  - etransitivity; eassumption.
Qed.

Lemma rankOf_tier (key : string) :
  In key RARITY_ORDER ->
  exists i, indexOf key RARITY_ORDER 0 = Some i /\ rankOf RARITY_ORDER key = KNum i /\
            0 <= i < 5.
Proof.
  intros Hin. destruct (indexOf_In _ _ 0 Hin) as [i Hidx].
  pose proof (indexOf_bounds _ _ _ _ Hidx) as Hb. cbn [RARITY_ORDER length] in Hb.
  exists i. split; [exact Hidx|]. split; [unfold rankOf; rewrite Hidx; reflexivity | lia].
Qed.

Lemma rankOf_unranked (key : string) :
  ~ In key RARITY_ORDER -> ~ In key inheritedKeys ->
  rankOf RARITY_ORDER key = KNum MAX_SAFE_INTEGER.
Proof.
  intros Hu Hi. unfold rankOf. rewrite (indexOf_not_In _ _ 0 Hu).
  destruct (existsb (String.eqb key) inheritedKeys) eqn:E; [|reflexivity].
  exfalso. apply Hi. apply existsb_exists in E. destruct E as (k & Hk & Heq).
  apply String.eqb_eq in Heq. subst k. exact Hk.
Qed.

Lemma rankOf_inherited (key : string) :
  In key inheritedKeys -> rankOf RARITY_ORDER key = KInherited key.
Proof.
  intros [<-|[<-|[]]]; reflexivity.
Qed.

Lemma isTier_spec (key : string) :
  existsb (String.eqb key) RARITY_ORDER = true <-> In key RARITY_ORDER.
Proof.
  rewrite existsb_exists. split.
  - intros (k & Hk & Heq). apply String.eqb_eq in Heq. subst k. exact Hk.
  - intros H. exists key. split; [exact H | apply String.eqb_refl].
Qed.

(** X5. Sorted by rarity, a card whose rarity is none of the five tiers,
    or is absent, gets the rank [MAX_SAFE_INTEGER], unless its rarity
    lowercases to [constructor] or [__proto__], names that every object
    inherits: for these the rank is not a number and the comparison gives
    [NaN].  Over cards with no such rarity, the ascending sort gives the
    cards of a known tier first, in the order of their tiers, and then all
    the others, in the order they had in the input; the descending sort
    gives the others first, in input order, and then the cards of a known
    tier, in the reverse order of their tiers. *)
Theorem sortCards_unranked_rarity (localeCompare : string -> string -> Z)
  (cards : list PokemonCard) :
  Forall (fun card => ~ In (rarityKey card) inheritedKeys) cards ->
  let isTier := fun card => existsb (String.eqb (rarityKey card)) RARITY_ORDER in
  let tierOf := fun card => indexOf (rarityKey card) RARITY_ORDER 0 in
  let tiers := List.filter isTier cards in
  let others := List.filter (fun card => negb (isTier card)) cards in
  (forall card, In card others ->
     rankOf RARITY_ORDER (rarityKey card) = KNum MAX_SAFE_INTEGER) /\
  (forall card, In card tiers ->
     exists i, rankOf RARITY_ORDER (rarityKey card) = KNum i /\ 0 <= i < 5) /\
  (exists known,
     sortCards localeCompare SortRarity Asc cards = known ++ others /\
     Permutation known tiers /\
     StronglySorted (fun a b => exists i j, tierOf a = Some i /\ tierOf b = Some j /\ i <= j)
                    known) /\
  (exists known,
     sortCards localeCompare SortRarity Desc cards = others ++ known /\
     Permutation known tiers /\
     StronglySorted (fun a b => exists i j, tierOf a = Some i /\ tierOf b = Some j /\ j <= i)
                    known) /\
  (forall sortOrder a b,
     In (rarityKey a) inheritedKeys ->
     rankOf RARITY_ORDER (rarityKey a) = KInherited (rarityKey a) /\
     compareCards localeCompare SortRarity sortOrder a b = None /\
     compareCards localeCompare SortRarity sortOrder b a = None).
Proof.
  intros Hclean isTier tierOf tiers others.
  set (key := fun card => match rankOf RARITY_ORDER (rarityKey card) with
                          | KNum n => n
                          | _ => 0
                          end).
  assert (Htier : forall card, isTier card = true ->
            exists i, tierOf card = Some i /\
                      rankOf RARITY_ORDER (rarityKey card) = KNum i /\ 0 <= i < 5).
  { intros card H. apply rankOf_tier. apply isTier_spec. exact H. }
  assert (Hother : forall card, In card cards -> isTier card = false ->
            rankOf RARITY_ORDER (rarityKey card) = KNum MAX_SAFE_INTEGER).
  { intros card Hin H. apply rankOf_unranked.
    - intros Hk. apply isTier_spec in Hk. unfold isTier in H. congruence.
    - exact (proj1 (List.Forall_forall _ cards) Hclean card Hin). }
  assert (Hnum : forall card, In card cards ->
            rankOf RARITY_ORDER (rarityKey card) = KNum (key card)).
  { intros card Hin. unfold key. destruct (isTier card) eqn:E.
    - destruct (Htier card E) as (i & _ & -> & _). reflexivity.
    - rewrite (Hother card Hin E). reflexivity. }
  assert (Hbelow : forall card, In card cards ->
            (key card <? MAX_SAFE_INTEGER) = isTier card).
  { intros card Hin. unfold key. destruct (isTier card) eqn:E.
    - destruct (Htier card E) as (i & _ & -> & Hi). apply Z.ltb_lt.
      unfold MAX_SAFE_INTEGER. lia.
    - rewrite (Hother card Hin E). apply Z.ltb_irrefl. }
  assert (Hstay : forall sortOrder,
            List.filter (fun card => negb (isTier card))
                        (sortCards localeCompare SortRarity sortOrder cards) = others).
  { intros sortOrder. apply arraySort_stable. intros x y Hgt Hx.
    destruct (isTier y) eqn:Hy; [reflexivity|]. exfalso.
    apply negb_true_iff in Hx.
    assert (Hno : forall card, isTier card = false ->
              indexOf (rarityKey card) RARITY_ORDER 0 = None).
    { intros card H. apply indexOf_not_In. intros Hk. apply isTier_spec in Hk.
      unfold isTier in H. congruence. }
    unfold compareCards, rankOf in Hgt. rewrite (Hno x Hx), (Hno y Hy) in Hgt.
    destruct (existsb (String.eqb (rarityKey x)) inheritedKeys),
             (existsb (String.eqb (rarityKey y)) inheritedKeys), sortOrder;
      cbn in Hgt; lia. }
  assert (Hsame : forall sortOrder (P : PokemonCard -> bool),
            (forall card, In card cards -> P card = isTier card) ->
            List.filter P (sortCards localeCompare SortRarity sortOrder cards)
            = List.filter isTier (sortCards localeCompare SortRarity sortOrder cards) /\
            List.filter (fun card => negb (P card))
                        (sortCards localeCompare SortRarity sortOrder cards)
            = List.filter (fun card => negb (isTier card))
                          (sortCards localeCompare SortRarity sortOrder cards)).
  { intros sortOrder P HP.
    split; apply filter_ext_in; intros card Hin;
      rewrite (HP card (Permutation_in _ (arraySort_perm _ cards) Hin)); reflexivity. }
  assert (Hknown : forall sortOrder,
            Permutation (List.filter isTier (sortCards localeCompare SortRarity sortOrder cards))
                        tiers).
  { intros sortOrder. apply filter_perm. apply arraySort_perm. }
  split; [|split; [|split; [|split]]].
  - intros card Hin. apply filter_In in Hin. destruct Hin as [Hin H].
    apply negb_true_iff in H. exact (Hother card Hin H).
  - intros card Hin. apply filter_In in Hin. destruct Hin as [_ H].
    destruct (Htier card H) as (i & _ & Hrank & Hi). exists i. split; assumption.
  - assert (Hsorted : StronglySorted (fun a b => key a <= key b)
                        (sortCards localeCompare SortRarity Asc cards)).
    { unfold sortCards.
      rewrite (arraySort_ext_in _ (fun a b => Some (key a - key b))).
      - apply (sorted_by_key key). reflexivity.
      - intros a b Ha Hb. unfold compareCards. rewrite (Hnum a Ha), (Hnum b Hb). reflexivity. }
    pose proof (sorted_split key MAX_SAFE_INTEGER _ Hsorted) as Hsplit.
    destruct (Hsame Asc (fun card => key card <? MAX_SAFE_INTEGER) Hbelow) as [H1 H2].
    rewrite H1, H2, Hstay in Hsplit.
    exists (List.filter isTier (sortCards localeCompare SortRarity Asc cards)).
    split; [exact Hsplit|]. split; [apply Hknown|].
    assert (Hsub : StronglySorted (fun a b => key a <= key b)
                     (List.filter isTier (sortCards localeCompare SortRarity Asc cards))).
    { clear -Hsorted. induction Hsorted as [|a l Hl IH Hall]; cbn [List.filter]; [constructor|].
      destruct (isTier a); [|exact IH]. constructor; [exact IH|].
      apply List.Forall_forall. intros b Hb. apply filter_In in Hb.
      exact (proj1 (List.Forall_forall _ l) Hall b (proj1 Hb)). }
    assert (Hall : Forall (fun card => isTier card = true)
                     (List.filter isTier (sortCards localeCompare SortRarity Asc cards))).
    { apply List.Forall_forall. intros card Hin. apply filter_In in Hin. exact (proj2 Hin). }
    revert Hsub Hall. generalize (List.filter isTier (sortCards localeCompare SortRarity Asc cards)).
    intros l Hsub. induction Hsub as [|a l Hl IH Hhd]; intros Hall; constructor.
    + apply IH. inversion Hall; assumption.
    + inversion Hall as [|? ? Ha Hrest]; subst.
      apply List.Forall_forall. intros b Hb.
      pose proof (proj1 (List.Forall_forall _ l) Hhd b Hb) as Hle.
      pose proof (proj1 (List.Forall_forall _ l) Hrest b Hb) as Hbt. cbv beta in Hbt.
      destruct (Htier a Ha) as (i & Hi & Hri & _). destruct (Htier b Hbt) as (j & Hj & Hrj & _).
      exists i, j. split; [exact Hi|]. split; [exact Hj|].
      unfold key in Hle. rewrite Hri, Hrj in Hle. exact Hle.
  - set (key' := fun card => - key card).
    assert (Hsorted : StronglySorted (fun a b => key' a <= key' b)
                        (sortCards localeCompare SortRarity Desc cards)).
    { unfold sortCards.
      rewrite (arraySort_ext_in _ (fun a b => Some (key' a - key' b))).
      - apply (sorted_by_key key'). reflexivity.
      - intros a b Ha Hb. unfold compareCards. rewrite (Hnum a Ha), (Hnum b Hb).
        cbn. f_equal. unfold key'. lia. }
    pose proof (sorted_split key' (1 - MAX_SAFE_INTEGER) _ Hsorted) as Hsplit.
    assert (Habove : forall card, In card cards ->
              negb (key' card <? 1 - MAX_SAFE_INTEGER) = isTier card).
    { intros card Hin. rewrite <- (Hbelow card Hin). unfold key'.
      destruct (Z.ltb_spec (- key card) (1 - MAX_SAFE_INTEGER)),
               (Z.ltb_spec (key card) MAX_SAFE_INTEGER); cbn [negb]; try reflexivity; lia. }
    destruct (Hsame Desc (fun card => negb (key' card <? 1 - MAX_SAFE_INTEGER)) Habove)
      as [H1 H2].
    assert (H2' : List.filter (fun card => key' card <? 1 - MAX_SAFE_INTEGER)
                              (sortCards localeCompare SortRarity Desc cards)
                  = others).
    { rewrite <- (Hstay Desc), <- H2. apply filter_ext. intros card.
      rewrite negb_involutive. reflexivity. }
    rewrite H1, H2' in Hsplit.
    exists (List.filter isTier (sortCards localeCompare SortRarity Desc cards)).
    split; [exact Hsplit|]. split; [apply Hknown|].
    assert (Hsub : StronglySorted (fun a b => key' a <= key' b)
                     (List.filter isTier (sortCards localeCompare SortRarity Desc cards))).
    { clear -Hsorted. induction Hsorted as [|a l Hl IH Hall]; cbn [List.filter]; [constructor|].
      destruct (isTier a); [|exact IH]. constructor; [exact IH|].
      apply List.Forall_forall. intros b Hb. apply filter_In in Hb.
      exact (proj1 (List.Forall_forall _ l) Hall b (proj1 Hb)). }
    assert (Hall : Forall (fun card => isTier card = true)
                     (List.filter isTier (sortCards localeCompare SortRarity Desc cards))).
    { apply List.Forall_forall. intros card Hin. apply filter_In in Hin. exact (proj2 Hin). }
    revert Hsub Hall.
    generalize (List.filter isTier (sortCards localeCompare SortRarity Desc cards)).
    intros l Hsub. induction Hsub as [|a l Hl IH Hhd]; intros Hall; constructor.
    + apply IH. inversion Hall; assumption.
    + inversion Hall as [|? ? Ha Hrest]; subst.
      apply List.Forall_forall. intros b Hb.
      pose proof (proj1 (List.Forall_forall _ l) Hhd b Hb) as Hle.
      pose proof (proj1 (List.Forall_forall _ l) Hrest b Hb) as Hbt. cbv beta in Hbt.
      destruct (Htier a Ha) as (i & Hi & Hri & _). destruct (Htier b Hbt) as (j & Hj & Hrj & _).
      exists i, j. split; [exact Hi|]. split; [exact Hj|].
      unfold key', key in Hle. rewrite Hri, Hrj in Hle. lia.
  - intros sortOrder a b Ha. pose proof (rankOf_inherited _ Ha) as Hrank.
    split; [exact Hrank|]. unfold compareCards. rewrite Hrank.
    destruct (rankOf RARITY_ORDER (rarityKey b)), sortOrder; split; reflexivity.
Qed.

Lemma sortCards_unranked_rarity_witness :
  sortCards ordinalCompare SortRarity Asc [cardUnrated; cardAbra; cardZubat]
  = [cardAbra; cardZubat; cardUnrated] /\
  sortCards ordinalCompare SortRarity Desc [cardAbra; cardUnrated; cardZubat]
  = [cardUnrated; cardAbra; cardZubat] /\
  rankOf RARITY_ORDER (rarityKey cardUnrated) = KNum MAX_SAFE_INTEGER.
Proof.
  split; [reflexivity|]. split; [reflexivity|].
  destruct (sortCards_unranked_rarity ordinalCompare [cardAbra; cardUnrated; cardZubat])
    as (Hrank & _).
  - repeat (constructor; [cbn; intuition discriminate|]). constructor.
  - apply Hrank. apply filter_In. split; [right; left; reflexivity | reflexivity].
Defined.

(** ** The filter state *)


Lemma types_member (types : list string) (type : string) :
  existsb (String.eqb type) types = true <-> In type types.
Proof.
  rewrite existsb_exists. split.
  - intros (x & Hin & Heq). apply String.eqb_eq in Heq. subst. exact Hin.
  - intros H. exists type. split; [exact H | apply String.eqb_refl].
Qed.

Lemma filter_out_missing (types : list string) (type : string) :
  ~ In type types -> List.filter (fun item => negb (String.eqb item type)) types = types.
Proof.
  intros H. induction types as [|t types IH]; [reflexivity|]. cbn [List.filter].
  destruct (String.eqb_spec t type) as [->|_].
  - exfalso. apply H. left. reflexivity.
  - cbn [negb]. f_equal. apply IH. intros Hin. apply H. right. exact Hin.
Qed.

Lemma matchesType_same_set (f g : FilterOptions) (card : PokemonCard) :
  (forall t, In t (filter_types f) <-> In t (filter_types g)) ->
  matchesType f card = matchesType g card.
Proof.
  intros Hset. apply eq_true_iff_eq. rewrite !matchesType_spec. split; intros [Hnil|Hall].
  - left. destruct (filter_types g) as [|t ts]; [reflexivity|].
    exfalso. rewrite Hnil in Hset. apply (proj2 (Hset t)). left. reflexivity.
  - destruct (filter_types g) as [|t ts] eqn:E; [left; reflexivity|]. right.
    intros type Hin. apply Hall. apply Hset. exact Hin.
  - left. destruct (filter_types f) as [|t ts]; [reflexivity|].
    exfalso. rewrite Hnil in Hset. apply (proj1 (Hset t)). left. reflexivity.
  - destruct (filter_types f) as [|t ts] eqn:E; [left; reflexivity|]. right.
    intros type Hin. apply Hall. apply Hset. exact Hin.
Qed.

(** X6. Toggling a type selects it if it was not selected and removes every
    occurrence of it otherwise; toggling twice gives back the same selected
    set, hence the same filter, and the very same list when the type was
    not selected to begin with. *)
Theorem handleTypeToggle_twice (type : string) (filters : FilterOptions) :
  (In type (filter_types (handleTypeToggle type filters)) <-> ~ In type (filter_types filters)) /\
  (forall t, In t (filter_types (handleTypeToggle type (handleTypeToggle type filters)))
             <-> In t (filter_types filters)) /\
  (forall card, matchesFilters (handleTypeToggle type (handleTypeToggle type filters)) card
                = matchesFilters filters card) /\
  (~ In type (filter_types filters) ->
   handleTypeToggle type (handleTypeToggle type filters) = filters).
Proof.
  assert (Hon : forall f, ~ In type (filter_types f) ->
            filter_types (handleTypeToggle type f) = filter_types f ++ [type]).
  { intros f H. unfold handleTypeToggle. cbn [filter_types withTypes].
    destruct (existsb (String.eqb type) (filter_types f)) eqn:E; [|reflexivity].
    apply types_member in E. contradiction. }
  assert (Hoff : forall f, In type (filter_types f) ->
            filter_types (handleTypeToggle type f)
            = List.filter (fun item => negb (String.eqb item type)) (filter_types f)).
  { intros f H. unfold handleTypeToggle. cbn [filter_types withTypes].
    apply types_member in H. rewrite H. reflexivity. }
  assert (Hremoved : forall l t, In t (List.filter (fun item => negb (String.eqb item type)) l)
                                 <-> In t l /\ t <> type).
  { intros l t. rewrite filter_In, negb_true_iff. split; intros [H1 H2]; split; try exact H1.
    - intros ->. rewrite String.eqb_refl in H2. discriminate.
    - apply String.eqb_neq. exact H2. }
  assert (Hflip : forall f, In type (filter_types (handleTypeToggle type f))
                            <-> ~ In type (filter_types f)).
  { intros f. destruct (in_dec string_dec type (filter_types f)) as [Hin|Hout].
    - rewrite (Hoff f Hin), Hremoved. intuition congruence.
    - rewrite (Hon f Hout), in_app_iff. cbn. intuition congruence. }
  assert (Hset : forall t, In t (filter_types (handleTypeToggle type (handleTypeToggle type filters)))
                           <-> In t (filter_types filters)).
  { intros t. destruct (in_dec string_dec type (filter_types filters)) as [Hin|Hout].
    - rewrite (Hon (handleTypeToggle type filters)) by (intros H; apply Hflip in H; contradiction).
      rewrite in_app_iff, (Hoff filters Hin), Hremoved. cbn.
      destruct (string_dec t type) as [->|Hne]; intuition congruence.
    - rewrite (Hoff (handleTypeToggle type filters)) by (apply Hflip; exact Hout).
      rewrite Hremoved, (Hon filters Hout), in_app_iff. cbn.
      split; [intuition congruence|]. intros Ht. split; [tauto|]. intros ->. contradiction. }
  split; [apply Hflip|]. split; [exact Hset|]. split.
  - intros card. unfold matchesFilters.
    rewrite (matchesType_same_set _ filters card Hset). reflexivity.
  - intros Hout.
    assert (Htypes : filter_types (handleTypeToggle type (handleTypeToggle type filters))
                     = filter_types filters).
    { rewrite (Hoff (handleTypeToggle type filters)) by (apply Hflip; exact Hout).
      rewrite (Hon filters Hout), List.filter_app. cbn [List.filter].
      rewrite String.eqb_refl. cbn [negb]. rewrite app_nil_r.
      apply filter_out_missing. exact Hout. }
    assert (E : handleTypeToggle type (handleTypeToggle type filters)
                = withTypes (filter_types (handleTypeToggle type (handleTypeToggle type filters)))
                            filters) by reflexivity.
    rewrite E, Htypes. destruct filters; reflexivity.
Qed.

(** X7. The type selection is conjunctive: selecting one more type never
    brings a card into the gallery, it can only remove cards, and the
    cards that remain keep their order. *)
Theorem handleTypeToggle_narrows (type : string) (filters : FilterOptions)
  (cards : list PokemonCard) :
  ~ In type (filter_types filters) ->
  (forall card, matchesFilters (handleTypeToggle type filters) card = true ->
                matchesFilters filters card = true) /\
  galleryFilteredCards (handleTypeToggle type filters) cards
  = List.filter (matchesFilters (handleTypeToggle type filters))
                (galleryFilteredCards filters cards) /\
  (length (galleryFilteredCards (handleTypeToggle type filters) cards)
   <= length (galleryFilteredCards filters cards))%nat.
Proof.
  intros Hout.
  assert (Htypes : filter_types (handleTypeToggle type filters) = filter_types filters ++ [type]).
  { unfold handleTypeToggle. cbn [filter_types withTypes].
    destruct (existsb (String.eqb type) (filter_types filters)) eqn:E; [|reflexivity].
    apply types_member in E. contradiction. }
  assert (Hnarrow : forall card, matchesFilters (handleTypeToggle type filters) card = true ->
                                 matchesFilters filters card = true).
  { intros card. unfold matchesFilters. rewrite !andb_true_iff.
    intros [[[Hs Ht] Hr] Hh]. repeat split; try assumption.
    apply matchesType_spec. apply matchesType_spec in Ht. rewrite Htypes in Ht.
    destruct Ht as [Hnil|Hall]; [destruct (filter_types filters); discriminate Hnil|].
    right. intros t Hin. apply Hall. apply in_app_iff. left. exact Hin. }
  split; [exact Hnarrow|].
  assert (Hfilter : galleryFilteredCards (handleTypeToggle type filters) cards
                    = List.filter (matchesFilters (handleTypeToggle type filters))
                                  (galleryFilteredCards filters cards)).
  { unfold galleryFilteredCards. induction cards as [|c cards IH]; [reflexivity|].
    cbn [List.filter].
    destruct (matchesFilters (handleTypeToggle type filters) c) eqn:E.
    - rewrite (Hnarrow c E). cbn [List.filter]. rewrite E, IH. reflexivity.
    - destruct (matchesFilters filters c); [cbn [List.filter]; rewrite E|]; exact IH. }
  split; [exact Hfilter|]. rewrite Hfilter. apply filter_length_le.
Qed.

Lemma handleTypeToggle_narrows_witness :
  galleryFilteredCards (handleTypeToggle "Poison" (sampleFilters [] [])) [cardAbra; cardZubat]
  = [cardZubat] /\
  galleryFilteredCards (sampleFilters [] []) [cardAbra; cardZubat] = [cardAbra; cardZubat].
Proof.
  assert (Hout : ~ In "Poison" (filter_types (sampleFilters [] []))) by (intros []).
  destruct (handleTypeToggle_narrows "Poison" (sampleFilters [] []) [cardAbra; cardZubat] Hout)
    as (_ & -> & _).
  split; reflexivity.
Defined.

Lemma in_firstn {A : Type} (n : nat) (l : list A) (x : A) : In x (firstn n l) -> In x l.
Proof.
  intros H. rewrite <- (firstn_skipn n l). apply in_or_app. left. exact H.
Qed.

(** X8. The gallery shows the first [galleryPage * 100] matching cards, in
    the order of the loaded list; one more page keeps what is shown and
    appends at most 100 cards, and once the pages cover the matching cards
    all of them are shown. *)
Theorem galleryVisibleCards_pages (filters : FilterOptions) (galleryPage : nat)
  (cards : list PokemonCard) :
  let matching := galleryFilteredCards filters cards in
  length (galleryVisibleCards filters galleryPage cards)
  = Nat.min (galleryPage * 100) (length matching) /\
  (forall card, In card (galleryVisibleCards filters galleryPage cards) ->
                In card cards /\ matchesFilters filters card = true) /\
  galleryVisibleCards filters (S galleryPage) cards
  = galleryVisibleCards filters galleryPage cards
    ++ firstn 100 (skipn (galleryPage * 100) matching) /\
  ((length matching <= galleryPage * 100)%nat ->
   galleryVisibleCards filters galleryPage cards = matching).
Proof.
  intros matching. unfold galleryVisibleCards. fold matching.
  change GALLERY_PAGE_SIZE with 100%nat.
  split; [apply length_firstn|]. split; [|split].
  - intros card H. apply in_firstn in H. subst matching.
    unfold galleryFilteredCards in H. apply filter_In in H. exact H.
  - replace (S galleryPage * 100)%nat with (galleryPage * 100 + 100)%nat by lia.
    rewrite <- (firstn_skipn (galleryPage * 100) matching) at 1.
    rewrite firstn_app.
    destruct (Nat.le_gt_cases (galleryPage * 100) (length matching)) as [Hle|Hgt].
    + rewrite length_firstn, Nat.min_l by exact Hle.
      replace (galleryPage * 100 + 100 - galleryPage * 100)%nat with 100%nat by lia.
      f_equal. rewrite firstn_firstn. f_equal. lia.
    + rewrite firstn_firstn. rewrite !skipn_all2 by lia. rewrite !firstn_nil, !app_nil_r.
      rewrite !firstn_all2 by lia. reflexivity.
  - intros H. apply firstn_all2. exact H.
Qed.

(** X9. With the filters cleared (also the initial state) the only test left
    is the hp range 0 to 1000: the gallery lists, in their order, exactly
    the cards whose hp is in that range, so a card without hp is listed and
    a card whose hp is above 1000 or negative is not. *)
Theorem clearedFilters_keep_hp_range (cards : list PokemonCard) (card : PokemonCard) :
  (matchesFilters clearedFilters card = true <-> 0 <= hpOf card <= 1000) /\
  galleryFilteredCards clearedFilters cards
  = List.filter (fun c => (0 <=? hpOf c) && (hpOf c <=? 1000)) cards /\
  (card_hp card = None -> matchesFilters clearedFilters card = true) /\
  (forall n, card_hp card = Some (Js.ofInt n) -> (n < 0 \/ 1000 < n) ->
             matchesFilters clearedFilters card = false).
Proof.
  assert (Hm : forall c, matchesFilters clearedFilters c = (0 <=? hpOf c) && (hpOf c <=? 1000))
    by reflexivity.
  split; [|split; [|split]].
  - rewrite Hm, andb_true_iff, !Z.leb_le. reflexivity.
  - unfold galleryFilteredCards. apply filter_ext. exact Hm.
  - intros H. rewrite Hm. unfold hpOf. rewrite H. reflexivity.
  - intros n H Hn. rewrite Hm. unfold hpOf. rewrite H. unfold orString.
    rewrite ofInt_truthy, parseInt10_ofInt. cbv [default from_option id].
    destruct (Z.leb_spec 0 n); destruct (Z.leb_spec n 1000); try reflexivity; lia.
Qed.

(** ** Members of the normalized card *)

Lemma getField_rewritten_none (slot : value -> option value) (k : string)
  (fields : list (string * value)) :
  (forall v, In (k, v) fields -> slot v = None) ->
  getField k (rewriteFields slot fields) = None.
Proof.
  induction fields as [|[k' v'] fields IH]; intros H; cbn [rewriteFields]; [reflexivity|].
  assert (Hrest : getField k (rewriteFields slot fields) = None).
  { apply IH. intros v Hin. apply H. right. exact Hin. }
  destruct (slot v') as [w|] eqn:E; [|exact Hrest].
  cbn [getField]. destruct (String.eqb_spec k k') as [->|_]; [|exact Hrest].
  rewrite (H v') in E by (left; reflexivity). discriminate E.
Qed.

Lemma getField_rewritten (slot : value -> option value) (k : string) (v : value)
  (fields : list (string * value)) :
  (forall v', In (k, v') fields -> v' = v) -> In (k, v) fields ->
  getField k (rewriteFields slot fields) = slot v.
Proof.
  induction fields as [|[k' v'] fields IH]; intros Huniq Hin; [destruct Hin|].
  cbn [rewriteFields].
  destruct (String.eqb_spec k k') as [<-|Hne].
  - assert (v' = v) as -> by (apply Huniq; left; reflexivity).
    destruct (slot v) as [w|] eqn:E.
    + cbn [getField]. rewrite String.eqb_refl. reflexivity.
    + apply getField_rewritten_none. intros v'' Hin'.
      rewrite (Huniq v'') by (right; exact Hin'). exact E.
  - assert (Hrest : getField k (rewriteFields slot fields) = slot v).
    { apply IH.
      - intros v'' Hin'. apply Huniq. right. exact Hin'.
      - destruct Hin as [Heq|Hin]; [inversion Heq; subst; contradiction | exact Hin]. }
    destruct (slot v'); [|exact Hrest].
    cbn [getField]. destruct (String.eqb_spec k k'); [contradiction | exact Hrest].
Qed.

Lemma optField_In (cond : bool) (k k' : string) (v v' : value) :
  In (k', v') (optField cond k v) -> cond = true /\ k' = k /\ v' = v.
Proof.
  destruct cond; cbn [optField In]; [|intros []].
  intros [H|[]]. inversion H. auto.
Qed.

Ltac in_block := solve [cbn [In]; repeat first [left; reflexivity | right]].

Ltac find_member :=
  repeat first [ apply in_or_app; left; in_block | apply in_or_app; right ];
  try in_block.

Ltac other_members :=
  repeat match goal with
    | H : In _ (_ ++ _) |- _ => apply in_app_or in H; destruct H as [H|H]
    | H : In _ (optField _ _ _) |- _ =>
        apply optField_In in H; destruct H as (_ & H & ?); try discriminate H
    | H : In _ (_ :: _) |- _ => destruct H as [H|H]; [try (inversion H; fail)|]
    | H : In _ [] |- _ => destruct H
    end.

Lemma generation_in_table (dexId : Z) : In (getGenerationByDexId dexId) GENERATION_RANGES.
Proof.
  unfold getGenerationByDexId.
  destruct (find (fun range => dexId <=? maxDex range) GENERATION_RANGES) eqn:E.
  - apply find_some in E. exact (proj1 E).
  - cbn. repeat first [left; reflexivity | right].
Qed.

Lemma generation_named (dexId : Z) :
  Js.truthy (gen_id (getGenerationByDexId dexId)) = true /\
  Js.truthy (displayName (getGenerationByDexId dexId)) = true /\
  Js.truthy (setCode (getGenerationByDexId dexId)) = true.
Proof.
  pose proof (generation_in_table dexId) as H.
  cbn [GENERATION_RANGES In] in H.
  repeat (destruct H as [<-|H]; [repeat split|]). destruct H.
Qed.

Lemma rarity_named (stats : list PokeApiStat) :
  In (getRarityFromStats stats) ["Common"; "Uncommon"; "Rare"; "Epic"; "Legendary"].
Proof.
  unfold getRarityFromStats. cbv zeta.
  repeat match goal with |- context [if ?c then _ else _] => destruct c end;
    cbn [In]; auto 10.
Qed.

Lemma orString_truthy (a : option string) (b : string) :
  Js.truthy b = true -> Js.truthy (orString a b) = true.
Proof.
  intros Hb. unfold orString. destruct a as [x|]; [|exact Hb].
  destruct (Js.truthy x) eqn:E; [exact E | exact Hb].
Qed.

Lemma candidate_member (pokemon : PokeApiPokemon) (k : string) (v : value) :
  (forall v', In (k, v') (candidateFields pokemon) -> v' = v) ->
  In (k, v) (candidateFields pokemon) ->
  member k (mapPokemonToCard pokemon) = stripSlot stripEmpty v.
Proof.
  intros Huniq Hin. unfold mapPokemonToCard.
  unfold candidateFields, candidateCard in *. cbv zeta in *. cbn [stripEmpty member].
  apply getField_rewritten; assumption.
Qed.

Ltac candidate_unique :=
  let v' := fresh "v'" in
  let H := fresh "H" in
  unfold candidateFields, candidateCard; cbv zeta;
  intros v' H; other_members; inversion H; reflexivity.

Ltac candidate_has :=
  unfold candidateFields, candidateCard; cbv zeta; find_member.

Lemma stripSlot_string (s : string) :
  Js.truthy s = true -> stripSlot stripEmpty (VStr s) = Some (VStr s).
Proof. intros Hs. cbn [stripSlot isEmptyValue]. rewrite Hs. reflexivity. Qed.

Lemma rarity_member (pokemon : PokeApiPokemon) :
  member "rarity" (mapPokemonToCard pokemon) = Some (VStr (getRarityFromStats (stats pokemon))).
Proof.
  rewrite (candidate_member pokemon "rarity" (VStr (getRarityFromStats (stats pokemon))));
    [ | candidate_unique | candidate_has ].
  apply stripSlot_string.
  pose proof (rarity_named (stats pokemon)) as H. cbn [In] in H.
  repeat (destruct H as [<-|H]; [reflexivity|]). destruct H.
Qed.

Lemma set_member (pokemon : PokeApiPokemon) :
  let generation := getGenerationByDexId (pokemon_id pokemon) in
  member "set" (mapPokemonToCard pokemon)
  = Some (VObj [("id", VStr (gen_id generation)); ("name", VStr (displayName generation))]).
Proof.
  intros generation.
  destruct (generation_named (pokemon_id pokemon)) as (Hgid & Hgname & _).
  fold generation in Hgid, Hgname.
  rewrite (candidate_member pokemon "set"
             (VObj [("id", VStr (gen_id generation));
                    ("name", VStr (displayName generation));
                    ("logo", VStr "")]));
    [ | candidate_unique | candidate_has ].
  unfold stripSlot. cbn [stripEmpty rewriteFields stripSlot isEmptyValue].
  rewrite Hgid, Hgname. reflexivity.
Qed.

Lemma serie_member (pokemon : PokeApiPokemon) :
  let generation := getGenerationByDexId (pokemon_id pokemon) in
  member "serie" (mapPokemonToCard pokemon)
  = Some (VObj [("id", VStr (gen_id generation)); ("name", VStr (displayName generation))]).
Proof.
  intros generation.
  destruct (generation_named (pokemon_id pokemon)) as (Hgid & Hgname & _).
  fold generation in Hgid, Hgname.
  rewrite (candidate_member pokemon "serie"
             (VObj [("id", VStr (gen_id generation));
                    ("name", VStr (displayName generation))]));
    [ | candidate_unique | candidate_has ].
  unfold stripSlot. cbn [stripEmpty rewriteFields stripSlot isEmptyValue].
  rewrite Hgid, Hgname. reflexivity.
Qed.

(** X10. Whatever the raw record holds, the normalized card has its id,
    localId and number (the decimal id), a non-empty image and imageHiRes,
    its rarity, its category, its dexId, and its set and serie with id and
    name; it has a name exactly when the raw name holds something besides
    separators.  It never has subtypes, weaknesses, resistances,
    evolvesFrom, evolvesTo or regulationMark, and the set never has a
    logo. *)
Theorem normalized_card_members (pokemon : PokeApiPokemon) :
  let card := mapPokemonToCard pokemon in
  let generation := getGenerationByDexId (pokemon_id pokemon) in
  let idString := VStr (Js.ofInt (pokemon_id pokemon)) in
  let name := toTitleCase (pokemon_name pokemon) in
  member "id" card = Some idString /\
  member "localId" card = Some idString /\
  member "number" card = Some idString /\
  (exists image, member "image" card = Some (VStr image) /\ image <> "") /\
  (exists image, member "imageHiRes" card = Some (VStr image) /\ image <> "") /\
  member "rarity" card = Some (VStr (getRarityFromStats (stats pokemon))) /\
  member "category" card = Some (VStr "Pokemon") /\
  member "dexId" card = Some (VArr [Some (VNum (pokemon_id pokemon))]) /\
  member "set" card = Some (VObj [("id", VStr (gen_id generation));
                                  ("name", VStr (displayName generation))]) /\
  member "serie" card = Some (VObj [("id", VStr (gen_id generation));
                                    ("name", VStr (displayName generation))]) /\
  member "name" card = (if Js.truthy name then Some (VStr name) else None) /\
  (forall k, In k ["subtypes"; "weaknesses"; "resistances"; "evolvesFrom"; "evolvesTo";
                   "regulationMark"] -> member k card = None).
Proof.
  intros card generation idString name. subst card.
  assert (Hart : Js.truthy (orString (officialArtworkOf (sprites pokemon))
                                     (officialArtFallback (pokemon_id pokemon))) = true).
  { apply orString_truthy. reflexivity. }
  assert (Himg : Js.truthy (orString (front_default (sprites pokemon))
                   (orString (officialArtworkOf (sprites pokemon))
                             (officialArtFallback (pokemon_id pokemon)))) = true).
  { apply orString_truthy. exact Hart. }
  repeat match goal with |- _ /\ _ => split end.
  - rewrite (candidate_member pokemon "id" idString); [ | candidate_unique | candidate_has ].
    apply stripSlot_string, ofInt_truthy.
  - rewrite (candidate_member pokemon "localId" idString); [ | candidate_unique | candidate_has ].
    apply stripSlot_string, ofInt_truthy.
  - rewrite (candidate_member pokemon "number" idString); [ | candidate_unique | candidate_has ].
    apply stripSlot_string, ofInt_truthy.
  - exists (orString (front_default (sprites pokemon))
              (orString (officialArtworkOf (sprites pokemon))
                        (officialArtFallback (pokemon_id pokemon)))). split.
    + rewrite (candidate_member pokemon "image"
                 (VStr (orString (front_default (sprites pokemon))
                          (orString (officialArtworkOf (sprites pokemon))
                                    (officialArtFallback (pokemon_id pokemon))))));
        [ | candidate_unique | candidate_has ].
      apply stripSlot_string, Himg.
    + intros E. rewrite E in Himg. discriminate Himg.
  - exists (orString (officialArtworkOf (sprites pokemon))
                     (officialArtFallback (pokemon_id pokemon))). split.
    + rewrite (candidate_member pokemon "imageHiRes"
                 (VStr (orString (officialArtworkOf (sprites pokemon))
                                 (officialArtFallback (pokemon_id pokemon)))));
        [ | candidate_unique | candidate_has ].
      apply stripSlot_string, Hart.
    + intros E. rewrite E in Hart. discriminate Hart.
  - apply rarity_member.
  - rewrite (candidate_member pokemon "category" (VStr "Pokemon")); [ | candidate_unique | candidate_has ].
    reflexivity.
  - rewrite (candidate_member pokemon "dexId" (VArr [Some (VNum (pokemon_id pokemon))]));
      [ | candidate_unique | candidate_has ].
    reflexivity.
  - apply set_member.
  - apply serie_member.
  - rewrite (candidate_member pokemon "name" (VStr name)); [ | candidate_unique | candidate_has ].
    cbn [stripSlot isEmptyValue]. destruct (Js.truthy name); reflexivity.
  - intros k Hk. unfold mapPokemonToCard, candidateCard. cbv zeta.
    cbn [stripEmpty member]. apply getField_rewritten_none. intros v H.
    cbn [In] in Hk.
    repeat (destruct Hk as [<-|Hk]; [other_members; inversion H; reflexivity|]). destruct Hk.
Qed.

Lemma stringMember_member (k : string) (card : value) :
  stringMember k card = match member k card with Some (VStr x) => Some x | _ => None end.
Proof. destruct card; reflexivity. Qed.

Lemma hp_member (pokemon : PokeApiPokemon) :
  let hp := getStat (stats pokemon) "hp" in
  stringMember "hp" (mapPokemonToCard pokemon)
  = if hp =? 0 then None else Some (Js.ofInt hp).
Proof.
  intros hp. rewrite stringMember_member.
  unfold mapPokemonToCard, candidateCard. cbv zeta. cbn [stripEmpty member]. fold hp.
  destruct (hp =? 0) eqn:E.
  - rewrite getField_rewritten_none; [reflexivity|].
    intros v H.
    repeat match goal with
      | H : In _ (_ ++ _) |- _ => apply in_app_or in H; destruct H as [H|H]
      | H : In _ (optField _ _ _) |- _ =>
          let Hc := fresh "Hc" in
          apply optField_In in H; destruct H as (Hc & H & ?); try discriminate H
      | H : In _ (_ :: _) |- _ => destruct H as [H|H]; [try (inversion H; fail)|]
      | H : In _ [] |- _ => destruct H
      end.
    discriminate Hc.
  - rewrite (getField_rewritten _ "hp" (VStr (Js.ofInt hp)));
      [cbn [stripSlot isEmptyValue]; rewrite ofInt_truthy; reflexivity | | ].
    + intros v' H. other_members. congruence.
    + apply in_or_app. right. apply in_or_app. left. left. reflexivity.
Qed.

(** X11. The hp that the views read back from a normalized card is the hp
    base stat of the raw record, 0 when the record has no hp stat: the card
    carries the stat as a decimal string, or no hp at all when the stat is
    0, and the views parse it with the fallback 0.  The hp range of the
    filter is therefore a test on the base stat. *)
Theorem normalized_hp_read_back (pokemon : PokeApiPokemon) (card : PokemonCard)
  (filters : FilterOptions) :
  card_hp card = stringMember "hp" (mapPokemonToCard pokemon) ->
  hpOf card = getStat (stats pokemon) "hp" /\
  (card_hp card = None <-> getStat (stats pokemon) "hp" = 0) /\
  (matchesHp filters card = true <->
   hp_min (hpRange filters) <= getStat (stats pokemon) "hp" <= hp_max (hpRange filters)).
Proof.
  intros Hcard. rewrite hp_member in Hcard. cbv zeta in Hcard.
  assert (Hhp : hpOf card = getStat (stats pokemon) "hp").
  { unfold hpOf. rewrite Hcard.
    destruct (Z.eqb_spec (getStat (stats pokemon) "hp") 0) as [E|E].
    - rewrite E. reflexivity.
    - unfold orString. rewrite ofInt_truthy, parseInt10_ofInt. reflexivity. }
  split; [exact Hhp|]. split.
  - rewrite Hcard. destruct (Z.eqb_spec (getStat (stats pokemon) "hp") 0) as [E|E].
    + tauto.
    + split; [discriminate | contradiction].
  - unfold matchesHp. cbv zeta. rewrite Hhp, andb_true_iff, !Z.leb_le. reflexivity.
Qed.

Lemma normalized_hp_read_back_witness :
  hpOf (sampleCard "Bulbasaur" "Generation I" ["Grass"; "Poison"] (Some "45")) = 45.
Proof.
  exact (proj1 (normalized_hp_read_back bulbasaur
                  (sampleCard "Bulbasaur" "Generation I" ["Grass"; "Poison"] (Some "45"))
                  clearedFilters eq_refl)).
Defined.

(** ** The tables of the views against the normalizer *)

Lemma rarity_rank (stats : list PokeApiStat) :
  let total := sumStats stats in
  exists i, rankOf RARITY_ORDER (Js.toLowerCase (getRarityFromStats stats)) = KNum i /\
    ((total < 380 /\ i = 0) \/ (380 <= total < 450 /\ i = 1) \/
     (450 <= total < 520 /\ i = 2) \/ (520 <= total < 600 /\ i = 3) \/
     (600 <= total /\ i = 4)).
Proof.
  intros total. unfold getRarityFromStats. fold total.
  destruct (Z.leb_spec 600 total); [exists 4; split; [reflexivity | lia]|].
  destruct (Z.leb_spec 520 total); [exists 3; split; [reflexivity | lia]|].
  destruct (Z.leb_spec 450 total); [exists 2; split; [reflexivity | lia]|].
  destruct (Z.leb_spec 380 total); [exists 1; split; [reflexivity | lia]|].
  exists 0. split; [reflexivity | lia].
Qed.

Lemma rarity_read (pokemon : PokeApiPokemon) (card : PokemonCard) :
  card_rarity card = stringMember "rarity" (mapPokemonToCard pokemon) ->
  rarityKey card = Js.toLowerCase (getRarityFromStats (stats pokemon)).
Proof.
  intros H. rewrite stringMember_member, rarity_member in H.
  unfold rarityKey. rewrite H. reflexivity.
Qed.

(** X12. The rarity table of the views ranks every rarity the normalizer
    can assign, in the order of the thresholds: of two normalized cards the
    one with the smaller sum of base stats has the smaller or the same
    rank, both ranks lie between 0 and 4, and the comparator of the sort by
    rarity returns their difference. *)
Theorem rarity_rank_follows_total (localeCompare : string -> string -> Z)
  (pa pb : PokeApiPokemon) (ca cb : PokemonCard) :
  card_rarity ca = stringMember "rarity" (mapPokemonToCard pa) ->
  card_rarity cb = stringMember "rarity" (mapPokemonToCard pb) ->
  sumStats (stats pa) <= sumStats (stats pb) ->
  exists i j,
    rankOf RARITY_ORDER (rarityKey ca) = KNum i /\
    rankOf RARITY_ORDER (rarityKey cb) = KNum j /\
    0 <= i /\ i <= j /\ j <= 4 /\
    compareCards localeCompare SortRarity Asc ca cb = Some (i - j) /\
    compareCards localeCompare SortRarity Desc ca cb = Some (j - i).
Proof.
  intros Ha Hb Hle.
  apply rarity_read in Ha. apply rarity_read in Hb.
  destruct (rarity_rank (stats pa)) as (i & Hi & Ci).
  destruct (rarity_rank (stats pb)) as (j & Hj & Cj).
  cbv zeta in Ci, Cj.
  exists i, j. rewrite Ha, Hb.
  split; [exact Hi|]. split; [exact Hj|].
  split; [lia|]. split; [lia|]. split; [lia|].
  unfold compareCards. rewrite Ha, Hb, Hi, Hj. split; reflexivity.
Qed.

Lemma rarity_rank_follows_total_witness :
  compareCards ordinalCompare SortRarity Asc cardBulbasaur cardBulbasaur = Some 0.
Proof.
  destruct (rarity_rank_follows_total ordinalCompare bulbasaur bulbasaur
              cardBulbasaur cardBulbasaur eq_refl eq_refl)
    as (i & j & Hi & Hj & _ & _ & _ & H & _).
  - lia.
  - rewrite H. rewrite Hi in Hj. injection Hj as <-. f_equal. lia.
Defined.

Lemma generation_rank (dexId : Z) :
  exists i,
    rankOf GENERATION_ORDER (Js.toLowerCase (displayName (getGenerationByDexId dexId))) = KNum i /\
    ((dexId <= 151 /\ i = 0) \/ (151 < dexId <= 251 /\ i = 1) \/
     (251 < dexId <= 386 /\ i = 2) \/ (386 < dexId <= 493 /\ i = 3) \/
     (493 < dexId <= 649 /\ i = 4) \/ (649 < dexId <= 721 /\ i = 5) \/
     (721 < dexId <= 809 /\ i = 6) \/ (809 < dexId <= 905 /\ i = 7) \/
     (905 < dexId /\ i = 8)).
Proof.
  destruct (find_generation dexId) as (H0 & H1 & H2 & H3 & H4 & H5 & H6 & H7 & H8).
  destruct (Z_le_gt_dec dexId 151); [exists 0; rewrite H0 by lia; split; [reflexivity | lia]|].
  destruct (Z_le_gt_dec dexId 251); [exists 1; rewrite H1 by lia; split; [reflexivity | lia]|].
  destruct (Z_le_gt_dec dexId 386); [exists 2; rewrite H2 by lia; split; [reflexivity | lia]|].
  destruct (Z_le_gt_dec dexId 493); [exists 3; rewrite H3 by lia; split; [reflexivity | lia]|].
  destruct (Z_le_gt_dec dexId 649); [exists 4; rewrite H4 by lia; split; [reflexivity | lia]|].
  destruct (Z_le_gt_dec dexId 721); [exists 5; rewrite H5 by lia; split; [reflexivity | lia]|].
  destruct (Z_le_gt_dec dexId 809); [exists 6; rewrite H6 by lia; split; [reflexivity | lia]|].
  destruct (Z_le_gt_dec dexId 905); [exists 7; rewrite H7 by lia; split; [reflexivity | lia]|].
  exists 8. rewrite H8 by lia. split; [reflexivity | lia].
Qed.

Lemma set_name_read (pokemon : PokeApiPokemon) (name : string) :
  member "set" (mapPokemonToCard pokemon) ≫= member "name" = Some (VStr name) ->
  name = displayName (getGenerationByDexId (pokemon_id pokemon)).
Proof.
  rewrite set_member. cbv zeta. cbn. intros H. injection H as <-. reflexivity.
Qed.

Lemma serie_name_read (pokemon : PokeApiPokemon) (name : string) :
  member "serie" (mapPokemonToCard pokemon) ≫= member "name" = Some (VStr name) ->
  name = displayName (getGenerationByDexId (pokemon_id pokemon)).
Proof.
  rewrite serie_member. cbv zeta. cbn. intros H. injection H as <-. reflexivity.
Qed.

(** X13. The generation table of the views ranks every generation the
    normalizer can assign, in dex order: of two normalized cards the one
    with the smaller id has the smaller or the same rank, both ranks lie
    between 0 and 8, and when the ranks differ the comparator of the sort
    by set returns their difference. *)
Theorem generation_rank_follows_dex (localeCompare : string -> string -> Z)
  (pa pb : PokeApiPokemon) (ca cb : PokemonCard) :
  member "set" (mapPokemonToCard pa) ≫= member "name" = Some (VStr (set_name (card_set ca))) ->
  member "set" (mapPokemonToCard pb) ≫= member "name" = Some (VStr (set_name (card_set cb))) ->
  pokemon_id pa <= pokemon_id pb ->
  exists i j,
    setRank ca = KNum i /\ setRank cb = KNum j /\
    0 <= i /\ i <= j /\ j <= 8 /\
    (i < j ->
     compareCards localeCompare SortSet Asc ca cb = Some (i - j) /\
     compareCards localeCompare SortSet Desc ca cb = Some (j - i)).
Proof.
  intros Ha Hb Hle.
  apply set_name_read in Ha. apply set_name_read in Hb.
  destruct (generation_rank (pokemon_id pa)) as (i & Hi & Ci).
  destruct (generation_rank (pokemon_id pb)) as (j & Hj & Cj).
  assert (Hra : setRank ca = KNum i) by (unfold setRank, setKey; rewrite Ha; exact Hi).
  assert (Hrb : setRank cb = KNum j) by (unfold setRank, setKey; rewrite Hb; exact Hj).
  exists i, j.
  split; [exact Hra|]. split; [exact Hrb|].
  split; [lia|]. split; [lia|]. split; [lia|].
  intros Hlt. unfold compareCards. cbv zeta. rewrite Hra, Hrb. cbn [sameKey].
  destruct (Z.eqb_spec i j) as [E|_]; [lia|]. split; reflexivity.
Qed.

Lemma generation_rank_follows_dex_witness :
  setRank cardBulbasaur = KNum 0.
Proof.
  destruct (generation_rank_follows_dex ordinalCompare bulbasaur bulbasaur
              cardBulbasaur cardBulbasaur eq_refl eq_refl)
    as (i & j & Hi & _).
  - lia.
  - vm_compute in Hi. injection Hi as <-. reflexivity.
Defined.

(** X14. The generation labels the filter offers are the title-cased names
    of the remote source ([Generation Ii] for [generation-ii]); except for
    generations I and V they equal the name the normalizer gives the
    generation only up to case.  As the series test ignores case, selecting
    the label of a generation keeps exactly the normalized cards of that
    generation. *)
Theorem generation_label_selects (pokemon : PokeApiPokemon) (card : PokemonCard)
  (range : GenerationRange) (filters : FilterOptions) :
  In range GENERATION_RANGES ->
  member "set" (mapPokemonToCard pokemon) ≫= member "name"
  = Some (VStr (set_name (card_set card))) ->
  member "serie" (mapPokemonToCard pokemon) ≫= member "name"
  = Some (VStr (serie_name (card_serie card))) ->
  let label := toTitleCase (gen_id range) in
  sameIgnoringCase label (displayName range) /\
  (matchesSeries (handleSingleSelect SelectSeries (Some label) filters) card = true
   <-> range = getGenerationByDexId (pokemon_id pokemon)) /\
  (label = displayName range <-> maxDex range = 151 \/ maxDex range = 649) /\
  (forall net s items,
     answerGeneration net (length (requestLog s)) = Resolved items ->
     In (gen_id range) (map item_name items) ->
     exists labels, fst (fetchGenerations net s) = Resolved labels /\ In label labels).
Proof.
  intros Hrange Hset Hserie label.
  assert (Hoffered : forall net s items,
            answerGeneration net (length (requestLog s)) = Resolved items ->
            In (gen_id range) (map item_name items) ->
            exists labels, fst (fetchGenerations net s) = Resolved labels /\ In label labels).
  { intros net s items Hnet Hin. unfold fetchGenerations. cbv zeta. rewrite Hnet.
    eexists. split; [reflexivity|].
    apply in_map_iff in Hin. destruct Hin as (item & Hname & Hin).
    apply in_map_iff. exists item. subst label. rewrite Hname. split; [reflexivity | exact Hin]. }
  cut (sameIgnoringCase label (displayName range) /\
       (matchesSeries (handleSingleSelect SelectSeries (Some label) filters) card = true
        <-> range = getGenerationByDexId (pokemon_id pokemon)) /\
       (label = displayName range <-> maxDex range = 151 \/ maxDex range = 649)).
  { intros (H1 & H2 & H3). repeat split; try assumption; try apply H2; try apply H3. }
  clear Hoffered.
  apply set_name_read in Hset. apply serie_name_read in Hserie.
  pose proof (generation_in_table (pokemon_id pokemon)) as Hgen.
  unfold matchesSeries, handleSingleSelect, withSeries. cbn [filter_series].
  rewrite Hset, Hserie. subst label.
  cbn [GENERATION_RANGES In] in Hrange, Hgen.
  repeat (destruct Hrange as [<-|Hrange];
          [split; [vm_compute; reflexivity|];
           (split; [|vm_compute; split;
                     [intros H; first [left; reflexivity | right; reflexivity | discriminate H]
                     |intros [H|H]; first [reflexivity | discriminate H]]]);
           repeat (destruct Hgen as [E|Hgen];
                   [rewrite <- E; vm_compute; split; intros H;
                    first [reflexivity | discriminate H]|]);
           destruct Hgen|]).
  destruct Hrange.
Qed.

Lemma generation_label_selects_witness :
  matchesSeries (handleSingleSelect SelectSeries (Some "Generation I") clearedFilters)
                cardBulbasaur = true.
Proof.
  refine (proj2 (proj1 (proj2 (generation_label_selects bulbasaur cardBulbasaur
             (nth 0 GENERATION_RANGES lastGeneration) clearedFilters _ eq_refl eq_refl))) eq_refl).
  left. reflexivity.
Defined.

(** ** The loader of all entities *)






Lemma allCallers_joined (n : nat) (st : Service * AllPokemon) :
  allPokemonCache (snd st) = None -> allPokemonPromise (snd st) = true ->
  allCallers n st = (repeat AllJoined n, st).
Proof.
  intros Hc Hp. induction n as [|n IH]; cbn [allCallers repeat]; [reflexivity|].
  unfold fetchAllPokemon_call. rewrite Hc, Hp, IH. reflexivity.
Qed.

Lemma fetchPokemonIndex_call_log (s : Service) :
  (length (requestLog (snd (fetchPokemonIndex_call s))) <= length (requestLog s) + 1)%nat /\
  (pokemonIndexCache s = None -> pokemonIndexPromise s = None ->
   requestLog (snd (fetchPokemonIndex_call s))
   = requestLog s ++ [GetPokemonList 0 POKEMON_INDEX_LIMIT]).
Proof.
  split.
  - unfold fetchPokemonIndex_call.
    destruct (pokemonIndexCache s); [cbn; lia|].
    destruct (pokemonIndexPromise s); [cbn; lia|].
    cbn. rewrite length_app. cbn. lia.
  - intros Hc Hp. rewrite (first_caller s Hc Hp). reflexivity.
Qed.

(** X16. [fetchAllPokemon] is single-flight and remembers only success.
    Of any number of calls made while nothing is cached and before the load
    settles, the first starts the load and every other one joins it, so at
    most one listing request is issued (exactly one when the index is cold
    too).  Once the load has resolved, even to no card at all, every call
    returns the cached cards without starting anything; once it has
    rejected, nothing is cached and the next call starts a new load. *)
Theorem fetchAllPokemon_single_flight (n : nat) (s : Service) (a : AllPokemon) :
  allPokemonCache a = None -> allPokemonPromise a = false ->
  (exists h st',
     allCallers (S n) (s, a) = (AllStarted h :: repeat AllJoined n, st') /\
     allPokemonPromise (snd st') = true /\ allPokemonCache (snd st') = None /\
     (length (requestLog (fst st')) <= length (requestLog s) + 1)%nat /\
     (pokemonIndexCache s = None -> pokemonIndexPromise s = None ->
      requestLog (fst st') = requestLog s ++ [GetPokemonList 0 POKEMON_INDEX_LIMIT])) /\
  (forall cards a' s' m,
     fetchAllPokemon_settle (Resolved cards) a' = (Resolved cards,
       {| allPokemonCache := Some cards; allPokemonPromise := false |}) /\
     allCallers m (s', {| allPokemonCache := Some cards; allPokemonPromise := false |})
     = (repeat (AllReady cards) m,
        (s', {| allPokemonCache := Some cards; allPokemonPromise := false |}))) /\
  (forall message a' s',
     fetchAllPokemon_settle (Rejected message) a' = (Rejected message, coldAll) /\
     exists h st', fetchAllPokemon_call (s', coldAll) = (AllStarted h, st') /\
                   allPokemonPromise (snd st') = true).
Proof.
  intros Hc Hp. split; [|split].
  - cbn [allCallers]. unfold fetchAllPokemon_call. cbn [fst snd]. rewrite Hc, Hp.
    destruct (fetchPokemonIndex_call s) as [h s1] eqn:E.
    rewrite allCallers_joined by reflexivity.
    exists h, (s1, {| allPokemonCache := None; allPokemonPromise := true |}).
    split; [reflexivity|]. split; [reflexivity|]. split; [reflexivity|].
    cbn [fst]. pose proof (fetchPokemonIndex_call_log s) as [Hle Heq].
    rewrite E in Hle, Heq. cbn [snd] in Hle, Heq. split; assumption.
  - intros cards a' s' m. split; [reflexivity|].
    induction m as [|m IH]; cbn [allCallers repeat]; [reflexivity|].
    unfold fetchAllPokemon_call. cbn [snd allPokemonCache]. rewrite IH. reflexivity.
  - intros message a' s'. split; [reflexivity|].
    unfold fetchAllPokemon_call. cbn [fst snd coldAll allPokemonCache allPokemonPromise].
    destruct (fetchPokemonIndex_call s') as [h s1].
    eexists _, _. split; reflexivity.
Qed.

Lemma fetchAllPokemon_single_flight_witness :
  fst (allCallers 3 (coldService, coldAll))
  = [AllStarted (IndexPending 0); AllJoined; AllJoined] /\
  requestLog (fst (snd (allCallers 3 (coldService, coldAll))))
  = [GetPokemonList 0 POKEMON_INDEX_LIMIT].
Proof.
  destruct (fetchAllPokemon_single_flight 2 coldService coldAll eq_refl eq_refl)
    as ((h & st' & Hrun & _ & _ & _ & Hlog) & _).
  split.
  - reflexivity.
  - rewrite Hrun. cbn [snd]. rewrite Hlog by reflexivity. reflexivity.
Defined.

(** ** Searches and the index *)

(** X17. The listing is downloaded once for all searches.  A search that
    finds the index cold issues one listing request, followed by detail
    requests only.  When that request is answered the listing is cached,
    and every later search, whatever its query and whatever the network
    would answer now, issues no listing request and leaves the index cache
    and the pending index load as they are, issuing detail requests only;
    it resolves when its query is blank or every card found has a name,
    and it rejects only over a card without a name.  When the listing
    request fails nothing is kept, so the next search with a query asks for
    the listing again. *)
Theorem search_reuses_index (localeCompare : string -> string -> Z) (net : Network)
  (schedule : list nat) (query : string) (s : Service) :
  pokemonIndexCache s = None -> pokemonIndexPromise s = None ->
  Js.trim query <> "" ->
  let s1 := snd (searchPokemon localeCompare net schedule query s) in
  (exists details,
     requestLog s1 = requestLog s ++ GetPokemonList 0 POKEMON_INDEX_LIMIT :: details /\
     forallb isDetailRequest details = true) /\
  (forall response,
     answerList net (length (requestLog s)) 0 POKEMON_INDEX_LIMIT = Resolved response ->
     pokemonIndexCache s1 = Some (results response) /\
     pokemonIndexPromise s1 = None /\
     forall localeCompare' net' schedule' query',
       let later := searchPokemon localeCompare' net' schedule' query' s1 in
       let found :=
         fst (Live.fetchPokemonDetailsBatch net' schedule'
                (List.filter (matchesQuery (Js.toLowerCase (Js.trim query')))
                             (results response)) s1) in
       detailsOnly s1 (snd later) /\
       (Js.trim query' = "" \/ Forall (fun card => hasName card = true) found ->
        exists cards, fst later = Resolved cards) /\
       (forall message,
          fst later = Rejected message ->
          message = "Failed to search pokemon" /\ Js.trim query' <> "" /\
          Exists (fun card => hasName card = false) found)) /\
  (forall message,
     answerList net (length (requestLog s)) 0 POKEMON_INDEX_LIMIT = Rejected message ->
     s1 = logRequest (GetPokemonList 0 POKEMON_INDEX_LIMIT) s /\
     forall localeCompare' net' schedule' query',
       Js.trim query' <> "" ->
       exists details,
         requestLog (snd (searchPokemon localeCompare' net' schedule' query' s1))
         = requestLog s ++ GetPokemonList 0 POKEMON_INDEX_LIMIT
                        :: GetPokemonList 0 POKEMON_INDEX_LIMIT :: details /\
         forallb isDetailRequest details = true).
Proof.
  intros Hc Hp Hq s1.
  assert (Hnormal : forall q, Js.trim q <> "" -> Js.toLowerCase (Js.trim q) <> "").
  { intros q H E. apply H. apply normalized_blank. exact E. }
  assert (Hcold : forall lc nt sch q (t : Service),
            pokemonIndexCache t = None -> pokemonIndexPromise t = None -> Js.trim q <> "" ->
            let t1 := snd (searchPokemon lc nt sch q t) in
            match answerList nt (length (requestLog t)) 0 POKEMON_INDEX_LIMIT with
            | Resolved response =>
                detailsOnly (setIndex (Some (results response)) None
                               (logRequest (GetPokemonList 0 POKEMON_INDEX_LIMIT) t)) t1
            | Rejected _ => t1 = logRequest (GetPokemonList 0 POKEMON_INDEX_LIMIT) t
            end).
  { intros lc nt sch q t Htc Htp Htq t1.
    destruct (answerList nt (length (requestLog t)) 0 POKEMON_INDEX_LIMIT)
      as [response|message] eqn:Hnet.
    - pose proof (searchPokemon_run lc nt sch q t _ _ (Hnormal q Htq)
                    (fetchPokemonIndex_answered nt t response Htc Htp Hnet)) as Hrun.
      cbv zeta in Hrun. subst t1. rewrite Hrun.
      match goal with
      | |- context [Live.fetchPokemonDetailsBatch ?n ?sc ?items ?st] =>
          destruct (live_batch n sc items st) as [Hgrow _]
      end.
      destruct (arraySortThrowing _ _); exact Hgrow.
    - subst t1. unfold searchPokemon.
      destruct (Js.toLowerCase (Js.trim q)) as [|c rest] eqn:E;
        [exfalso; exact (Hnormal q Htq E)|].
      cbn [Js.truthy negb]. rewrite (fetchPokemonIndex_failure nt t message Htc Htp Hnet).
      reflexivity. }
  pose proof (Hcold localeCompare net schedule query s Hc Hp Hq) as Hfirst.
  cbv zeta in Hfirst. fold s1 in Hfirst.
  split; [|split].
  - destruct (answerList net (length (requestLog s)) 0 POKEMON_INDEX_LIMIT) as [response|message].
    + destruct Hfirst as (_ & _ & details & Hlog & Hdetails). exists details.
      split; [|exact Hdetails]. rewrite Hlog. destruct s as [c ic ip log]; cbn.
      rewrite <- app_assoc. reflexivity.
    + exists []. split; [|reflexivity]. rewrite Hfirst. reflexivity.
  - intros response Hnet. rewrite Hnet in Hfirst.
    destruct Hfirst as (Hcache & Hpromise & _).
    assert (Hwarm : pokemonIndexCache s1 = Some (results response)).
    { rewrite Hcache. destruct s as [c ic ip log]; reflexivity. }
    split; [exact Hwarm|]. split; [rewrite Hpromise; destruct s as [c ic ip log]; reflexivity|].
    intros localeCompare' net' schedule' query' later found.
    destruct (Js.toLowerCase (Js.trim query')) as [|c rest] eqn:E.
    + assert (Hlater : later = (Resolved [], s1)).
      { subst later. unfold searchPokemon. rewrite E. reflexivity. }
      rewrite Hlater. cbn [fst snd]. split; [apply detailsOnly_refl|]. split.
      * intros _. exists []. reflexivity.
      * intros message H. discriminate H.
    + assert (Hq' : Js.toLowerCase (Js.trim query') <> "") by (rewrite E; discriminate).
      assert (Ht' : Js.trim query' <> "").
      { intros H. apply Hq'. apply normalized_blank. exact H. }
      pose proof (searchPokemon_run localeCompare' net' schedule' query' s1 s1 _ Hq'
                    (fetchPokemonIndex_warm net' s1 _ Hwarm)) as Hrun.
      cbv zeta in Hrun. rewrite E in Hrun.
      fold later in Hrun.
      destruct (live_batch net' schedule'
                  (List.filter (matchesQuery (String c rest)) (results response)) s1)
        as [Hgrow _].
      set (batch := Live.fetchPokemonDetailsBatch net' schedule'
                      (List.filter (matchesQuery (String c rest)) (results response)) s1)
        in *.
      change (fst batch) with found in Hrun.
      split; [|split].
      * rewrite Hrun. destruct (arraySortThrowing _ found); exact Hgrow.
      * intros [Hblank|Hnamed]; [contradiction|].
        destruct (arraySortThrowing_named localeCompare' found Hnamed) as (sorted & Hsort & _).
        rewrite Hsort in Hrun. exists sorted. rewrite Hrun. reflexivity.
      * intros message Hrej. rewrite Hrun in Hrej.
        destruct (arraySortThrowing (byName localeCompare') found) eqn:Hsort;
          cbn [fst] in Hrej; [discriminate Hrej|].
        inversion Hrej. split; [reflexivity|]. split; [exact Ht'|].
        exact (arraySortThrowing_throws localeCompare' found Hsort).
  - intros message Hnet. rewrite Hnet in Hfirst. split; [exact Hfirst|].
    intros localeCompare' net' schedule' query' Hq'.
    assert (Hc1 : pokemonIndexCache s1 = None) by (rewrite Hfirst; exact Hc).
    assert (Hp1 : pokemonIndexPromise s1 = None) by (rewrite Hfirst; exact Hp).
    pose proof (Hcold localeCompare' net' schedule' query' s1 Hc1 Hp1 Hq') as Hnext.
    cbv zeta in Hnext.
    destruct (answerList net' (length (requestLog s1)) 0 POKEMON_INDEX_LIMIT)
      as [response|message'].
    + destruct Hnext as (_ & _ & details & Hlog & Hdetails). exists details.
      split; [|exact Hdetails]. rewrite Hlog, Hfirst. cbn [setIndex logRequest requestLog].
      rewrite <- !app_assoc. reflexivity.
    + exists []. rewrite Hnext, Hfirst. cbn [logRequest requestLog].
      rewrite <- app_assoc. split; reflexivity.
Qed.

Lemma search_reuses_index_witness :
  let s1 := snd (searchPokemon ordinalCompare pokedex [] "saur" coldService) in
  pokemonIndexCache s1 = Some tenItems /\
  (exists cards,
     fst (searchPokemon ordinalCompare catalogue [] "char" s1) = Resolved cards) /\
  detailsOnly s1 (snd (searchPokemon ordinalCompare catalogue [] "char" s1)).
Proof.
  assert (Hq : Js.trim "saur" <> "") by discriminate.
  destruct (search_reuses_index ordinalCompare pokedex [] "saur" coldService
              eq_refl eq_refl Hq) as (_ & H & _).
  destruct (H {| results := tenItems; count := 10 |} eq_refl) as (Hcache & _ & Hlater).
  destruct (Hlater ordinalCompare catalogue [] "char") as (Hgrow & Hresolves & _).
  intros s1. split; [exact Hcache|]. split; [|exact Hgrow].
  apply Hresolves. right. vm_compute. repeat constructor.
Defined.

(** ** The provider ([PokemonContext.tsx]) *)

(** X18. [loadData] reports an error exactly when the load of the cards
    rejects: the type and generation lists cannot make it fail, a failed
    request of theirs leaving the corresponding list empty with no error
    shown.  When the load of the cards rejects, nothing is taken over: the
    cards, and the types, generations and rarities that did arrive, stay as
    they were before the call. *)
Theorem loadData_fails_only_with_cards (net : Network) (s1 s2 s3 : Service)
  (cardsData : Result (list value)) (st : ProviderState) :
  let final := loadData cardsData (fst (fetchTypes net s1)) (fst (fetchGenerations net s2))
                        (fst (fetchRarities s3)) st in
  ctx_loading final = false /\
  (ctx_error final = None <-> exists cards, cardsData = Resolved cards) /\
  (forall cards, cardsData = Resolved cards ->
     ctx_cards final = cards /\
     availableRarities final = ["Common"; "Uncommon"; "Rare"; "Epic"; "Legendary"] /\
     (forall message, answerType net (length (requestLog s1)) = Rejected message ->
                      availableTypes final = []) /\
     (forall items, answerType net (length (requestLog s1)) = Resolved items ->
                    availableTypes final = map (fun t => toTitleCase (item_name t)) items) /\
     (forall message, answerGeneration net (length (requestLog s2)) = Rejected message ->
                      availableGenerations final = []) /\
     (forall items, answerGeneration net (length (requestLog s2)) = Resolved items ->
                    availableGenerations final
                    = map (fun g => toTitleCase (item_name g)) items)) /\
  (forall message, cardsData = Rejected message ->
     ctx_error final = Some loadFailure /\
     ctx_cards final = ctx_cards st /\
     availableTypes final = availableTypes st /\
     availableGenerations final = availableGenerations st /\
     availableRarities final = availableRarities st).
Proof.
  intros final. subst final. unfold fetchTypes, fetchGenerations, fetchRarities. cbv zeta.
  destruct (answerType net (length (requestLog s1))) as [types|mt];
    destruct (answerGeneration net (length (requestLog s2))) as [gens|mg];
    destruct cardsData as [cards|mc]; cbn [fst loadData ctx_loading ctx_error ctx_cards
      availableTypes availableGenerations availableRarities];
    (split; [reflexivity|]);
    (split; [split; [intros H; first [eexists; reflexivity | discriminate H]
                    |intros [c H]; first [reflexivity | discriminate H]]|]);
    (split; [intros c H; first [discriminate H | injection H as <-];
             repeat split; intros x Hx; first [discriminate Hx | injection Hx as <-];
             reflexivity
            |intros m H; first [discriminate H | repeat split]]).
Qed.

(** ** The pool of the batch fetcher at any moment *)

Lemma countAwaiting_le (ws : list Worker) : (countAwaiting ws <= length ws)%nat.
Proof. induction ws as [|[i identifier|] ws IH]; cbn [countAwaiting length]; lia. Qed.

(** X19. At every moment of a batch, after any number of settlements in any
    order, at most [DETAIL_CONCURRENCY] fetches are in flight (and at most
    as many as there are items); no item is awaited by two workers; every
    fetch in flight is that of an item of the input, by its name, whose
    result slot is still [null]; and a slot that is filled holds the
    outcome of the fetch of its own item. *)
Theorem batch_concurrency_bound {Card : Type} (fetched : nat -> string -> option Card)
  (schedule : list nat) (fuel : nat) (items : list PokeApiListItem) :
  let p := drain fetched items fuel (fold_left (resume fetched items) schedule (startPool items)) in
  (countAwaiting (workers p) <= Nat.min DETAIL_CONCURRENCY (length items))%nat /\
  (forall j j' i identifier identifier',
     workers p !! j = Some (Awaiting i identifier) ->
     workers p !! j' = Some (Awaiting i identifier') -> j = j') /\
  (forall j i identifier,
     workers p !! j = Some (Awaiting i identifier) ->
     exists item, items !! i = Some item /\ identifier = item_name item /\
                  poolResults p !! i = Some None) /\
  (forall i card, poolResults p !! i = Some (Some card) ->
     exists item, items !! i = Some item /\ fetched i (item_name item) = Some card).
Proof.
  intros p.
  assert (Inv : PoolInv fetched items p).
  { subst p. apply drain_inv, run_inv. unfold startPool. apply spawn_inv, initial_inv. }
  assert (Hworkers : length (workers p) = Nat.min DETAIL_CONCURRENCY (length items)).
  { subst p. rewrite workers_drain, workers_run. unfold startPool.
    rewrite workers_spawn. reflexivity. }
  split; [|split; [|split]].
  - rewrite <- Hworkers. apply countAwaiting_le.
  - intros j j' i identifier identifier' Hj Hj'.
    exact (inv_distinct _ _ _ Inv j j' i identifier identifier' Hj Hj').
  - intros j i identifier Hj.
    destruct (inv_claimed _ _ _ Inv j i identifier Hj) as (_ & item & Hitem & Hname).
    exists item. split; [exact Hitem|]. split; [exact Hname|].
    apply (inv_unsettled _ _ _ Inv).
    + right. exists j, identifier. exact Hj.
    + apply lookup_lt_Some in Hitem. exact Hitem.
  - intros i card Hslot.
    assert (Hi : (i < length items)%nat).
    { rewrite <- (inv_length _ _ _ Inv). apply lookup_lt_Some in Hslot. exact Hslot. }
    destruct (lookup_lt_is_Some_2 items i Hi) as [item Hitem].
    exists item. split; [exact Hitem|].
    destruct (Nat.le_gt_cases (nextIndex p) i) as [Hge|Hlt].
    + rewrite (inv_unsettled _ _ _ Inv i (or_introl Hge) Hi) in Hslot. discriminate Hslot.
    + assert (Hnot : ~ awaited (workers p) i).
      { intros Haw.
        rewrite (inv_unsettled _ _ _ Inv i (or_intror Haw) Hi) in Hslot. discriminate Hslot. }
      rewrite (inv_settled _ _ _ Inv i item Hitem Hlt Hnot) in Hslot.
      injection Hslot as Hslot. exact Hslot.
Qed.

(** ** Moves made unique by name ([new Map(...).values()]) *)

Lemma mapSet_keys {V : Type} (k : string) (v : V) (m : list (string * V)) :
  map fst (mapSet k v m)
  = if in_dec string_dec k (map fst m) then map fst m else map fst m ++ [k].
Proof.
  induction m as [|[k' v'] m IH]; cbn [mapSet map fst]; [reflexivity|].
  destruct (String.eqb_spec k k') as [->|Hne].
  - cbn [map fst]. destruct (in_dec string_dec k' (k' :: map fst m)) as [_|Hn];
      [reflexivity | exfalso; apply Hn; left; reflexivity].
  - cbn [map fst]. rewrite IH.
    destruct (in_dec string_dec k (map fst m)) as [Hin|Hout];
      destruct (in_dec string_dec k (k' :: map fst m)) as [Hin'|Hout']; try reflexivity.
    + exfalso. apply Hout'. right. exact Hin.
    + exfalso. destruct Hin' as [E|Hin']; [apply Hne; symmetry; exact E | exact (Hout Hin')].
Qed.

Lemma mapSet_entries {V : Type} (k : string) (v : V) (m : list (string * V)) (k' : string)
  (v' : V) :
  List.NoDup (map fst m) ->
  In (k', v') (mapSet k v m) <-> (k' = k /\ v' = v) \/ (k' <> k /\ In (k', v') m).
Proof.
  induction m as [|[k0 v0] m IH]; intros Hnd; cbn [mapSet].
  - cbn [In]. split.
    + intros [H|[]]. inversion H. auto.
    + intros [[-> ->]|[_ []]]. left. reflexivity.
  - cbn [map fst] in Hnd. apply List.NoDup_cons_iff in Hnd. destruct Hnd as [Hk0 Hnd].
    destruct (String.eqb_spec k k0) as [<-|Hne]; cbn [In].
    + split.
      * intros [H|H]; [inversion H; auto|].
        right. split; [|right; exact H].
        intros ->. apply Hk0. apply in_map_iff. exists (k, v'). split; [reflexivity | exact H].
      * intros [[-> ->]|[Hne [H|H]]]; [left; reflexivity | | right; exact H].
        inversion H. subst. contradiction.
    + rewrite (IH Hnd). split.
      * intros [H|[[-> ->]|[Hne' H]]]; [|left; auto | right; split; [exact Hne' | right; exact H]].
        inversion H; subst. right. split; [intros E; apply Hne; symmetry; exact E | left; reflexivity].
      * intros [[-> ->]|[Hne' [H|H]]]; [right; left; auto | left; exact H | right; right; auto].
Qed.

Lemma mapSet_NoDup {V : Type} (k : string) (v : V) (m : list (string * V)) :
  List.NoDup (map fst m) -> List.NoDup (map fst (mapSet k v m)).
Proof.
  intros Hnd. rewrite mapSet_keys.
  destruct (in_dec string_dec k (map fst m)) as [_|Hout]; [exact Hnd|].
  apply List.NoDup_app; [exact Hnd | constructor; [intros [] | constructor] |].
  intros x Hx [<-|[]]. exact (Hout Hx).
Qed.

Lemma lastByName_step (seen : list PokemonMoveSummary) (m : list (string * PokemonMoveSummary))
  (move : PokemonMoveSummary) :
  lastByName seen m -> lastByName (seen ++ [move]) (mapSet (pm_name move) move m).
Proof.
  intros (Hnd & Hkeys & Hlast). split; [|split].
  - apply mapSet_NoDup. exact Hnd.
  - intros k. rewrite mapSet_keys, map_app, in_app_iff. cbn [map In].
    destruct (in_dec string_dec (pm_name move) (map fst m)) as [Hin|Hout].
    + rewrite Hkeys. split; [tauto|]. intros [H|[<-|[]]]; [exact H|]. apply Hkeys. exact Hin.
    + rewrite in_app_iff, Hkeys. cbn [In]. tauto.
  - intros k move' Hin. apply (mapSet_entries _ _ _ _ _ Hnd) in Hin.
    destruct Hin as [[-> ->]|[Hne Hin]].
    + split; [reflexivity|]. exists seen, []. split; [reflexivity | intros []].
    + destruct (Hlast k move' Hin) as (Hk & before & after & -> & Hafter).
      split; [exact Hk|]. exists before, (after ++ [move]).
      split; [rewrite <- app_assoc; reflexivity|].
      rewrite map_app, in_app_iff. cbn [map In]. intros [H|[H|[]]]; [exact (Hafter H)|].
      apply Hne. symmetry. exact H.
Qed.

Lemma lastByName_fold (moves seen : list PokemonMoveSummary)
  (m : list (string * PokemonMoveSummary)) :
  lastByName seen m ->
  lastByName (seen ++ moves)
    (fold_left (fun m kv => mapSet (fst kv) (snd kv) m)
               (map (fun move => (pm_name move, move)) moves) m).
Proof.
  revert seen m. induction moves as [|move moves IH]; intros seen m H; cbn [map fold_left fst snd].
  - rewrite app_nil_r. exact H.
  - replace (seen ++ move :: moves) with ((seen ++ [move]) ++ moves)
      by (rewrite <- app_assoc; reflexivity).
    apply IH. apply lastByName_step. exact H.
Qed.

(** X20. Making the top moves unique by name keeps one move per name, the
    last one of that name, and loses no name: the names of the result are
    pairwise distinct and are exactly the names of the input, every move
    kept is a move of the input with no later move of the same name, and
    the result is not longer than the input. *)
Theorem mapValues_last_of_each_name (topMoves : list PokemonMoveSummary) :
  let uniqueTopMoves := mapValues (map (fun m => (pm_name m, m)) topMoves) in
  List.NoDup (map pm_name uniqueTopMoves) /\
  (forall name, In name (map pm_name uniqueTopMoves) <-> In name (map pm_name topMoves)) /\
  (forall move, In move uniqueTopMoves ->
     exists before after,
       topMoves = before ++ move :: after /\ ~ In (pm_name move) (map pm_name after)) /\
  (length uniqueTopMoves <= length topMoves)%nat.
Proof.
  intros uniqueTopMoves. subst uniqueTopMoves. unfold mapValues.
  set (m := fold_left _ _ _).
  assert (H : lastByName topMoves m).
  { subst m. apply (lastByName_fold topMoves [] []).
    split; [constructor|]. split; [intros k; reflexivity | intros k move []]. }
  destruct H as (Hnd & Hkeys & Hlast).
  assert (Hnames : map pm_name (map snd m) = map fst m).
  { rewrite map_map. apply map_ext_in. intros [k move] Hin.
    destruct (Hlast k move Hin) as [-> _]. reflexivity. }
  split; [rewrite Hnames; exact Hnd|]. split; [|split].
  - intros name. rewrite Hnames. apply Hkeys.
  - intros move Hin. apply in_map_iff in Hin. destruct Hin as ([k move'] & Heq & Hin).
    cbn [snd] in Heq. subst move'.
    destruct (Hlast k move Hin) as (-> & before & after & Hsplit & Hafter).
    exists before, after. split; assumption.
  - rewrite length_map, <- (length_map fst m), <- (length_map pm_name topMoves).
    apply List.NoDup_incl_length; [exact Hnd|]. intros k Hk. apply Hkeys. exact Hk.
Qed.

(** ** Single selection and the search view *)

(** X22. A single selection replaces what was selected under its key and
    touches nothing else.  After selecting a generation the series test
    keeps exactly the cards whose set name or serie name is that value up
    to case; selecting [null] or the empty string lifts the test; the
    selection made before does not matter; and the tests on types, rarity
    and hp are as before. *)
Theorem handleSingleSelect_replaces (value : string) (earlier : option string)
  (prev : FilterOptions) (card : PokemonCard) :
  let next := handleSingleSelect SelectSeries (Some value) prev in
  (matchesSeries next card = true <->
   value = "" \/ sameIgnoringCase (set_name (card_set card)) value
   \/ sameIgnoringCase (serie_name (card_serie card)) value) /\
  matchesSeries (handleSingleSelect SelectSeries None prev) card = true /\
  handleSingleSelect SelectSeries (Some value) (handleSingleSelect SelectSeries earlier prev)
  = next /\
  matchesType next card = matchesType prev card /\
  matchesRarity next card = matchesRarity prev card /\
  matchesHp next card = matchesHp prev card /\
  filter_rarities (handleSingleSelect SelectRarities (Some value) prev)
  = (if Js.truthy value then [value] else []) /\
  filter_series (handleSingleSelect SelectRarities (Some value) prev) = filter_series prev.
Proof.
  intros next. subst next.
  split; [|split; [reflexivity|split; [reflexivity|repeat split]]].
  unfold handleSingleSelect, withSeries, matchesSeries, singleton_or_nil, sameIgnoringCase.
  cbn [filter_series].
  destruct value as [|c value]; cbn [Js.truthy isNil orb existsb]; [tauto|].
  rewrite orb_false_r, orb_true_iff, !String.eqb_eq. split.
  - intros [H|H]; [right; left | right; right]; exact H.
  - intros [H|[H|H]]; [discriminate H | left | right]; exact H.
Qed.

(** X23. The search view lists exactly the search results that pass the
    filters, each as often as it occurs, whatever the sort property, the
    direction and the collation; with a blank query it lists nothing, even
    while results of an earlier search are still held. *)
Theorem searchDisplayCards_members (localeCompare : string -> string -> Z)
  (sortProperty : SortProperty) (sortOrder : SortOrder) (filters : FilterOptions)
  (searchQuery : string) (searchResults : list PokemonCard) :
  let shown := searchDisplayCards localeCompare sortProperty sortOrder filters searchQuery
                 searchResults in
  (Js.trim searchQuery = "" -> shown = []) /\
  (Js.trim searchQuery <> "" ->
   Permutation shown (List.filter (matchesFilters filters) searchResults)) /\
  (forall card, In card shown <->
     Js.trim searchQuery <> "" /\ In card searchResults /\ matchesFilters filters card = true) /\
  (length shown <= length searchResults)%nat.
Proof.
  intros shown. subst shown. unfold searchDisplayCards, filteredSearchCards, sortCards.
  destruct (Js.trim searchQuery) as [|c rest] eqn:E; cbn [Js.truthy].
  - split; [reflexivity|]. split; [intros H; contradiction|]. split.
    + intros card. cbn. split; [intros [] | intros [H _]; contradiction].
    + cbn. lia.
  - pose proof (arraySort_perm (compareCards localeCompare sortProperty sortOrder)
                  (List.filter (matchesFilters filters) searchResults)) as Hperm.
    split; [discriminate|]. split; [intros _; exact Hperm|]. split.
    + intros card. rewrite <- filter_In. split.
      * intros H. split; [discriminate|]. exact (Permutation_in _ Hperm H).
      * intros [_ H]. exact (Permutation_in _ (Permutation_sym Hperm) H).
    + rewrite (Permutation_length Hperm). apply filter_length_le.
Qed.

(** ** What the strip-empty pass does to one member *)

Lemma getField_absent (k : string) (fields : list (string * value)) :
  ~ In k (map fst fields) -> getField k fields = None.
Proof.
  induction fields as [|[k' v'] fields IH]; intros H; cbn [getField]; [reflexivity|].
  destruct (String.eqb_spec k k') as [->|_].
  - exfalso. apply H. left. reflexivity.
  - apply IH. intros Hin. apply H. right. exact Hin.
Qed.

Lemma rewriteFields_keys (slot : value -> option value) (fields : list (string * value))
  (k : string) :
  In k (map fst (rewriteFields slot fields)) -> In k (map fst fields).
Proof.
  induction fields as [|[k' v'] fields IH]; cbn [rewriteFields map fst]; [intros []|].
  destruct (slot v'); cbn [map fst In]; tauto.
Qed.

Lemma getField_rewritten_unique (slot : value -> option value) (k : string)
  (fields : list (string * value)) :
  List.NoDup (map fst fields) ->
  getField k (rewriteFields slot fields)
  = match getField k fields with Some v => slot v | None => None end.
Proof.
  induction fields as [|[k' v'] fields IH]; intros Hnd; [reflexivity|].
  cbn [map fst] in Hnd. apply List.NoDup_cons_iff in Hnd. destruct Hnd as [Hk' Hnd].
  cbn [rewriteFields getField].
  destruct (String.eqb_spec k k') as [->|Hne].
  - destruct (slot v') as [w|]; cbn [getField]; [rewrite String.eqb_refl; reflexivity|].
    apply getField_absent. intros H. apply Hk'. exact (rewriteFields_keys _ _ _ H).
  - destruct (slot v'); cbn [getField]; [|exact (IH Hnd)].
    destruct (String.eqb_spec k k'); [contradiction | exact (IH Hnd)].
Qed.

(** X24. On an object (its keys being distinct) the strip-empty pass
    decides member by member.  A number (0 included), a boolean ([false]
    included) and a non-empty string stay as they are; the empty string,
    [null], [undefined], the empty array and the empty object go; no key is
    added, and a key that was absent stays absent.  So the pass removes
    what is empty, not what is falsy. *)
Theorem stripEmpty_member (fields : list (string * value)) (k : string) :
  List.NoDup (map fst fields) ->
  let stripped := stripEmpty (VObj fields) in
  (forall n, getField k fields = Some (VNum n) -> member k stripped = Some (VNum n)) /\
  (forall b, getField k fields = Some (VBool b) -> member k stripped = Some (VBool b)) /\
  (forall s, getField k fields = Some (VStr s) -> s <> "" ->
             member k stripped = Some (VStr s)) /\
  (forall v, getField k fields = Some v ->
             In v [VStr ""; VNull; VUndefined; VArr []; VObj []] ->
             member k stripped = None) /\
  (getField k fields = None -> member k stripped = None) /\
  (forall v, member k stripped = Some v -> In k (map fst fields) /\ isEmptyValue v = false).
Proof.
  intros Hnd stripped.
  assert (H : member k stripped
              = match getField k fields with
                | Some v => stripSlot stripEmpty v
                | None => None
                end).
  { subst stripped. cbn [stripEmpty member]. apply getField_rewritten_unique. exact Hnd. }
  rewrite H. split; [|split; [|split; [|split; [|split]]]].
  - intros n ->. reflexivity.
  - intros b ->. reflexivity.
  - intros s -> Hs. destruct s; [contradiction | reflexivity].
  - intros v -> Hv. cbn [In] in Hv.
    repeat (destruct Hv as [<-|Hv]; [reflexivity|]). destruct Hv.
  - intros ->. reflexivity.
  - intros v Hv. destruct (getField k fields) as [v0|] eqn:E; [|discriminate Hv]. split.
    + clear - E. induction fields as [|[k' v'] fields IH]; [discriminate E|].
      cbn [getField] in E. cbn [map fst In].
      destruct (String.eqb_spec k k') as [->|_]; [left; reflexivity | right; exact (IH E)].
    + clear - Hv.
      destruct v0 as [ | | b | n | s | elems | fs ]; cbn [stripSlot] in Hv.
      * discriminate Hv.
      * discriminate Hv.
      * injection Hv as <-. reflexivity.
      * injection Hv as <-. reflexivity.
      * cbn [isEmptyValue] in Hv. destruct (Js.truthy s) eqn:T; cbn [negb] in Hv;
          [injection Hv as <-; cbn [isEmptyValue]; rewrite T; reflexivity | discriminate Hv].
      * destruct (mapFilterDense (stripItem stripEmpty) (fun y => negb (isEmptyValue y)) elems);
          [discriminate Hv | injection Hv as <-; reflexivity].
      * cbv zeta in Hv. destruct (isEmptyValue (stripEmpty (VObj fs))) eqn:T;
          [discriminate Hv | injection Hv as <-; exact T].
Qed.

Lemma stripEmpty_member_witness :
  member "hidden" (stripEmpty (VObj [("name", VStr ""); ("hidden", VBool false);
                                     ("level", VNum 0)]))
  = Some (VBool false).
Proof.
  assert (Hnd : List.NoDup (map fst [("name", VStr ""); ("hidden", VBool false);
                                     ("level", VNum 0)])).
  { cbn. repeat constructor; cbn; intuition discriminate. }
  exact (proj1 (proj2 (stripEmpty_member _ "hidden" Hnd)) false eq_refl).
Defined.

(** ** Title case *)

Lemma append_cons (c : ascii) (a b : string) : String c a +:+ b = String c (a +:+ b).
Proof. reflexivity. Qed.

Lemma append_empty_r (a : string) : a +:+ "" = a.
Proof. induction a as [|c a IH]; [reflexivity|]. rewrite append_cons, IH. reflexivity. Qed.

Lemma append_snoc (a : string) (c : ascii) (b : string) :
  (a +:+ String c "") +:+ b = a +:+ String c b.
Proof.
  induction a as [|x a IH]; [reflexivity|]. rewrite !append_cons, IH. reflexivity.
Qed.

Lemma noSeparator_snoc (a : string) (c : ascii) :
  noSeparator a = true -> isSlugSeparator c = false -> noSeparator (a +:+ String c "") = true.
Proof.
  intros Ha Hc. induction a as [|x a IH].
  - cbn [noSeparator]. change ("" +:+ String c "") with (String c ""). cbn [noSeparator].
    rewrite Hc. reflexivity.
  - rewrite append_cons. cbn [noSeparator] in *. apply andb_true_iff in Ha.
    destruct Ha as [Hx Ha]. rewrite Hx, (IH Ha). reflexivity.
Qed.

Lemma splitRuns_words (cur s : string) :
  noSeparator cur = true -> Forall isWord (Js.splitRuns isSlugSeparator cur s).
Proof.
  revert cur. induction s as [|c s IH]; intros cur Hcur; cbn [Js.splitRuns].
  - destruct cur; [constructor|]. constructor; [|constructor]. split; [discriminate | exact Hcur].
  - destruct (isSlugSeparator c) eqn:E.
    + apply Forall_app. split; [|apply IH; reflexivity].
      destruct cur; [constructor|]. constructor; [|constructor].
      split; [discriminate | exact Hcur].
    + apply IH. apply noSeparator_snoc; assumption.
Qed.

Lemma splitRuns_nil (cur s : string) :
  Js.splitRuns isSlugSeparator cur s = [] <-> cur = "" /\ onlySeparators s = true.
Proof.
  revert cur. induction s as [|c s IH]; intros cur; cbn [Js.splitRuns onlySeparators].
  - destruct cur; [tauto|]. split; [discriminate | intros [H _]; discriminate H].
  - destruct (isSlugSeparator c) eqn:E; cbn [andb].
    + destruct cur as [|x cur].
      * cbn [app]. rewrite IH. tauto.
      * split; [discriminate | intros [H _]; discriminate H].
    + rewrite IH. split; [|intros [_ H]; discriminate H].
      intros [H _]. destruct cur; discriminate H.
Qed.

Lemma splitRuns_word (p cur rest : string) :
  noSeparator p = true ->
  Js.splitRuns isSlugSeparator cur (p +:+ rest) = Js.splitRuns isSlugSeparator (cur +:+ p) rest.
Proof.
  revert cur. induction p as [|c p IH]; intros cur Hp.
  - change ("" +:+ rest) with rest. rewrite append_empty_r. reflexivity.
  - cbn [noSeparator] in Hp. apply andb_true_iff in Hp. destruct Hp as [Hc Hp].
    apply negb_true_iff in Hc.
    rewrite append_cons. cbn [Js.splitRuns]. rewrite Hc, (IH _ Hp), append_snoc. reflexivity.
Qed.

Lemma splitRuns_join (parts : list string) :
  Forall isWord parts -> Js.splitRuns isSlugSeparator "" (Js.join " " parts) = parts.
Proof.
  induction 1 as [|p parts [Hne Hp] Hparts IH]; [reflexivity|].
  destruct parts as [|q parts].
  - cbn [Js.join]. rewrite <- (append_empty_r p) at 1. rewrite (splitRuns_word p "" "" Hp).
    change ("" +:+ p) with p. cbn [Js.splitRuns]. destruct p; [contradiction | reflexivity].
  - change (Js.join " " (p :: q :: parts)) with (p +:+ " " +:+ Js.join " " (q :: parts)).
    rewrite (splitRuns_word p "" _ Hp). change ("" +:+ p) with p.
    change (" " +:+ Js.join " " (q :: parts)) with (String " " (Js.join " " (q :: parts))).
    cbn [Js.splitRuns]. change (isSlugSeparator " ") with true. cbv iota.
    rewrite IH. destruct p; [contradiction | reflexivity].
Qed.

Lemma upperChar_facts (c : ascii) :
  Js.upperChar (Js.upperChar c) = Js.upperChar c /\
  Js.isLower (Js.upperChar c) = false /\
  (isSlugSeparator c = false -> isSlugSeparator (Js.upperChar c) = false).
Proof. destruct c as [[] [] [] [] [] [] [] []]; vm_compute; auto. Qed.

Lemma capitalize_word (p : string) : isWord p -> isWord (capitalize p).
Proof.
  intros [Hne Hp]. destruct p as [|c p]; [contradiction|]. unfold isWord.
  cbn [capitalize noSeparator] in *.
  apply andb_true_iff in Hp. destruct Hp as [Hc Hp]. apply negb_true_iff in Hc.
  split; [discriminate|].
  rewrite (proj2 (proj2 (upperChar_facts c)) Hc), Hp. reflexivity.
Qed.

Lemma capitalize_twice (p : string) : capitalize (capitalize p) = capitalize p.
Proof.
  destruct p as [|c p]; [reflexivity|]. cbn [capitalize].
  rewrite (proj1 (upperChar_facts c)). reflexivity.
Qed.

Lemma splitRuns_replaced (cls : ascii -> bool) (cur s : string) :
  (forall c, cls c = true -> isSlugSeparator c = true) ->
  Js.splitRuns isSlugSeparator cur (Js.replaceAll cls " " s)
  = Js.splitRuns isSlugSeparator cur s.
Proof.
  intros Hcls. unfold Js.replaceAll. revert cur.
  induction s as [|c s IH]; intros cur; cbn [Js.mapChars Js.splitRuns]; [reflexivity|].
  destruct (cls c) eqn:E.
  - change (isSlugSeparator " ") with true. cbv iota. rewrite (Hcls c E), IH. reflexivity.
  - destruct (isSlugSeparator c); rewrite IH; reflexivity.
Qed.

Lemma join_head (p : string) (parts : list string) (c : ascii) (rest : string) :
  p <> "" -> Js.join " " (p :: parts) = String c rest -> exists r, p = String c r.
Proof.
  intros Hne H. destruct p as [|x p]; [contradiction|].
  destruct parts as [|q parts].
  - cbn [Js.join] in H. inversion H. eauto.
  - change (Js.join " " (String x p :: q :: parts))
      with (String x (p +:+ " " +:+ Js.join " " (q :: parts))) in H.
    inversion H. eauto.
Qed.

(** X21. Title-casing yields a normal form: applying it again changes
    nothing, and replacing hyphens (or hyphens and underscores) by spaces
    beforehand, as the normalizer does for stats, learn methods and version
    groups, makes no difference.  The result is empty exactly when the
    input holds separators only, and otherwise starts with a character that
    is neither a lowercase letter nor a separator. *)
Theorem toTitleCase_normal_form (value : string) :
  toTitleCase (toTitleCase value) = toTitleCase value /\
  toTitleCase (Js.replaceAll isHyphen " " value) = toTitleCase value /\
  toTitleCase (Js.replaceAll isHyphenOrUnderscore " " value) = toTitleCase value /\
  (toTitleCase value = "" <-> onlySeparators value = true) /\
  (forall c rest, toTitleCase value = String c rest ->
                  Js.isLower c = false /\ isSlugSeparator c = false).
Proof.
  pose proof (splitRuns_words "" value eq_refl) as Hwords.
  assert (Hcaps : Forall isWord (map capitalize (Js.splitRuns isSlugSeparator "" value))).
  { apply List.Forall_map. eapply List.Forall_impl; [|exact Hwords]. exact capitalize_word. }
  split; [|split; [|split; [|split]]].
  - unfold toTitleCase. rewrite (splitRuns_join _ Hcaps), map_map.
    f_equal. apply map_ext. exact capitalize_twice.
  - unfold toTitleCase. rewrite splitRuns_replaced; [reflexivity|].
    intros c H. unfold isSlugSeparator. unfold isHyphen in H. rewrite H. reflexivity.
  - unfold toTitleCase. rewrite splitRuns_replaced; [reflexivity|].
    intros c H. unfold isSlugSeparator. unfold isHyphenOrUnderscore in H.
    rewrite H. reflexivity.
  - unfold toTitleCase.
    destruct (Js.splitRuns isSlugSeparator "" value) as [|p parts] eqn:E.
    + split; [intros _ | reflexivity]. apply splitRuns_nil in E. tauto.
    + split.
      * intros H. exfalso. inversion Hcaps as [|? ? [Hne _] _]; subst.
        destruct (capitalize p) as [|x r] eqn:Ep; [contradiction|].
        cbn [map] in H. rewrite Ep in H.
        destruct (map capitalize parts); [discriminate H|].
        change (Js.join " " (String x r :: s :: l))
          with (String x (r +:+ " " +:+ Js.join " " (s :: l))) in H. discriminate H.
      * intros H. assert (Hnil : Js.splitRuns isSlugSeparator "" value = [])
          by (apply splitRuns_nil; tauto).
        rewrite E in Hnil. discriminate Hnil.
  - intros c rest H. unfold toTitleCase in H.
    destruct (Js.splitRuns isSlugSeparator "" value) as [|p parts] eqn:E; [discriminate H|].
    cbn [map] in H, Hcaps. inversion Hcaps as [|? ? [Hne Hsep] _]; subst.
    destruct (join_head _ _ _ _ Hne H) as [r Hr].
    inversion Hwords as [|? ? [Hpne Hp] _]; subst.
    destruct p as [|x p]; [contradiction|]. cbn [capitalize] in Hr. inversion Hr; subst.
    cbn [noSeparator] in Hp. apply andb_true_iff in Hp. destruct Hp as [Hx _].
    apply negb_true_iff in Hx.
    split; [apply upperChar_facts | apply upperChar_facts; exact Hx].
Qed.

(** ** The types of a card against the type filter *)

Lemma strip_strings (l : list string) :
  mapFilterDense (stripItem stripEmpty) (fun y => negb (isEmptyValue y))
                 (map (fun x => Some (VStr x)) l)
  = map VStr (List.filter Js.truthy l).
Proof.
  induction l as [|x l IH]; [reflexivity|].
  cbn [map mapFilterDense stripItem isEmptyValue List.filter]. rewrite negb_involutive.
  destruct (Js.truthy x); cbn [map]; rewrite IH; reflexivity.
Qed.

Lemma read_strings (l : list string) :
  omap (fun e => match e with Some (VStr x) => Some x | _ => None end)
       (map Some (map VStr l)) = l.
Proof. induction l as [|x l IH]; [reflexivity|]. cbn. rewrite IH. reflexivity. Qed.

Lemma types_of_card (pokemon : PokeApiPokemon) :
  let titles := List.filter Js.truthy
                  (map (fun typeSlot => toTitleCase (type_name typeSlot)) (types pokemon)) in
  stringsMember "types" (mapPokemonToCard pokemon)
  = match titles with [] => None | _ => Some titles end.
Proof.
  intros titles. unfold stringsMember.
  rewrite (candidate_member pokemon "types"
             (strings (map (fun typeSlot => toTitleCase (type_name typeSlot)) (types pokemon))));
    [ | candidate_unique | candidate_has ].
  unfold strings, stripSlot. rewrite strip_strings. subst titles.
  destruct (List.filter Js.truthy
              (map (fun typeSlot => toTitleCase (type_name typeSlot)) (types pokemon)))
    as [|t rest]; [reflexivity|].
  change (map VStr (t :: rest)) with (VStr t :: map VStr rest). cbv iota.
  change (VStr t :: map VStr rest) with (map VStr (t :: rest)).
  rewrite read_strings. reflexivity.
Qed.

(** X25. The type labels of the filter are title-cased remote names, and so
    are the types of a normalized card.  With no type selected before,
    selecting a label keeps a normalized card exactly when one of the types
    of its raw record has a non-empty title equal to the label up to case;
    in particular the label made from one of its own types keeps it, and a
    card whose types all have an empty title has no types and is hidden by
    any selection. *)
Theorem type_label_selects (pokemon : PokeApiPokemon) (card : PokemonCard)
  (filters : FilterOptions) (label : string) :
  card_types card = stringsMember "types" (mapPokemonToCard pokemon) ->
  filter_types filters = [] ->
  (matchesType (handleTypeToggle label filters) card = true <->
   exists typeSlot, In typeSlot (types pokemon) /\
                    toTitleCase (type_name typeSlot) <> "" /\
                    sameIgnoringCase (toTitleCase (type_name typeSlot)) label) /\
  (forall typeSlot, In typeSlot (types pokemon) -> toTitleCase (type_name typeSlot) <> "" ->
     matchesType (handleTypeToggle (toTitleCase (type_name typeSlot)) filters) card = true).
Proof.
  intros Hcard Hnone. rewrite types_of_card in Hcard. cbv zeta in Hcard.
  assert (Hiff : forall l,
            matchesType (handleTypeToggle l filters) card = true <->
            exists typeSlot, In typeSlot (types pokemon) /\
                             toTitleCase (type_name typeSlot) <> "" /\
                             sameIgnoringCase (toTitleCase (type_name typeSlot)) l).
  { intros l. unfold matchesType, handleTypeToggle. cbn [filter_types withTypes].
    rewrite Hnone. cbn [existsb app isNil orb forallb]. rewrite andb_true_r, Hcard.
    set (titles := List.filter Js.truthy
                     (map (fun typeSlot => toTitleCase (type_name typeSlot)) (types pokemon))).
    assert (Hex : existsb (fun cardType => String.eqb (Js.toLowerCase cardType) (Js.toLowerCase l))
                          titles = true <->
                  exists typeSlot, In typeSlot (types pokemon) /\
                                   toTitleCase (type_name typeSlot) <> "" /\
                                   sameIgnoringCase (toTitleCase (type_name typeSlot)) l).
    { rewrite existsb_exists. subst titles. split.
      - intros (t & Hin & Heq). apply filter_In in Hin. destruct Hin as [Hin Ht].
        apply in_map_iff in Hin. destruct Hin as (typeSlot & <- & Hin).
        exists typeSlot. split; [exact Hin|]. split.
        + intros E. rewrite E in Ht. discriminate Ht.
        + apply String.eqb_eq. exact Heq.
      - intros (typeSlot & Hin & Hne & Heq).
        exists (toTitleCase (type_name typeSlot)). split.
        + apply filter_In. split.
          * apply in_map_iff. exists typeSlot. split; [reflexivity | exact Hin].
          * destruct (toTitleCase (type_name typeSlot)); [contradiction | reflexivity].
        + apply String.eqb_eq. exact Heq. }
    destruct titles as [|t titles'] eqn:E.
    - split; [discriminate|]. intros H. apply Hex in H. discriminate H.
    - exact Hex. }
  split; [apply Hiff|].
  intros typeSlot Hin Hne. apply Hiff. exists typeSlot.
  split; [exact Hin|]. split; [exact Hne | reflexivity].
Qed.

Lemma type_label_selects_witness :
  matchesType (handleTypeToggle "Poison" clearedFilters) cardBulbasaur = true.
Proof.
  refine (proj2 (type_label_selects bulbasaur cardBulbasaur clearedFilters "Poison"
                   eq_refl eq_refl)
            {| slot := 2; type_name := "poison" |} _ _).
  - right. left. reflexivity.
  - discriminate.
Defined.
